(** * GBlocks: alignment and block-trimming engine (src/gblock.py)

    A shallow embedding of the alignment-and-trimming core of gblock.py and
    the properties its specification states about it.

    Conventions of the embedding.
    - A Python [str] is the list of its characters; characters are code
      points below 256 ([ascii]).
    - A Python [int] is a [Z]; list lengths and loop counters that only
      count upwards from 0 are [nat].
    - A Python [float] obtained as a quotient of two counts, or given as a
      threshold, is the exact rational it denotes ([Q]); comparisons of
      ratios are comparisons of rationals.
    - A raised exception is a value of [result]; a [while] loop is a
      function with fuel, which answers [OutOfFuel] when the fuel is used
      up before the loop condition fails. *)

From Stdlib Require Import Ascii String.
From Stdlib Require Import ZArith QArith Qminmax Bool Arith Lia List.
Import ListNotations.

Close Scope Q_scope.
Set Implicit Arguments.

(* ===================================================================== *)
(** * Python values and effects                                           *)
(* ===================================================================== *)

Definition str := list ascii.

Definition lit (s : string) : str := list_ascii_of_string s.

Definition gapc : ascii := "-"%char.
Definition gtc : ascii := ">"%char.
Definition LF : ascii := "010"%char.
Definition CR : ascii := "013"%char.

Definition is_gap (c : ascii) : bool := Ascii.eqb c gapc.

Fixpoint str_eqb (x y : str) : bool :=
  match x, y with
  | [], [] => true
  | c :: x', d :: y' => Ascii.eqb c d && str_eqb x' y'
  | _, _ => false
  end.

Inductive exn : Type :=
| ValueError
| IndexError
| KeyError
| ZeroDivisionError.

Inductive result (A : Type) : Type :=
| Ok (a : A)
| Raise (e : exn)
| OutOfFuel.

Arguments Ok {A} a.
Arguments Raise {A} e.
Arguments OutOfFuel {A}.

Definition bind {A B : Type} (r : result A) (k : A -> result B) : result B :=
  match r with
  | Ok a => k a
  | Raise e => Raise e
  | OutOfFuel => OutOfFuel
  end.

Notation "x <- r ;; k" := (bind r (fun x => k))
  (at level 61, r at next level, right associativity).
Notation "' p <- r ;; k" := (bind r (fun p => k))
  (at level 61, p pattern, r at next level, right associativity).

(** [for x in l: acc = f(acc, x)] where the body may raise. *)
Fixpoint foldM {A S : Type} (f : S -> A -> result S) (l : list A) (s : S)
  : result S :=
  match l with
  | [] => Ok s
  | x :: l' => s' <- f s x ;; foldM f l' s'
  end.

(** A list comprehension [[f(x) for x in l]] whose element may raise. *)
Fixpoint mapM {A B : Type} (f : A -> result B) (l : list A) : result (list B) :=
  match l with
  | [] => Ok []
  | x :: l' => y <- f x ;; ys <- mapM f l' ;; Ok (y :: ys)
  end.

(** [[x for x in l if p(x)]] whose test may raise. *)
Fixpoint filterM {A : Type} (p : A -> result bool) (l : list A) : result (list A) :=
  match l with
  | [] => Ok []
  | x :: l' =>
      b <- p x ;; ys <- filterM p l' ;; Ok (if b then x :: ys else ys)
  end.

(** [l[k]] for a Python integer [k]: a negative index counts from the end,
    an index outside [-len, len) raises IndexError. *)
Definition py_index {A : Type} (l : list A) (k : Z) : result A :=
  let n := Z.of_nat (length l) in
  let k' := if (k <? 0)%Z then (k + n)%Z else k in
  if ((0 <=? k') && (k' <? n))%Z then
    match nth_error l (Z.to_nat k') with
    | Some x => Ok x
    | None => Raise IndexError
    end
  else Raise IndexError.

(** [l[k]] for a counter [k] that is never negative. *)
Definition py_get {A : Type} (l : list A) (k : nat) : result A :=
  py_index l (Z.of_nat k).

(** [l[k] = v] for an index the surrounding loop keeps within range. *)
Fixpoint upd {A : Type} (l : list A) (k : nat) (v : A) : list A :=
  match l, k with
  | [], _ => []
  | _ :: l', O => v :: l'
  | x :: l', S k' => x :: upd l' k' v
  end.

(** [range(s, e)] *)
Definition range (s e : nat) : list nat := seq s (e - s).

(** [enumerate(l)] *)
Definition enumerate {A : Type} (l : list A) : list (nat * A) :=
  combine (seq 0 (length l)) l.

(* ===================================================================== *)
(** * Pairwise aligner: [nw_align]                                         *)
(* ===================================================================== *)

Definition mat := list (list Z).

Definition mget (M : mat) (i j : nat) : Z := nth j (nth i M []) 0%Z.

Definition mset (M : mat) (i j : nat) (v : Z) : mat :=
  upd M i (upd (nth i M []) j v).

(** [[[0]*(m+1) for _ in range(n+1)]] *)
Definition zeros (n m : nat) : mat := repeat (repeat 0%Z (m + 1)) (n + 1).

(** The two initialisation loops: [score[i][0] = i*gap; trace[i][0] = 2]
    and [score[0][j] = j*gap; trace[0][j] = 3]. *)
Definition nw_init (n m : nat) (gap : Z) : mat * mat :=
  let st0 := (zeros n m, zeros n m) in
  let st1 :=
    fold_left (fun st i => (mset (fst st) i 0 (Z.of_nat i * gap), mset (snd st) i 0 2%Z))
              (range 1 (n + 1)) st0 in
  fold_left (fun st j => (mset (fst st) 0 j (Z.of_nat j * gap), mset (snd st) 0 j 3%Z))
            (range 1 (m + 1)) st1.

(** The body of the double loop at cell [(i, j)], [1 <= i <= n],
    [1 <= j <= m]. *)
Definition nw_cell (a b : str) (mtch mismatch gap : Z) (i j : nat)
  (st : mat * mat) : mat * mat :=
  let score := fst st in
  let trace := snd st in
  let ai := nth (i - 1) a gapc in
  let bj := nth (j - 1) b gapc in
  let sdiag := (mget score (i - 1) (j - 1) + (if Ascii.eqb ai bj then mtch else mismatch))%Z in
  let sup := (mget score (i - 1) j + gap)%Z in
  let sleft := (mget score i (j - 1) + gap)%Z in
  if ((sup <=? sdiag) && (sleft <=? sdiag))%Z then
    (mset score i j sdiag, mset trace i j 1%Z)
  else if (sleft <=? sup)%Z then
    (mset score i j sup, mset trace i j 2%Z)
  else
    (mset score i j sleft, mset trace i j 3%Z).

Definition nw_row (a b : str) (mtch mismatch gap : Z) (i : nat)
  (st : mat * mat) : mat * mat :=
  fold_left (fun st j => nw_cell a b mtch mismatch gap i j st)
            (range 1 (length b + 1)) st.

(** The score and trace matrices when the fill loops are over. *)
Definition nw_matrices (a b : str) (mtch mismatch gap : Z) : mat * mat :=
  fold_left (fun st i => nw_row a b mtch mismatch gap i st)
            (range 1 (length a + 1))
            (nw_init (length a) (length b) gap).

(** The traceback loop [while i>0 or j>0]. [A] and [B] grow by [append]. *)
Fixpoint nw_traceback (fuel : nat) (a b : str) (trace : mat) (i j : Z)
  (A B : str) : result (str * str) :=
  if ((0 <? i) || (0 <? j))%Z then
    match fuel with
    | O => OutOfFuel
    | S fuel' =>
        row <- py_index trace i ;;
        t <- py_index row j ;;
        if (t =? 1)%Z then
          ai <- py_index a (i - 1) ;;
          bj <- py_index b (j - 1) ;;
          nw_traceback fuel' a b trace (i - 1) (j - 1) (A ++ [ai]) (B ++ [bj])
        else if (t =? 2)%Z then
          ai <- py_index a (i - 1) ;;
          nw_traceback fuel' a b trace (i - 1) j (A ++ [ai]) (B ++ [gapc])
        else
          bj <- py_index b (j - 1) ;;
          nw_traceback fuel' a b trace i (j - 1) (A ++ [gapc]) (B ++ [bj])
    end
  else Ok (rev A, rev B).

Definition nw_align (a b : str) (mtch mismatch gap : Z) : result (str * str) :=
  let n := length a in
  let m := length b in
  let trace := snd (nw_matrices a b mtch mismatch gap) in
  nw_traceback (n + m) a b trace (Z.of_nat n) (Z.of_nat m) [] [].

(** The default scoring constants of [nw_align]. *)
Definition default_match : Z := 1.
Definition default_mismatch : Z := -1.
Definition default_gap : Z := -2.

(** Removal of every gap character, [s.replace('-', '')]. *)
Definition degap (s : str) : str := filter (fun c => negb (is_gap c)) s.

(** The string holds no gap character. *)
Definition gap_free (s : str) : Prop :=
  forallb (fun c => negb (is_gap c)) s = true.

(** [gapped s X]: [X] is [s] with gap characters inserted, every character
    of [s] kept once and in order. *)
Inductive gapped : str -> str -> Prop :=
| gapped_nil : gapped [] []
| gapped_keep : forall c s X, gapped s X -> gapped (c :: s) (c :: X)
| gapped_ins : forall s X, gapped s X -> gapped s (gapc :: X).

(** A matrix of [n+1] rows of [m+1] cells. *)
Definition dims (M : mat) (n m : nat) : Prop :=
  length M = n + 1 /\ forall i, i <= n -> length (nth i M []) = m + 1.

(** The three candidates of the recurrence at cell [(i, j)], read from a
    score matrix. *)
Definition cand_diag (a b : str) (mtch mismatch : Z) (score : mat) (i j : nat) : Z :=
  (mget score (i - 1) (j - 1)
   + (if Ascii.eqb (nth (i - 1) a gapc) (nth (j - 1) b gapc)
      then mtch else mismatch))%Z.

Definition cand_up (gap : Z) (score : mat) (i j : nat) : Z :=
  (mget score (i - 1) j + gap)%Z.

Definition cand_left (gap : Z) (score : mat) (i j : nat) : Z :=
  (mget score i (j - 1) + gap)%Z.

(** The recorded direction prefers the diagonal, then up, then left, among
    the candidates that reach the maximum. *)
Definition tie_break (d u l t : Z) : Prop :=
  let best := Z.max d (Z.max u l) in
  (t = 1%Z /\ d = best)
  \/ (t = 2%Z /\ d <> best /\ u = best)
  \/ (t = 3%Z /\ d <> best /\ u <> best /\ l = best).

(** Base row and base column of the two matrices. *)
Definition nw_base (gap : Z) (st : mat * mat) (n m : nat) : Prop :=
  (forall i, i <= n -> mget (fst st) i 0 = (Z.of_nat i * gap)%Z)
  /\ (forall j, j <= m -> mget (fst st) 0 j = (Z.of_nat j * gap)%Z)
  /\ (forall i, 1 <= i <= n -> mget (snd st) i 0 = 2%Z)
  /\ (forall j, 1 <= j <= m -> mget (snd st) 0 j = 3%Z).

(** Cell [(i, j)] holds the maximum of its three candidates and the
    direction the tie-break picks. *)
Definition cell_ok (a b : str) (mtch mismatch gap : Z) (st : mat * mat)
  (i j : nat) : Prop :=
  let d := cand_diag a b mtch mismatch (fst st) i j in
  let u := cand_up gap (fst st) i j in
  let l := cand_left gap (fst st) i j in
  mget (fst st) i j = Z.max d (Z.max u l) /\ tie_break d u l (mget (snd st) i j).

(** The loop invariant of the fill: every inner cell before [(i, j)] in
    row-major order is filled. *)
Definition nw_inv (a b : str) (mtch mismatch gap : Z) (st : mat * mat)
  (i j : nat) : Prop :=
  dims (fst st) (length a) (length b)
  /\ dims (snd st) (length a) (length b)
  /\ nw_base gap st (length a) (length b)
  /\ forall i' j', 1 <= i' <= length a -> 1 <= j' <= length b ->
                  (i' < i \/ (i' = i /\ j' < j)) ->
                  cell_ok a b mtch mismatch gap st i' j'.

(* ===================================================================== *)
(** * Center-star builder: [center_star_align]                             *)
(* ===================================================================== *)

Definition entry := (str * str)%type.

(** [gap_pattern_from_aligned_base]: the loop state is
    [(gaps_before, i_base, run)]. *)
Definition gap_pattern_step (L : nat) (st : list nat * nat * nat) (ch : ascii)
  : list nat * nat * nat :=
  let '(gaps_before, i_base, run) := st in
  if is_gap ch then (gaps_before, i_base, run + 1)
  else
    ((if i_base <? L then upd gaps_before i_base (nth i_base gaps_before 0 + run)
      else gaps_before),
     i_base + 1, 0).

Definition gap_pattern_from_aligned_base (base_ref aln_base : str) : list nat :=
  let L := length base_ref in
  let '(gaps_before, _, run) :=
    fold_left (gap_pattern_step L) aln_base (repeat 0 (L + 1), 0, 0) in
  upd gaps_before L (nth L gaps_before 0 + run).

Definition merge_gap_patterns_max (p1 p2 : list nat) : list nat :=
  let L := Nat.max (length p1) (length p2) in
  map (fun i =>
         let a := if i <? length p1 then nth i p1 0 else 0 in
         let b := if i <? length p2 then nth i p2 0 else 0 in
         Nat.max a b)
      (range 0 L).

(** First loop of [expand_to_pattern]: the copy [aln_base] rebuilt from
    [aln_seq]; the state is [(aln_base, j_base)]. *)
Definition expand_rebuild_step (base_ref : str) (st : str * nat) (ch : ascii)
  : result (str * nat) :=
  let '(aln_base, j_base) := st in
  if is_gap ch then Ok (aln_base ++ [gapc], j_base)
  else c <- py_get base_ref j_base ;; Ok (aln_base ++ [c], j_base + 1).

(** The inner [while i_aln<len(aln_seq)] loop with its [break]; the state
    is [(out, i_aln)]. *)
Fixpoint expand_inner (fuel : nat) (aln_seq aln_base : str) (out : str)
  (i_aln : nat) : result (str * nat) :=
  if i_aln <? length aln_seq then
    match fuel with
    | O => OutOfFuel
    | S fuel' =>
        ch_a <- py_get aln_seq i_aln ;;
        ch_b <- py_get aln_base i_aln ;;
        let i_aln' := i_aln + 1 in
        let out' := out ++ [ch_a] in
        if negb (is_gap ch_b) then Ok (out', i_aln')
        else expand_inner fuel' aln_seq aln_base out' i_aln'
    end
  else Ok (out, i_aln).

Definition expand_to_pattern (base_ref aln_seq : str) (target_gaps : list nat)
  : result str :=
  let L := length base_ref in
  '(aln_base, _) <- foldM (expand_rebuild_step base_ref) aln_seq ([], 0) ;;
  '(out, _) <-
    foldM (fun (st : str * nat) k =>
             let '(out, i_aln) := st in
             g <- py_get target_gaps k ;;
             expand_inner (length aln_seq) aln_seq aln_base
                          (out ++ repeat gapc g) i_aln)
          (range 0 L) ([], 0) ;;
  g <- py_get target_gaps L ;;
  Ok (out ++ repeat gapc g).

(** [max(range(len(entries)), key=lambda i: len(entries[i][1]))]: the first
    index of a longest entry; ValueError on an empty range. *)
Definition center_index (entries : list entry) : result nat :=
  match enumerate entries with
  | [] => Raise ValueError
  | (i0, e0) :: rest =>
      Ok (fst (fold_left
                 (fun (best : nat * nat) (ie : nat * entry) =>
                    let len := length (snd (snd ie)) in
                    if snd best <? len then (fst ie, len) else best)
                 rest (i0, length (snd e0))))
  end.

(** A Python [dict] with string keys, as the association list of its items
    in insertion order; [d[k] = v] replaces the value of a present key. *)
Fixpoint dict_set {V : Type} (d : list (str * V)) (k : str) (v : V)
  : list (str * V) :=
  match d with
  | [] => [(k, v)]
  | (k', v') :: d' =>
      if str_eqb k' k then (k', v) :: d' else (k', v') :: dict_set d' k v
  end.

Fixpoint dict_get {V : Type} (d : list (str * V)) (k : str) : result V :=
  match d with
  | [] => Raise KeyError
  | (k', v') :: d' => if str_eqb k' k then Ok v' else dict_get d' k
  end.

(** [list.sort(key=...)] is stable: an insertion sort on the computed key,
    an element going before the later ones of the same key. *)
Fixpoint insert_by_key {A : Type} (x : nat * A) (l : list (nat * A))
  : list (nat * A) :=
  match l with
  | [] => [x]
  | y :: l' => if fst y <? fst x then y :: insert_by_key x l' else x :: y :: l'
  end.

Definition sort_by_key {A : Type} (l : list (nat * A)) : list (nat * A) :=
  fold_right (fun x acc => insert_by_key x acc) [] l.

(** The body of the main loop of [center_star_align]; the state is
    [(master_gaps, aligned_headers, aligned_seqs)]. *)
Definition center_star_step (base_ref : str) (mtch mismatch gap : Z)
  (st : list nat * list str * list str) (e : entry)
  : result (list nat * list str * list str) :=
  let '(master_gaps, aligned_headers, aligned_seqs) := st in
  let '(h, seq) := e in
  '(aln_base, aln_seq) <- nw_align base_ref seq mtch mismatch gap ;;
  let gaps_new := gap_pattern_from_aligned_base base_ref aln_base in
  let merged := merge_gap_patterns_max master_gaps gaps_new in
  aligned_seqs' <- mapM (fun s_prev => expand_to_pattern base_ref s_prev merged)
                        aligned_seqs ;;
  s_new <- expand_to_pattern base_ref aln_seq merged ;;
  Ok (merged, aligned_headers ++ [h], aligned_seqs' ++ [s_new]).

Definition center_star_align (entries : list entry) (mtch mismatch gap : Z)
  : result (list entry) :=
  center_idx <- center_index entries ;;
  e_c <- py_get entries center_idx ;;
  let base_ref := snd e_c in
  let L := length base_ref in
  '(_, aligned_headers, aligned_seqs) <-
    foldM (center_star_step base_ref mtch mismatch gap) entries
          (repeat 0 (L + 1), [], []) ;;
  let order :=
    fold_left (fun d (ih : nat * entry) => dict_set d (fst (snd ih)) (fst ih))
              (enumerate entries) [] in
  let out := combine aligned_headers aligned_seqs in
  keyed <- mapM (fun x : entry => k <- dict_get order (fst x) ;; Ok (k, x)) out ;;
  Ok (map snd (sort_by_key keyed)).

(** All residue strings of a list of entries have the same length. *)
Definition equal_length (es : list entry) : Prop :=
  forall e1 e2, In e1 es -> In e2 es -> length (snd e1) = length (snd e2).

(* ===================================================================== *)
(** * Column scorer: [column_metrics]                                      *)
(* ===================================================================== *)

Record metrics : Type := { gap_ratio : Q; cons_ratio : Q }.

(** [a / b] on two counts; ZeroDivisionError when [b] is 0. *)
Definition py_truediv (a b : nat) : result Q :=
  match b with
  | O => Raise ZeroDivisionError
  | S _ => Ok (Qmake (Z.of_nat a) (Pos.of_nat b))
  end.

(** The dictionary [cnt] of residue counts, keyed by character. *)
Fixpoint cnt_get (cnt : list (ascii * nat)) (c : ascii) (dflt : nat) : nat :=
  match cnt with
  | [] => dflt
  | (c', k) :: cnt' => if Ascii.eqb c' c then k else cnt_get cnt' c dflt
  end.

Fixpoint cnt_set (cnt : list (ascii * nat)) (c : ascii) (v : nat)
  : list (ascii * nat) :=
  match cnt with
  | [] => [(c, v)]
  | (c', k) :: cnt' =>
      if Ascii.eqb c' c then (c', v) :: cnt' else (c', k) :: cnt_set cnt' c v
  end.

(** [for c in non: cnt[c]=cnt.get(c,0)+1] *)
Definition count_residues (non : list ascii) : list (ascii * nat) :=
  fold_left (fun cnt c => cnt_set cnt c (cnt_get cnt c 0 + 1)) non [].

(** [max(xs)] on a list of counts; ValueError on an empty list. *)
Definition py_max (xs : list nat) : result nat :=
  match xs with
  | [] => Raise ValueError
  | x :: xs' => Ok (fold_left Nat.max xs' x)
  end.

(** The body of the loop of [column_metrics] at one column [col] of an
    alignment of [n] sequences. *)
Definition column_metric (n : nat) (col : list ascii) : result metrics :=
  let gaps := length (filter is_gap col) in
  let non := filter (fun c => negb (is_gap c)) col in
  g <- py_truediv gaps n ;;
  c <- match non with
       | [] => Ok 0%Q
       | _ => mx <- py_max (map snd (count_residues non)) ;;
              py_truediv mx (length non)
       end ;;
  Ok {| gap_ratio := g; cons_ratio := c |}.

Definition column_metrics (aligned_seqs : list str) : result (list metrics) :=
  let n := length aligned_seqs in
  s0 <- py_get aligned_seqs 0 ;;
  let L := length s0 in
  mapM (fun i =>
          col <- mapM (fun s => py_get s i) aligned_seqs ;;
          column_metric n col)
       (range 0 L).

(** The largest value of the dictionary of counts. *)
Definition max_count (non : list ascii) : nat :=
  fold_left Nat.max (map snd (count_residues non)) 0.

(** The metrics [column_metric] returns for a column of [n > 0] sequences. *)
Definition metric_of (n : nat) (col : list ascii) : metrics :=
  let gaps := length (filter is_gap col) in
  let non := filter (fun c => negb (is_gap c)) col in
  {| gap_ratio := Qmake (Z.of_nat gaps) (Pos.of_nat n);
     cons_ratio :=
       match non with
       | [] => 0%Q
       | _ => Qmake (Z.of_nat (max_count non)) (Pos.of_nat (length non))
       end |}.

Definition no_metrics : metrics := {| gap_ratio := 0%Q; cons_ratio := 0%Q |}.

(** Occurrences of a character in a column. *)
Definition occ (c : ascii) (col : list ascii) : nat :=
  length (filter (Ascii.eqb c) col).

(** Column [i] of an alignment whose rows all reach index [i]. *)
Definition column (seqs : list str) (i : nat) : list ascii :=
  map (fun s => nth i s gapc) seqs.

(* ===================================================================== *)
(** * Block extractor                                                      *)
(* ===================================================================== *)

(** [len({len(s) for _, s in entries}) == 1] *)
Definition all_equal_length (entries : list entry) : bool :=
  length (nodup Nat.eq_dec (map (fun e => length (snd e)) entries)) =? 1.

(** The inner scan [while j<L and not m[j]: j+=1]. *)
Fixpoint scan_false (fuel : nat) (L : nat) (m : list bool) (j : nat)
  : result nat :=
  if (j <? L) && negb (nth j m true) then
    match fuel with
    | O => OutOfFuel
    | S fuel' => scan_false fuel' L m (j + 1)
    end
  else Ok j.

(** [for k in range(i,j): m[k]=True] *)
Definition set_true (m : list bool) (i j : nat) : list bool :=
  fold_left (fun m k => upd m k true) (range i j) m.

(** The outer loop [while i<L] of [_allow_short_nonconserved_runs]. *)
Fixpoint absorb_loop (fuel : nat) (max_run : Z) (L : nat) (m : list bool)
  (i : nat) : result (list bool) :=
  if i <? L then
    match fuel with
    | O => OutOfFuel
    | S fuel' =>
        if negb (nth i m true) then
          j <- scan_false L L m i ;;
          let run := j - i in
          let left_true := (1 <=? i) && nth (i - 1) m false in
          let right_true := (j <? L) && nth j m false in
          let m' :=
            if (Z.of_nat run <=? max_run)%Z && left_true && right_true
            then set_true m i j else m in
          absorb_loop fuel' max_run L m' j
        else absorb_loop fuel' max_run L m (i + 1)
    end
  else Ok m.

Definition _allow_short_nonconserved_runs (mask : list bool) (max_run : Z)
  : result (list bool) :=
  if (max_run <=? 0)%Z then Ok mask
  else absorb_loop (length mask) max_run (length mask) mask 0.

(** [maximal_run m i j]: the columns [i, j) are a maximal run of
    consecutive unkept columns of the mask [m]. *)
Definition maximal_run (m : list bool) (i j : nat) : Prop :=
  i < j <= length m
  /\ (forall k, i <= k < j -> nth k m false = false)
  /\ (i = 0 \/ nth (i - 1) m false = true)
  /\ (j = length m \/ nth j m false = true).

(** Column [k] lies in a maximal run of unkept columns of length at most
    [max_run] with a kept column on each side. *)
Definition promoted (m : list bool) (max_run : Z) (k : nat) : Prop :=
  exists i j,
    maximal_run m i j /\ i <= k < j
    /\ (Z.of_nat (j - i) <= max_run)%Z
    /\ (0 < i /\ nth (i - 1) m false = true)
    /\ (j < length m /\ nth j m false = true).

(** [find_blocks]: the loop state is [(blocks, s)]. *)
Definition find_blocks_step (min_len : Z)
  (st : list (nat * nat) * option nat) (ik : nat * bool)
  : list (nat * nat) * option nat :=
  let '(blocks, s) := st in
  let '(i, keep) := ik in
  match keep, s with
  | true, None => (blocks, Some i)
  | false, Some s0 =>
      ((if (min_len <=? Z.of_nat i - Z.of_nat s0)%Z then blocks ++ [(s0, i)]
        else blocks),
       None)
  | _, _ => (blocks, s)
  end.

Definition find_blocks (mask : list bool) (min_len : Z) : list (nat * nat) :=
  fst (fold_left (find_blocks_step min_len) (enumerate (mask ++ [false]))
                 ([], None)).

(** The test of a flank column in [soft_trim_block], and of a column in the
    base mask. *)
Definition passes (max_gap thr : Q) (m : metrics) : bool :=
  Qle_bool (gap_ratio m) max_gap && Qle_bool thr (cons_ratio m).

(** [while s<e and not pass(mets[s]): s+=1] *)
Fixpoint trim_left (fuel : nat) (mets : list metrics) (flank_cons max_gap : Q)
  (s e : nat) : result nat :=
  if s <? e then
    match fuel with
    | O => OutOfFuel
    | S fuel' =>
        m <- py_get mets s ;;
        if negb (passes max_gap flank_cons m)
        then trim_left fuel' mets flank_cons max_gap (s + 1) e
        else Ok s
    end
  else Ok s.

(** [while e>s and not pass(mets[e-1]): e-=1] *)
Fixpoint trim_right (fuel : nat) (mets : list metrics) (flank_cons max_gap : Q)
  (s e : nat) : result nat :=
  if s <? e then
    match fuel with
    | O => OutOfFuel
    | S fuel' =>
        m <- py_get mets (e - 1) ;;
        if negb (passes max_gap flank_cons m)
        then trim_right fuel' mets flank_cons max_gap s (e - 1)
        else Ok e
    end
  else Ok e.

Definition soft_trim_block (b : nat * nat) (mets : list metrics)
  (flank_cons max_gap : Q) : result (option (nat * nat)) :=
  let '(s, e) := b in
  s' <- trim_left (e - s + 1) mets flank_cons max_gap s e ;;
  e' <- trim_right (e - s' + 1) mets flank_cons max_gap s' e ;;
  Ok (if s' <? e' then Some (s', e') else None).

(** [any(seq[i] != '-' for seq in seqs)], which stops at the first hit. *)
Fixpoint any_residue_at (seqs : list str) (i : nat) : result bool :=
  match seqs with
  | [] => Ok false
  | seq :: seqs' =>
      c <- py_get seq i ;;
      if negb (is_gap c) then Ok true else any_residue_at seqs' i
  end.

Definition base_mask (mets : list metrics) (max_gap min_cons : Q) : list bool :=
  map (passes max_gap min_cons) mets.

(** The surviving blocks of [gblock_filter], before column assembly. *)
Definition surviving_blocks (mets : list metrics) (min_block_len : Z)
  (max_gap min_cons : Q) (flank_cons : option Q) (max_noncons_run : Z)
  : result (list (nat * nat)) :=
  let mask := base_mask mets max_gap min_cons in
  mask <- (if (0 <? max_noncons_run)%Z
           then _allow_short_nonconserved_runs mask max_noncons_run
           else Ok mask) ;;
  let blocks := find_blocks mask min_block_len in
  match flank_cons with
  | None => Ok blocks
  | Some fc =>
      foldM (fun acc b =>
               tb <- soft_trim_block b mets fc max_gap ;;
               Ok (match tb with
                   | Some (s, e) =>
                       if (min_block_len <=? Z.of_nat e - Z.of_nat s)%Z
                       then acc ++ [(s, e)] else acc
                   | None => acc
                   end))
            blocks []
  end.

Definition gblock_filter (entries : list entry) (min_block_len : Z)
  (max_gap min_cons : Q) (flank_cons : option Q)
  (drop_all_gap_columns : bool) (max_noncons_run : Z)
  : result (list entry) :=
  if negb (all_equal_length entries) then Raise ValueError
  else
    let headers := map fst entries in
    let seqs := map snd entries in
    mets <- column_metrics seqs ;;
    blocks <- surviving_blocks mets min_block_len max_gap min_cons flank_cons
                               max_noncons_run ;;
    match blocks with
    | [] => Ok (map (fun h => (h, [])) headers)
    | _ =>
        let keep := flat_map (fun b => range (fst b) (snd b)) blocks in
        keep <- (if drop_all_gap_columns
                 then filterM (any_residue_at seqs) keep
                 else Ok keep) ;;
        mapM (fun e : entry =>
                r <- mapM (fun i => py_get (snd e) i) keep ;;
                Ok (fst e, r))
             entries
    end.

(* ===================================================================== *)
(** * FASTA codec: [parse_fasta], [write_fasta]                            *)
(* ===================================================================== *)

(** [str.isspace] on code points below 256: TAB, LF, VT, FF, CR, the
    separators 28..31, the space, NEL (133) and the no-break space (160). *)
Definition is_space (c : ascii) : bool :=
  let n := nat_of_ascii c in
  ((9 <=? n) && (n <=? 13)) || ((28 <=? n) && (n <=? 32))
  || (n =? 133) || (n =? 160).

Fixpoint lstrip (s : str) : str :=
  match s with
  | [] => []
  | c :: s' => if is_space c then lstrip s' else s
  end.

Definition rstrip (s : str) : str := rev (lstrip (rev s)).

(** [s.strip()] *)
Definition strip (s : str) : str := rstrip (lstrip s).

(** Reading in text mode: the ends of line CR LF and CR become LF. *)
Fixpoint universal_newlines (s : str) : str :=
  match s with
  | [] => []
  | c :: s' =>
      if Ascii.eqb c CR then
        LF :: match s' with
              | [] => []
              | d :: s'' =>
                  if Ascii.eqb d LF then universal_newlines s''
                  else universal_newlines s'
              end
      else c :: universal_newlines s'
  end.

(** [for raw in f]: the lines of the text, each with its LF; [cur] is the
    line being read. *)
Fixpoint lines_from (cur : str) (s : str) : list str :=
  match s with
  | [] => match cur with [] => [] | _ => [cur] end
  | c :: s' =>
      if Ascii.eqb c LF then (cur ++ [LF]) :: lines_from [] s'
      else lines_from (cur ++ [c]) s'
  end.

Definition file_lines (text : str) : list str :=
  lines_from [] (universal_newlines text).

(** [if h is not None: xs.append((h, joined buf))], the lines of [buf]
    joined without a separator. *)
Definition flush (xs : list entry) (h : option str) (buf : list str)
  : list entry :=
  match h with
  | Some h0 => xs ++ [(h0, concat buf)]
  | None => xs
  end.

(** The body of the loop of [parse_fasta]; the state is [(xs, h, buf)]. *)
Definition parse_step (st : list entry * option str * list str) (raw : str)
  : list entry * option str * list str :=
  let '(xs, h, buf) := st in
  match strip raw with
  | [] => st
  | c :: s1 =>
      if Ascii.eqb c gtc then
        (flush xs h buf,
         Some (match strip s1 with [] => lit "unnamed" | name => name end),
         [])
      else (xs, h, buf ++ [c :: s1])
  end.

(** [parse_fasta] on the text of the file at [path]. *)
Definition parse_fasta (text : str) : result (list entry) :=
  let '(xs, h, buf) := fold_left parse_step (file_lines text) ([], None, []) in
  match flush xs h buf with
  | [] => Raise ValueError
  | xs' => Ok xs'
  end.

(** [range(0, stop, step)] for a positive [step]. *)
Definition range_step (stop step : nat) : list nat :=
  map (fun k => k * step) (seq 0 ((stop + step - 1) / step)).

(** What [write_fasta] writes for one entry. *)
Definition write_entry (wrap : Z) (e : entry) : str :=
  let '(h, seq) := e in
  (gtc :: h) ++ [LF] ++
  (if (0 <? wrap)%Z then
     let w := Z.to_nat wrap in
     concat (map (fun i => firstn w (skipn i seq) ++ [LF])
                 (range_step (length seq) w))
   else seq ++ [LF]).

(** The text [write_fasta] leaves in the file at [path]. *)
Definition write_fasta (entries : list entry) (wrap : Z) : str :=
  concat (map (write_entry wrap) entries).

(** Residues that survive line wrapping: no white space and no ['>']. *)
Definition plain_residues (s : str) : Prop :=
  forallb (fun c => negb (is_space c) && negb (Ascii.eqb c gtc)) s = true.

(** The string does not start with white space. *)
Definition first_ok (s : str) : Prop :=
  match s with
  | [] => True
  | c :: _ => is_space c = false
  end.

(** [s.strip() == s]: no white space at either end. *)
Definition trimmed (s : str) : Prop := first_ok s /\ first_ok (rev s).

(** No end-of-line character in the string. *)
Definition nl_free (s : str) : Prop := forall c, In c s -> c <> LF /\ c <> CR.

(** A residue line as the parser stores it: not empty, stripped, not a
    header, within one line. *)
Definition body_ok (l : str) : Prop :=
  trimmed l /\ nl_free l
  /\ match l with [] => False | c :: _ => c <> gtc end.

(** A label as the parser stores it. *)
Definition label_ok (h : str) : Prop := h <> [] /\ trimmed h /\ nl_free h.

(** Residues as the parser stores them: the concatenation of residue
    lines. *)
Definition seq_ok (s : str) : Prop := s = [] \/ body_ok s.

Definition entry_ok (e : entry) : Prop := label_ok (fst e) /\ seq_ok (snd e).

(** The lines [write_fasta] writes for one entry, without their LF. *)
Definition entry_lines (wrap : Z) (e : entry) : list str :=
  (gtc :: fst e)
  :: (if (0 <? wrap)%Z then
        map (fun i => firstn (Z.to_nat wrap) (skipn i (snd e)))
            (range_step (length (snd e)) (Z.to_nat wrap))
      else [snd e]).

(* ===================================================================== *)
(** * Parameter translator                                                 *)
(* ===================================================================== *)

(** [str.lower] on code points below 256. *)
Definition lower_char (c : ascii) : ascii :=
  let n := nat_of_ascii c in
  if ((65 <=? n) && (n <=? 90))
     || ((192 <=? n) && (n <=? 222) && negb (n =? 215))
  then ascii_of_nat (n + 32) else c.

Definition lower (s : str) : str := map lower_char s.

(** [clamp(x, lo, hi)] as the specification writes it. *)
Definition clamp (x lo hi : Z) : Z :=
  if (x <? lo)%Z then lo else if (hi <? x)%Z then hi else x.

Section Translator.

(** [float(s)] on the strings it accepts with a finite value; [None] when
    it raises ValueError. *)
Variable py_float : str -> option Q.

Definition gb_allowed_gap_to_max_gap (mode : str) : Q :=
  let mode := lower mode in
  if str_eqb mode (lit "none") then 0%Q
  else if str_eqb mode (lit "half") then (1 # 2)%Q
  else if str_eqb mode (lit "all") then 1%Q
  else match py_float mode with
       | Some v => Qmax 0 (Qmin 1 v)
       | None => (1 # 2)%Q
       end.

Definition convert_gblocks_params_to_internal (N gb_min_cons_count
  gb_flank_cons_count gb_max_noncons_run gb_min_block_len : Z)
  (gb_allowed_gap : str) : Z * Q * Q * Q * Z :=
  let N := Z.max 1 N in
  let mc := Z.max 1 (Z.min gb_min_cons_count N) in
  let mf := Z.max 1 (Z.min gb_flank_cons_count N) in
  let min_cons := Qmake mc (Z.to_pos N) in
  let flank_cons := Qmake mf (Z.to_pos N) in
  let max_gap := gb_allowed_gap_to_max_gap gb_allowed_gap in
  let min_block_len := Z.max 1 gb_min_block_len in
  let max_noncons_run := Z.max 0 gb_max_noncons_run in
  (min_block_len, max_gap, min_cons, flank_cons, max_noncons_run).

End Translator.

(** [float] on plain decimal literals, an optional sign, digits and at most
    one point: the state is [(numerator, denominator, point seen, digits)]. *)
Definition decimal_step (st : option (Z * positive * bool * nat)) (c : ascii)
  : option (Z * positive * bool * nat) :=
  match st with
  | None => None
  | Some (num, den, dot, k) =>
      let n := nat_of_ascii c in
      if (48 <=? n) && (n <=? 57) then
        Some ((num * 10 + Z.of_nat (n - 48))%Z,
              (if dot then den * 10 else den)%positive, dot, k + 1)
      else if Ascii.eqb c "."%char && negb dot then Some (num, den, true, k)
      else None
  end.

Definition decimal_unsigned (s : str) : option Q :=
  match fold_left decimal_step s (Some (0%Z, 1%positive, false, 0)) with
  | Some (num, den, _, S _) => Some (Qmake num den)
  | _ => None
  end.

Definition decimal_float (s : str) : option Q :=
  match strip s with
  | c :: s' =>
      if Ascii.eqb c "-"%char then option_map Qopp (decimal_unsigned s')
      else if Ascii.eqb c "+"%char then decimal_unsigned s'
      else decimal_unsigned (c :: s')
  | [] => None
  end.

(** The flank test of [soft_trim_block] at column [k]. *)
Definition flank_ok (mets : list metrics) (flank_cons max_gap : Q) (k : nat)
  : bool :=
  passes max_gap flank_cons (nth k mets no_metrics).

(** Column assembly of [gblock_filter] once the blocks are known and every
    index is within the rows. *)
Definition kept_columns (seqs : list str) (blocks : list (nat * nat))
  (drop_all_gap_columns : bool) : list nat :=
  let keep := flat_map (fun b => range (fst b) (snd b)) blocks in
  if drop_all_gap_columns
  then filter (fun i => existsb (fun s => negb (is_gap (nth i s gapc))) seqs) keep
  else keep.

Definition select (keep : list nat) (seq : str) : str :=
  map (fun i => nth i seq gapc) keep.

Definition assemble (entries : list entry) (blocks : list (nat * nat))
  (drop_all_gap_columns : bool) : list entry :=
  match blocks with
  | [] => map (fun e => (fst e, [])) entries
  | _ =>
      map (fun e =>
             (fst e,
              select (kept_columns (map snd entries) blocks drop_all_gap_columns)
                     (snd e)))
          entries
  end.

(** The first and the last element of a non-empty list satisfy [F]. *)
Definition ends_in (A : Type) (d : A) (F : A -> Prop) (l : list A) : Prop :=
  l <> [] /\ F (nth 0 l d) /\ F (nth (length l - 1) l d).

(** Every run of consecutive unkept columns of the mask has length at most
    [max_run]. *)
Definition short_runs (max_run : Z) (m : list bool) : Prop :=
  forall i j, i < j <= length m ->
    (forall k, i <= k < j -> nth k m false = false) ->
    (Z.of_nat (j - i) <= max_run)%Z.

(** The mask of a trimmed alignment: kept columns at both ends and only
    short runs of unkept columns inside. *)
Definition absorbable (max_run : Z) (m : list bool) : Prop :=
  ends_in false (fun x => x = true) m /\ short_runs max_run m.

(* ===================================================================== *)
(** * Notions used to state further properties of the code                 *)
(* ===================================================================== *)

From Stdlib Require Import Sorted Permutation.

(** [kept_run m s e]: the columns [s, e) are a maximal run of consecutive
    kept columns of the mask [m]. *)
Definition kept_run (m : list bool) (s e : nat) : Prop :=
  s < e <= length m
  /\ (forall k, s <= k < e -> nth k m false = true)
  /\ (s = 0 \/ nth (s - 1) m false = false)
  /\ (e = length m \/ nth e m false = false).

(** The block [b1] ends before the block [b2] starts, with at least one
    column between them. *)
Definition separated (b1 b2 : nat * nat) : Prop := snd b1 < fst b2.

(** The base with [p[k]] gap characters before its residue [k] and the
    last number of [p] after its last residue: the row a gap pattern
    stands for. *)
Fixpoint spread (p : list nat) (base : str) : str :=
  match base with
  | [] => repeat gapc (nth 0 p 0)
  | c :: base' => repeat gapc (nth 0 p 0) ++ c :: spread (tl p) base'
  end.

(** The copy [aln_base] that the first loop of [expand_to_pattern] builds
    when it starts at residue [j] of the base. *)
Fixpoint rebuilt (base_ref : str) (j : nat) (aln_seq : str) : str :=
  match aln_seq with
  | [] => []
  | ch :: rest =>
      if is_gap ch then gapc :: rebuilt base_ref j rest
      else nth j base_ref gapc :: rebuilt base_ref (j + 1) rest
  end.

(** An entry as far as its label and residues go, gaps left out. *)
Definition ungapped (e : entry) : entry := (fst e, degap (snd e)).

(** The path the traceback of [nw_align] follows from cell [(i, j)] back to
    [(0, 0)], with the columns it appends, the last column of the alignment
    first. *)
Inductive traced (a b : str) (trace : mat) : nat -> nat -> str -> str -> Prop :=
| traced_end : traced a b trace 0 0 [] []
| traced_diag : forall i j X Y,
    mget trace (S i) (S j) = 1%Z -> traced a b trace i j X Y ->
    traced a b trace (S i) (S j) (nth i a gapc :: X) (nth j b gapc :: Y)
| traced_up : forall i j X Y,
    mget trace (S i) j = 2%Z -> traced a b trace i j X Y ->
    traced a b trace (S i) j (nth i a gapc :: X) (gapc :: Y)
| traced_left : forall i j X Y,
    mget trace i (S j) = 3%Z -> traced a b trace i j X Y ->
    traced a b trace i (S j) (gapc :: X) (nth j b gapc :: Y).

(** The score of one column of an alignment, and of an alignment. *)
Definition column_score (mtch mismatch gap : Z) (x y : ascii) : Z :=
  if is_gap x || is_gap y then gap
  else if Ascii.eqb x y then mtch else mismatch.

Fixpoint alignment_score (mtch mismatch gap : Z) (X Y : str) : Z :=
  match X, Y with
  | x :: X', y :: Y' =>
      (column_score mtch mismatch gap x y
       + alignment_score mtch mismatch gap X' Y')%Z
  | _, _ => 0%Z
  end.

(** No column of the two rows holds two gaps. *)
Definition no_gap_column (X Y : str) : Prop :=
  Forall (fun c => is_gap (fst c) && is_gap (snd c) = false) (combine X Y).

(** [X] and [Y] are a global alignment of the gap-free strings [a] and
    [b]: rows of one length that spell [a] and [b] and never hold a gap
    in the same column. *)
Definition alignment (a b X Y : str) : Prop :=
  length X = length Y /\ degap X = a /\ degap Y = b /\ no_gap_column X Y.

(** A line of the file is a header line when it starts with ['>'] once
    stripped; its label is the rest of the line, stripped, or ["unnamed"]. *)
Definition is_header (raw : str) : bool :=
  match strip raw with
  | c :: _ => Ascii.eqb c gtc
  | [] => false
  end.

Definition header_label (raw : str) : str :=
  match strip (tl (strip raw)) with
  | [] => lit "unnamed"
  | name => name
  end.

(* ===================================================================== *)
(** * The list of gene names: [_unique] (src/protein_fetch_safe.py)        *)
(* ===================================================================== *)

(** The body of the loop of [_unique]; the state is [(seen, out)], the set
    [seen] being the list of its members. *)
Definition unique_step (st : list str * list str) (x : str)
  : list str * list str :=
  let '(seen, out) := st in
  if existsb (str_eqb x) seen then st else (x :: seen, out ++ [x]).

Definition _unique (seq : list str) : list str :=
  snd (fold_left unique_step seq ([], [])).


(* ===================================================================== *)
(** * Lemmas on the Python layer                                           *)
(* ===================================================================== *)

Lemma py_get_nth (A : Type) (l : list A) (k : nat) (d : A) :
  k < length l -> py_get l k = Ok (nth k l d).
Proof.
  intros Hk. unfold py_get, py_index.
  assert (Hneg : (Z.of_nat k <? 0)%Z = false) by (apply Z.ltb_ge; lia).
  rewrite Hneg.
  assert (Hin : ((0 <=? Z.of_nat k) && (Z.of_nat k <? Z.of_nat (length l)))%Z = true).
  { apply andb_true_iff. split; [apply Z.leb_le | apply Z.ltb_lt]; lia. }
  rewrite Hin, Nat2Z.id.
  destruct (nth_error l k) eqn:E.
  - apply nth_error_nth with (d := d) in E. now rewrite E.
  - apply nth_error_None in E. lia.
Qed.

Lemma py_get_out (A : Type) (l : list A) (k : nat) :
  length l <= k -> py_get l k = Raise IndexError.
Proof.
  intros Hk. unfold py_get, py_index.
  assert (Hneg : (Z.of_nat k <? 0)%Z = false) by (apply Z.ltb_ge; lia).
  rewrite Hneg.
  assert (Hin : ((0 <=? Z.of_nat k) && (Z.of_nat k <? Z.of_nat (length l)))%Z = false).
  { apply andb_false_iff. right. apply Z.ltb_ge. lia. }
  now rewrite Hin.
Qed.

Lemma py_index_nat (A : Type) (l : list A) (k : nat) (d : A) :
  k < length l -> py_index l (Z.of_nat k) = Ok (nth k l d).
Proof. apply py_get_nth. Qed.

Lemma mapM_ok (A B : Type) (f : A -> result B) (g : A -> B) (l : list A) :
  (forall x, In x l -> f x = Ok (g x)) -> mapM f l = Ok (map g l).
Proof.
  induction l as [|x l IH]; intros H; simpl; [reflexivity|].
  rewrite (H x (or_introl eq_refl)). simpl.
  rewrite IH by (intros y Hy; apply H; now right). reflexivity.
Qed.

Lemma length_upd (A : Type) (l : list A) (k : nat) (v : A) :
  length (upd l k v) = length l.
Proof.
  revert k. induction l as [|x l IH]; intros [|k]; simpl; auto.
Qed.

Lemma nth_upd_eq (A : Type) (l : list A) (k : nat) (v d : A) :
  k < length l -> nth k (upd l k v) d = v.
Proof.
  revert k. induction l as [|x l IH]; intros [|k] Hk; simpl in *; try lia; auto.
  apply IH. lia.
Qed.

Lemma nth_upd_neq (A : Type) (l : list A) (k k' : nat) (v d : A) :
  k <> k' -> nth k' (upd l k v) d = nth k' l d.
Proof.
  revert k k'. induction l as [|x l IH]; intros [|k] [|k'] Hk; simpl; auto; try lia.
Qed.

Lemma upd_out (A : Type) (l : list A) (k : nat) (v : A) :
  length l <= k -> upd l k v = l.
Proof.
  revert k. induction l as [|x l IH]; intros [|k] Hk; simpl in *; auto; try lia.
  f_equal. apply IH. lia.
Qed.

(** A loop over [start, start+len) that maintains an invariant indexed by
    the counter. *)
Lemma fold_left_seq_inv (S : Type) (P : nat -> S -> Prop) (f : S -> nat -> S)
  (len start : nat) (s0 : S) :
  P start s0 ->
  (forall k s, start <= k < start + len -> P k s -> P (k + 1) (f s k)) ->
  P (start + len) (fold_left f (seq start len) s0).
Proof.
  revert start s0. induction len as [|len IH]; intros start s0 H0 Hstep; simpl.
  - now rewrite Nat.add_0_r.
  - replace (start + Datatypes.S len) with (Datatypes.S start + len) by lia.
    apply IH.
    + replace (Datatypes.S start) with (start + 1) by lia. apply Hstep; [lia | assumption].
    + intros k s Hk. apply Hstep. lia.
Qed.

Lemma range_seq (s e : nat) : range s e = seq s (e - s).
Proof. reflexivity. Qed.

(* ===================================================================== *)
(** * The pairwise aligner                                                 *)
(* ===================================================================== *)

Lemma mget_mset_eq (M : mat) (i j : nat) (v : Z) :
  i < length M -> j < length (nth i M []) -> mget (mset M i j v) i j = v.
Proof.
  intros Hi Hj. unfold mget, mset.
  rewrite nth_upd_eq by assumption. now apply nth_upd_eq.
Qed.

Lemma mget_mset_neq (M : mat) (i j i' j' : nat) (v : Z) :
  i <> i' \/ j <> j' -> mget (mset M i j v) i' j' = mget M i' j'.
Proof.
  intros H. unfold mget, mset.
  destruct (Nat.eq_dec i i') as [<-|Hne].
  - destruct H as [H|H]; [congruence|].
    destruct (Nat.lt_ge_cases i (length M)) as [Hi|Hi].
    + rewrite nth_upd_eq by assumption. now apply nth_upd_neq.
    + now rewrite upd_out.
  - now rewrite nth_upd_neq.
Qed.

Lemma dims_mset (M : mat) (n m i j : nat) (v : Z) :
  dims M n m -> dims (mset M i j v) n m.
Proof.
  intros [HL Hrows]. unfold mset. split.
  - now rewrite length_upd.
  - intros i' Hi'. destruct (Nat.eq_dec i i') as [<-|Hne].
    + rewrite nth_upd_eq by lia. rewrite length_upd. now apply Hrows.
    + rewrite nth_upd_neq by assumption. now apply Hrows.
Qed.

Lemma dims_zeros (n m : nat) : dims (zeros n m) n m.
Proof.
  unfold dims, zeros. split.
  - apply repeat_length.
  - intros i Hi. rewrite nth_repeat_lt by lia. apply repeat_length.
Qed.

Lemma mget_zeros (n m i j : nat) : mget (zeros n m) i j = 0%Z.
Proof.
  unfold mget, zeros.
  destruct (Nat.lt_ge_cases i (n + 1)) as [Hi|Hi].
  - rewrite nth_repeat_lt by assumption.
    destruct (Nat.lt_ge_cases j (m + 1)) as [Hj|Hj].
    + now apply nth_repeat_lt.
    + apply nth_overflow. now rewrite repeat_length.
  - assert (E : nth i (repeat (repeat 0%Z (m + 1)) (n + 1)) [] = [])
      by (apply nth_overflow; now rewrite repeat_length).
    rewrite E. now destruct j.
Qed.

Lemma dims_row (M : mat) (n m i : nat) :
  dims M n m -> i <= n -> i < length M /\ length (nth i M []) = m + 1.
Proof. intros [HL Hr] Hi. split; [lia | now apply Hr]. Qed.

(** The initialisation loops establish the base row and column. *)
Lemma nw_init_inv (a b : str) (mtch mismatch gap : Z) :
  nw_inv a b mtch mismatch gap (nw_init (length a) (length b) gap) 1 1.
Proof.
  set (n := length a). set (m := length b).
  pose (P1 := fun (k : nat) (st : mat * mat) =>
    dims (fst st) n m /\ dims (snd st) n m /\ mget (fst st) 0 0 = 0%Z
    /\ forall i, 1 <= i < k ->
         mget (fst st) i 0 = (Z.of_nat i * gap)%Z /\ mget (snd st) i 0 = 2%Z).
  pose (P2 := fun (k : nat) (st : mat * mat) =>
    dims (fst st) n m /\ dims (snd st) n m /\ mget (fst st) 0 0 = 0%Z
    /\ (forall i, 1 <= i <= n ->
         mget (fst st) i 0 = (Z.of_nat i * gap)%Z /\ mget (snd st) i 0 = 2%Z)
    /\ forall j, 1 <= j < k ->
         mget (fst st) 0 j = (Z.of_nat j * gap)%Z /\ mget (snd st) 0 j = 3%Z).
  assert (H1 : P1 (1 + n)
    (fold_left (fun st i => (mset (fst st) i 0 (Z.of_nat i * gap), mset (snd st) i 0 2%Z))
               (range 1 (n + 1)) (zeros n m, zeros n m))).
  { rewrite range_seq. replace (n + 1 - 1) with n by lia.
    apply fold_left_seq_inv.
    - unfold P1. simpl. split; [apply dims_zeros|]. split; [apply dims_zeros|].
      split; [apply mget_zeros|]. intros i Hi. lia.
    - intros k st Hk (Hd1 & Hd2 & H00 & Hc). unfold P1. simpl.
      destruct (dims_row Hd1 (i := k)) as [Hk1 Hk2]; [lia|].
      destruct (dims_row Hd2 (i := k)) as [Hk3 Hk4]; [lia|].
      split; [now apply dims_mset|]. split; [now apply dims_mset|]. split.
      + rewrite mget_mset_neq by lia. assumption.
      + intros i Hi. destruct (Nat.eq_dec i k) as [->|Hne].
        * split; apply mget_mset_eq; lia.
        * rewrite !mget_mset_neq by lia. apply Hc. lia. }
  assert (H2 : P2 (1 + m) (nw_init n m gap)).
  { unfold nw_init. rewrite (range_seq 1 (m + 1)). replace (m + 1 - 1) with m by lia.
    apply fold_left_seq_inv.
    - destruct H1 as (Hd1 & Hd2 & H00 & Hc). unfold P2.
      split; [assumption|]. split; [assumption|]. split; [assumption|]. split.
      + intros i Hi. apply Hc. lia.
      + intros j Hj. lia.
    - intros k st Hk (Hd1 & Hd2 & H00 & Hc & Hr). unfold P2. simpl.
      destruct (dims_row Hd1 (i := 0)) as [Hk1 Hk2]; [lia|].
      destruct (dims_row Hd2 (i := 0)) as [Hk3 Hk4]; [lia|].
      split; [now apply dims_mset|]. split; [now apply dims_mset|].
      split; [|split].
      + rewrite mget_mset_neq by lia. assumption.
      + intros i Hi. rewrite !mget_mset_neq by lia. now apply Hc.
      + intros j Hj. destruct (Nat.eq_dec j k) as [->|Hne].
        * split; apply mget_mset_eq; lia.
        * rewrite !mget_mset_neq by lia. apply Hr. lia. }
  destruct H2 as (Hd1 & Hd2 & H00 & Hc & Hr).
  unfold nw_inv. fold n m.
  split; [assumption|]. split; [assumption|]. split; [unfold nw_base; repeat split|].
  - intros i Hi. destruct i as [|i]; [rewrite H00; simpl; lia | apply Hc; lia].
  - intros j Hj. destruct j as [|j]; [rewrite H00; simpl; lia | apply Hr; lia].
  - intros i Hi. apply Hc. lia.
  - intros j Hj. apply Hr. lia.
  - intros i' j' Hi' Hj' [H|[H H']]; lia.
Qed.

(** What the loop body writes at a cell. *)
Lemma nw_cell_writes (a b : str) (mtch mismatch gap : Z) (i j : nat)
  (st : mat * mat) :
  let d := cand_diag a b mtch mismatch (fst st) i j in
  let u := cand_up gap (fst st) i j in
  let l := cand_left gap (fst st) i j in
  exists v t,
    nw_cell a b mtch mismatch gap i j st = (mset (fst st) i j v, mset (snd st) i j t)
    /\ v = Z.max d (Z.max u l) /\ tie_break d u l t.
Proof.
  intros d u l. unfold nw_cell. fold (cand_diag a b mtch mismatch (fst st) i j).
  fold (cand_up gap (fst st) i j). fold (cand_left gap (fst st) i j).
  fold d u l. unfold tie_break.
  destruct ((u <=? d)%Z && (l <=? d)%Z) eqn:E1.
  - apply andb_true_iff in E1. destruct E1 as [E1 E2].
    apply Z.leb_le in E1. apply Z.leb_le in E2.
    exists d, 1%Z. split; [reflexivity|]. split; [lia|]. left. lia.
  - apply andb_false_iff in E1.
    destruct (l <=? u)%Z eqn:E2.
    + apply Z.leb_le in E2. exists u, 2%Z. split; [reflexivity|].
      assert (d < u)%Z by (destruct E1 as [E|E]; apply Z.leb_gt in E; lia).
      split; [lia|]. right. left. lia.
    + apply Z.leb_gt in E2. exists l, 3%Z. split; [reflexivity|].
      assert (d < l)%Z by (destruct E1 as [E|E]; apply Z.leb_gt in E; lia).
      split; [lia|]. right. right. lia.
Qed.

Lemma nw_cell_inv (a b : str) (mtch mismatch gap : Z) (i j : nat)
  (st : mat * mat) :
  1 <= i <= length a -> 1 <= j <= length b ->
  nw_inv a b mtch mismatch gap st i j ->
  nw_inv a b mtch mismatch gap (nw_cell a b mtch mismatch gap i j st) i (j + 1).
Proof.
  intros Hi Hj (Hd1 & Hd2 & (Hb1 & Hb2 & Hb3 & Hb4) & Hcells).
  destruct (nw_cell_writes a b mtch mismatch gap i j st) as (v & t & -> & Hv & Ht).
  destruct (dims_row Hd1 (i := i)) as [Hr1 Hr2]; [lia|].
  destruct (dims_row Hd2 (i := i)) as [Hr3 Hr4]; [lia|].
  unfold nw_inv. simpl.
  split; [now apply dims_mset|]. split; [now apply dims_mset|]. split.
  - unfold nw_base. simpl. repeat split; intros k Hk;
      rewrite mget_mset_neq by lia; auto.
  - intros i' j' Hi' Hj' Hlt. unfold cell_ok, cand_diag, cand_up, cand_left. simpl.
    destruct (Nat.eq_dec i' i) as [->|Hni].
    + destruct (Nat.eq_dec j' j) as [->|Hnj].
      * rewrite !mget_mset_eq by lia.
        rewrite !mget_mset_neq by lia. split; [exact Hv | exact Ht].
      * rewrite !mget_mset_neq by lia.
        apply (Hcells i j'); [lia | lia | right; lia].
    + rewrite !mget_mset_neq by lia.
      apply (Hcells i' j'); [lia | lia | left; lia].
Qed.

Lemma nw_row_inv (a b : str) (mtch mismatch gap : Z) (i : nat) (st : mat * mat) :
  1 <= i <= length a ->
  nw_inv a b mtch mismatch gap st i 1 ->
  nw_inv a b mtch mismatch gap (nw_row a b mtch mismatch gap i st) (i + 1) 1.
Proof.
  intros Hi Hinv.
  assert (H : nw_inv a b mtch mismatch gap (nw_row a b mtch mismatch gap i st)
                     i (1 + length b)).
  { unfold nw_row. rewrite range_seq.
    replace (length b + 1 - 1) with (length b) by lia.
    apply (fold_left_seq_inv (fun k s => nw_inv a b mtch mismatch gap s i k)).
    - assumption.
    - intros k s Hk Hs. apply nw_cell_inv; [assumption | lia | assumption]. }
  destruct H as (Hd1 & Hd2 & Hb & Hcells).
  unfold nw_inv. repeat (split; [assumption|]).
  intros i' j' Hi' Hj' Hlt. apply Hcells; try assumption.
  destruct (Nat.eq_dec i' i); [right | left]; lia.
Qed.

(** The matrices when the fill is over: every inner cell is filled. *)
Lemma nw_matrices_inv (a b : str) (mtch mismatch gap : Z) :
  nw_inv a b mtch mismatch gap (nw_matrices a b mtch mismatch gap)
         (1 + length a) 1.
Proof.
  unfold nw_matrices. rewrite range_seq.
  replace (length a + 1 - 1) with (length a) by lia.
  apply (fold_left_seq_inv (fun k s => nw_inv a b mtch mismatch gap s k 1)).
  - apply nw_init_inv.
  - intros k s Hk Hs. apply nw_row_inv; [lia | assumption].
Qed.

Lemma gapped_app (s s' X X' : str) :
  gapped s X -> gapped s' X' -> gapped (s ++ s') (X ++ X').
Proof.
  intros H H'. induction H; simpl; [assumption | |]; now constructor.
Qed.

Lemma gapped_snoc_keep (s X : str) (c : ascii) :
  gapped s X -> gapped (s ++ [c]) (X ++ [c]).
Proof. intros H. apply gapped_app; [assumption | repeat constructor]. Qed.

Lemma gapped_snoc_ins (s X : str) : gapped s X -> gapped s (X ++ [gapc]).
Proof.
  intros H. rewrite <- (app_nil_r s) at 1.
  apply gapped_app; [assumption | repeat constructor].
Qed.

Lemma gapped_length (s X : str) : gapped s X -> length s <= length X.
Proof. induction 1; simpl; lia. Qed.

Lemma gapped_degap (s X : str) : gapped s X -> degap X = degap s.
Proof.
  induction 1; simpl; [reflexivity | | assumption].
  destruct (negb (is_gap c)); [now f_equal | assumption].
Qed.

Lemma gap_free_degap (s : str) : gap_free s -> degap s = s.
Proof.
  unfold gap_free, degap. induction s as [|c s IH]; simpl; [reflexivity|].
  intros H. apply andb_true_iff in H. destruct H as [Hc Hs].
  rewrite Hc. f_equal. now apply IH.
Qed.

Lemma firstn_snoc (A : Type) (l : list A) (k : nat) (d : A) :
  k < length l -> firstn (k + 1) l = firstn k l ++ [nth k l d].
Proof.
  revert k. induction l as [|x l IH]; intros k Hk; simpl in *; [lia|].
  destruct k as [|k]; simpl; [reflexivity|]. f_equal. apply IH. lia.
Qed.

Lemma nw_traceback_step (fuel : nat) (a b : str) (trace : mat) (i j : Z)
  (A B : str) :
  ((0 <? i) || (0 <? j))%Z = true ->
  nw_traceback (S fuel) a b trace i j A B =
  (row <- py_index trace i ;;
   t <- py_index row j ;;
   if (t =? 1)%Z then
     ai <- py_index a (i - 1) ;;
     bj <- py_index b (j - 1) ;;
     nw_traceback fuel a b trace (i - 1) (j - 1) (A ++ [ai]) (B ++ [bj])
   else if (t =? 2)%Z then
     ai <- py_index a (i - 1) ;;
     nw_traceback fuel a b trace (i - 1) j (A ++ [ai]) (B ++ [gapc])
   else
     bj <- py_index b (j - 1) ;;
     nw_traceback fuel a b trace i (j - 1) (A ++ [gapc]) (B ++ [bj])).
Proof. intros H. simpl. now rewrite H. Qed.

Lemma nw_traceback_done (fuel : nat) (a b : str) (trace : mat) (A B : str) :
  nw_traceback fuel a b trace 0 0 A B = Ok (rev A, rev B).
Proof. destruct fuel; reflexivity. Qed.

(** With fuel for [i + j] steps the traceback from [(i, j)] ends without an
    exception, and what it appends spells the prefixes [a[:i]] and [b[:j]]
    with gaps inserted. *)
Lemma nw_traceback_ok (a b : str) (trace : mat) :
  dims trace (length a) (length b) ->
  (forall i, 1 <= i <= length a -> mget trace i 0 = 2%Z) ->
  (forall j, 1 <= j <= length b -> mget trace 0 j = 3%Z) ->
  (forall i j, 1 <= i <= length a -> 1 <= j <= length b ->
               mget trace i j = 1%Z \/ mget trace i j = 2%Z \/ mget trace i j = 3%Z) ->
  forall fuel i j A B,
    i <= length a -> j <= length b -> i + j <= fuel ->
    exists X Y,
      nw_traceback fuel a b trace (Z.of_nat i) (Z.of_nat j) A B
      = Ok (rev (A ++ X), rev (B ++ Y))
      /\ length X = length Y
      /\ gapped (firstn i a) (rev X)
      /\ gapped (firstn j b) (rev Y).
Proof.
  intros Hd Hcol Hrow Hin.
  induction fuel as [|fuel IH]; intros i j A B Hi Hj Hf.
  - assert (i = 0) by lia. assert (j = 0) by lia. subst. simpl.
    exists [], []. rewrite !app_nil_r. repeat split; constructor.
  - destruct (Nat.eq_dec (i + j) 0) as [Hz|Hnz].
    + assert (i = 0) by lia. assert (j = 0) by lia. subst.
      change (Z.of_nat 0) with 0%Z. rewrite nw_traceback_done.
      exists [], []. rewrite !app_nil_r. repeat split; constructor.
    + rewrite nw_traceback_step
        by (apply orb_true_iff; destruct i; [right | left]; apply Z.ltb_lt; lia).
      destruct (dims_row Hd (i := i)) as [Hr1 Hr2]; [lia|].
      rewrite (py_index_nat trace [] Hr1). simpl.
      rewrite (py_index_nat (nth i trace []) 0%Z (k := j)) by lia. simpl.
      change (nth j (nth i trace []) 0%Z) with (mget trace i j).
      assert (Ht : (mget trace i j = 1%Z /\ 1 <= i /\ 1 <= j)
                   \/ (mget trace i j = 2%Z /\ 1 <= i)
                   \/ (mget trace i j = 3%Z /\ 1 <= j)).
      { destruct i as [|i].
        - right. right. split; [apply Hrow|]; lia.
        - destruct j as [|j].
          + right. left. split; [apply Hcol|]; lia.
          + destruct (Hin (S i) (S j)) as [H|[H|H]]; lia. }
      destruct Ht as [(Ht & Hi1 & Hj1)|[(Ht & Hi1)|(Ht & Hj1)]]; rewrite Ht; simpl.
      * replace (Z.of_nat i - 1)%Z with (Z.of_nat (i - 1)) by lia.
        replace (Z.of_nat j - 1)%Z with (Z.of_nat (j - 1)) by lia.
        rewrite (py_index_nat a gapc (k := i - 1)) by lia. simpl.
        rewrite (py_index_nat b gapc (k := j - 1)) by lia. simpl.
        destruct (IH (i - 1) (j - 1) (A ++ [nth (i - 1) a gapc])
                     (B ++ [nth (j - 1) b gapc])) as (X & Y & E & HL & HX & HY);
          try lia.
        exists (nth (i - 1) a gapc :: X), (nth (j - 1) b gapc :: Y).
        rewrite E, <- !app_assoc. simpl. split; [reflexivity|].
        split; [lia|].
        replace i with (i - 1 + 1) at 1 by lia.
        replace j with (j - 1 + 1) at 1 by lia.
        rewrite (firstn_snoc a gapc (k := i - 1)) by lia.
        rewrite (firstn_snoc b gapc (k := j - 1)) by lia.
        split; now apply gapped_snoc_keep.
      * replace (Z.of_nat i - 1)%Z with (Z.of_nat (i - 1)) by lia.
        rewrite (py_index_nat a gapc (k := i - 1)) by lia. simpl.
        destruct (IH (i - 1) j (A ++ [nth (i - 1) a gapc]) (B ++ [gapc]))
          as (X & Y & E & HL & HX & HY); try lia.
        exists (nth (i - 1) a gapc :: X), (gapc :: Y).
        rewrite E, <- !app_assoc. simpl. split; [reflexivity|].
        split; [lia|].
        replace i with (i - 1 + 1) at 1 by lia.
        rewrite (firstn_snoc a gapc (k := i - 1)) by lia.
        split; [now apply gapped_snoc_keep | now apply gapped_snoc_ins].
      * replace (Z.of_nat j - 1)%Z with (Z.of_nat (j - 1)) by lia.
        rewrite (py_index_nat b gapc (k := j - 1)) by lia. simpl.
        destruct (IH i (j - 1) (A ++ [gapc]) (B ++ [nth (j - 1) b gapc]))
          as (X & Y & E & HL & HX & HY); try lia.
        exists (gapc :: X), (nth (j - 1) b gapc :: Y).
        rewrite E, <- !app_assoc. simpl. split; [reflexivity|].
        split; [lia|].
        replace j with (j - 1 + 1) at 1 by lia.
        rewrite (firstn_snoc b gapc (k := j - 1)) by lia.
        split; [now apply gapped_snoc_ins | now apply gapped_snoc_keep].
Qed.

(** The traceback of [nw_align] ends for every pair of strings, and its two
    results are the inputs with gap characters inserted. *)
Lemma nw_align_inserts_gaps (a b : str) (mtch mismatch gap : Z) :
  exists A B,
    nw_align a b mtch mismatch gap = Ok (A, B)
    /\ length A = length B /\ gapped a A /\ gapped b B.
Proof.
  destruct (nw_matrices_inv a b mtch mismatch gap)
    as (_ & Hd & (_ & _ & Hc & Hr) & Hcells).
  assert (Hin : forall i j, 1 <= i <= length a -> 1 <= j <= length b ->
            mget (snd (nw_matrices a b mtch mismatch gap)) i j = 1%Z
            \/ mget (snd (nw_matrices a b mtch mismatch gap)) i j = 2%Z
            \/ mget (snd (nw_matrices a b mtch mismatch gap)) i j = 3%Z).
  { intros i j Hi Hj. destruct (Hcells i j Hi Hj) as [_ Ht]; [lia|].
    unfold tie_break in Ht. tauto. }
  destruct (@nw_traceback_ok a b _ Hd Hc Hr Hin (length a + length b)
              (length a) (length b) [] [])
    as (X & Y & E & HL & HX & HY); try lia.
  exists (rev X), (rev Y). unfold nw_align. rewrite E. simpl.
  rewrite !firstn_all in *. rewrite !length_rev. auto.
Qed.

(** C4 (amended). For strings [a] and [b] without gap characters and any
    scoring constants (the defaults are +1, -1, -2), [nw_align] fills the
    (n+1) x (m+1) score matrix with base column [i*gap] and base row
    [j*gap], each inner cell being the maximum of diagonal + (match or
    mismatch), up + gap and left + gap, with the direction recorded
    preferring diagonal over up over left; the traceback returns two
    strings of equal length that are [a] and [b] once the gap characters
    are removed. *)
Theorem nw_align_correct (a b : str) (mtch mismatch gap : Z)
  (Ha : gap_free a) (Hb : gap_free b) :
  let n := length a in
  let m := length b in
  let score := fst (nw_matrices a b mtch mismatch gap) in
  let trace := snd (nw_matrices a b mtch mismatch gap) in
  dims score n m /\ dims trace n m
  /\ (forall i, i <= n -> mget score i 0 = (Z.of_nat i * gap)%Z)
  /\ (forall j, j <= m -> mget score 0 j = (Z.of_nat j * gap)%Z)
  /\ (forall i j, 1 <= i <= n -> 1 <= j <= m ->
        let d := cand_diag a b mtch mismatch score i j in
        let u := cand_up gap score i j in
        let l := cand_left gap score i j in
        mget score i j = Z.max d (Z.max u l)
        /\ tie_break d u l (mget trace i j))
  /\ exists A B,
       nw_align a b mtch mismatch gap = Ok (A, B)
       /\ length A = length B /\ degap A = a /\ degap B = b.
Proof.
  intros n m score trace.
  destruct (nw_matrices_inv a b mtch mismatch gap)
    as (Hd1 & Hd2 & (Hb1 & Hb2 & _ & _) & Hcells).
  split; [exact Hd1|]. split; [exact Hd2|]. split; [exact Hb1|].
  split; [exact Hb2|]. split.
  - intros i j Hi Hj. apply (Hcells i j Hi Hj). unfold n in Hi. lia.
  - destruct (nw_align_inserts_gaps a b mtch mismatch gap)
      as (A & B & E & HL & HA & HB).
    exists A, B. split; [exact E|]. split; [exact HL|].
    rewrite (gapped_degap HA), (gapped_degap HB).
    split; now apply gap_free_degap.
Qed.

Lemma nw_align_correct_witness :
  gap_free (lit "ACD") /\ gap_free (lit "CDE")
  /\ exists A B,
       nw_align (lit "ACD") (lit "CDE") default_match default_mismatch default_gap
       = Ok (A, B)
       /\ length A = length B /\ degap A = lit "ACD" /\ degap B = lit "CDE".
Proof.
  split; [reflexivity|]. split; [reflexivity|].
  exact (proj2 (proj2 (proj2 (proj2 (proj2
    (@nw_align_correct (lit "ACD") (lit "CDE") default_match default_mismatch
                       default_gap eq_refl eq_refl)))))).
Defined.

(** C4 as first stated fails on an input that already holds a gap
    character: aligning "MK-V" with "MKLV" returns the two strings as they
    are, and removing the gap characters of the first result gives "MKV",
    not "MK-V". *)
Lemma nw_align_gap_input_counterexample :
  nw_align (lit "MK-V") (lit "MKLV") default_match default_mismatch default_gap
  = Ok (lit "MK-V", lit "MKLV")
  /\ degap (lit "MK-V") = lit "MKV"
  /\ degap (lit "MK-V") <> lit "MK-V".
Proof. split; [reflexivity|]. split; [reflexivity | discriminate]. Qed.

(* ===================================================================== *)
(** * The center-star builder                                              *)
(* ===================================================================== *)

(** C1 (the code departs from it). On the two entries x = "MKV" and
    y = "KVLA" the builder takes y as the center; the pairwise alignment of
    "KVLA" with "MKV" is ("-KVLA", "MKV--"), and the builder returns
    "--MKV--" for x and "-KVLA" for y. Labels, entry order and residues
    are kept, but the two rows have lengths 7 and 5: the result is not an
    equal-length alignment. *)
Theorem center_star_align_unequal_rows :
  nw_align (lit "KVLA") (lit "MKV") default_match default_mismatch default_gap
  = Ok (lit "-KVLA", lit "MKV--")
  /\ center_star_align [(lit "x", lit "MKV"); (lit "y", lit "KVLA")]
                       default_match default_mismatch default_gap
     = Ok [(lit "x", lit "--MKV--"); (lit "y", lit "-KVLA")]
  /\ degap (lit "--MKV--") = lit "MKV"
  /\ degap (lit "-KVLA") = lit "KVLA"
  /\ ~ equal_length [(lit "x", lit "--MKV--"); (lit "y", lit "-KVLA")].
Proof.
  split; [vm_compute; reflexivity|]. split; [vm_compute; reflexivity|].
  split; [reflexivity|]. split; [reflexivity|].
  intros H.
  specialize (H (lit "x", lit "--MKV--") (lit "y", lit "-KVLA")
                (or_introl eq_refl) (or_intror (or_introl eq_refl))).
  discriminate H.
Qed.

(* ===================================================================== *)
(** * The column scorer                                                    *)
(* ===================================================================== *)

Unset Implicit Arguments.

Lemma occ_app (c : ascii) (l l' : list ascii) :
  occ c (l ++ l') = occ c l + occ c l'.
Proof. unfold occ. now rewrite filter_app, length_app. Qed.

Lemma occ_le_length (c : ascii) (l : list ascii) : occ c l <= length l.
Proof. unfold occ. apply filter_length_le. Qed.

Lemma occ_pos_in (c : ascii) (l : list ascii) : 0 < occ c l <-> In c l.
Proof.
  unfold occ. induction l as [|x l IH]; simpl; [split; [lia | tauto]|].
  destruct (Ascii.eqb c x) eqn:E; simpl.
  - apply Ascii.eqb_eq in E. subst. split; [auto | lia].
  - apply Ascii.eqb_neq in E. rewrite IH. split; [auto | intros [H|H]; congruence].
Qed.

Lemma occ_single (x c : ascii) : occ x [c] = if Ascii.eqb x c then 1 else 0.
Proof. unfold occ. simpl. now destruct (Ascii.eqb x c). Qed.

Lemma keys_cnt_set (cnt : list (ascii * nat)) (c x : ascii) (v : nat) :
  In x (map fst (cnt_set cnt c v)) <-> x = c \/ In x (map fst cnt).
Proof.
  induction cnt as [|[c' k'] cnt IH]; simpl.
  - intuition.
  - destruct (Ascii.eqb c' c) eqn:E; simpl.
    + apply Ascii.eqb_eq in E. subst. intuition.
    + rewrite IH. intuition.
Qed.

Lemma NoDup_cnt_set (cnt : list (ascii * nat)) (c : ascii) (v : nat) :
  NoDup (map fst cnt) -> NoDup (map fst (cnt_set cnt c v)).
Proof.
  induction cnt as [|[c' k'] cnt IH]; simpl; intros H.
  - constructor; [intros [] | constructor].
  - inversion H as [|? ? Hn Hd]; subst.
    destruct (Ascii.eqb c' c) eqn:E; simpl.
    + now constructor.
    + apply Ascii.eqb_neq in E. constructor; [|now apply IH].
      rewrite keys_cnt_set. intros [Hx|Hx]; congruence.
Qed.

Lemma in_cnt_set (cnt : list (ascii * nat)) (c x : ascii) (v k : nat) :
  NoDup (map fst cnt) ->
  In (x, k) (cnt_set cnt c v) ->
  (x = c /\ k = v) \/ (x <> c /\ In (x, k) cnt).
Proof.
  induction cnt as [|[c' k'] cnt IH]; simpl; intros Hnd H.
  - destruct H as [H|[]]. inversion H. now left.
  - inversion Hnd as [|? ? Hn Hd]; subst.
    destruct (Ascii.eqb c' c) eqn:E; simpl in H.
    + apply Ascii.eqb_eq in E. subst. destruct H as [H|H].
      * inversion H. now left.
      * right. split; [|now right]. intros ->. apply Hn.
        change c with (fst (c, k)). now apply in_map.
    + apply Ascii.eqb_neq in E. destruct H as [H|H].
      * inversion H; subst. right. split; [assumption | now left].
      * destruct (IH Hd H) as [Hl|[Hr1 Hr2]]; [now left | right; auto].
Qed.

Lemma cnt_get_in (cnt : list (ascii * nat)) (c : ascii) (d : nat) :
  In c (map fst cnt) -> exists k, In (c, k) cnt /\ cnt_get cnt c d = k.
Proof.
  induction cnt as [|[c' k'] cnt IH]; simpl; intros H; [destruct H|].
  destruct (Ascii.eqb c' c) eqn:E.
  - apply Ascii.eqb_eq in E. subst. exists k'. auto.
  - apply Ascii.eqb_neq in E. destruct H as [H|H]; [congruence|].
    destruct (IH H) as (k & Hk & Hg). exists k. auto.
Qed.

Lemma cnt_get_notin (cnt : list (ascii * nat)) (c : ascii) (d : nat) :
  ~ In c (map fst cnt) -> cnt_get cnt c d = d.
Proof.
  induction cnt as [|[c' k'] cnt IH]; simpl; intros H; [reflexivity|].
  destruct (Ascii.eqb c' c) eqn:E.
  - apply Ascii.eqb_eq in E. subst. tauto.
  - apply IH. tauto.
Qed.

(** The invariant of the counting loop: the dictionary holds, under
    distinct keys, the number of occurrences of every character met. *)
Lemma count_step_inv (cnt : list (ascii * nat)) (l : list ascii) (c : ascii) :
  NoDup (map fst cnt) ->
  (forall x k, In (x, k) cnt -> k = occ x l /\ 0 < k) ->
  (forall x, In x l -> In x (map fst cnt)) ->
  let cnt' := cnt_set cnt c (cnt_get cnt c 0 + 1) in
  NoDup (map fst cnt')
  /\ (forall x k, In (x, k) cnt' -> k = occ x (l ++ [c]) /\ 0 < k)
  /\ (forall x, In x (l ++ [c]) -> In x (map fst cnt')).
Proof.
  intros Hnd Hval Hkeys cnt'.
  assert (Hget : cnt_get cnt c 0 = occ c l).
  { destruct (in_dec ascii_dec c (map fst cnt)) as [Hin|Hout].
    - destruct (cnt_get_in cnt c 0 Hin) as (k & Hk & ->). now apply Hval.
    - rewrite cnt_get_notin by assumption.
      destruct (occ c l) eqn:E; [reflexivity|].
      exfalso. apply Hout, Hkeys, occ_pos_in. lia. }
  split; [now apply NoDup_cnt_set|]. split.
  - intros x k Hin. rewrite occ_app, occ_single.
    destruct (in_cnt_set _ _ _ _ _ Hnd Hin) as [[-> ->]|[Hne Hin']].
    + rewrite Ascii.eqb_refl. lia.
    + apply Ascii.eqb_neq in Hne. rewrite Hne.
      destruct (Hval x k Hin'). lia.
  - intros x Hx. apply keys_cnt_set. apply in_app_or in Hx.
    destruct Hx as [Hx|[Hx|[]]]; [right; auto | left; auto].
Qed.

Lemma count_residues_inv (non : list ascii) :
  NoDup (map fst (count_residues non))
  /\ (forall x k, In (x, k) (count_residues non) -> k = occ x non /\ 0 < k)
  /\ (forall x, In x non -> In x (map fst (count_residues non))).
Proof.
  unfold count_residues.
  assert (G : forall l cnt pre,
    NoDup (map fst cnt) ->
    (forall x k, In (x, k) cnt -> k = occ x pre /\ 0 < k) ->
    (forall x, In x pre -> In x (map fst cnt)) ->
    let r := fold_left (fun cnt c => cnt_set cnt c (cnt_get cnt c 0 + 1)) l cnt in
    NoDup (map fst r)
    /\ (forall x k, In (x, k) r -> k = occ x (pre ++ l) /\ 0 < k)
    /\ (forall x, In x (pre ++ l) -> In x (map fst r))).
  { induction l as [|c l IH]; intros cnt pre H1 H2 H3; simpl.
    - rewrite app_nil_r. auto.
    - destruct (count_step_inv cnt pre c H1 H2 H3) as (G1 & G2 & G3).
      specialize (IH _ _ G1 G2 G3). simpl in IH.
      rewrite <- app_assoc in IH. exact IH. }
  apply (G non [] []); simpl; [constructor | tauto | tauto].
Qed.

Lemma fold_max_spec (vs : list nat) (a : nat) :
  a <= fold_left Nat.max vs a
  /\ (forall v, In v vs -> v <= fold_left Nat.max vs a)
  /\ (fold_left Nat.max vs a = a \/ In (fold_left Nat.max vs a) vs).
Proof.
  revert a. induction vs as [|v vs IH]; intros a; simpl.
  - split; [lia|]. split; [intros v []|now left].
  - destruct (IH (Nat.max a v)) as (H1 & H2 & H3). split; [lia|]. split.
    + intros w [Hw|Hw]; [subst w; lia | now apply H2].
    + destruct H3 as [H3|H3]; [|right; now right].
      destruct (Nat.max_spec a v) as [[_ E]|[_ E]]; rewrite E in *;
        [right; left; now symmetry | now left].
Qed.

(** The largest count is reached by a residue of the column and bounds the
    count of every character. *)
Lemma max_count_spec (non : list ascii) :
  non <> [] ->
  (exists c, In c non /\ occ c non = max_count non)
  /\ (forall c, occ c non <= max_count non).
Proof.
  intros Hne. destruct (count_residues_inv non) as (Hnd & Hval & Hkeys).
  unfold max_count.
  destruct (fold_max_spec (map snd (count_residues non)) 0) as (_ & Hle & Hin).
  assert (Hall : forall c, occ c non <= fold_left Nat.max (map snd (count_residues non)) 0).
  { intros c. destruct (in_dec ascii_dec c non) as [Hc|Hc].
    - destruct (cnt_get_in (count_residues non) c 0 (Hkeys c Hc)) as (k & Hk & _).
      destruct (Hval c k Hk) as [-> _]. apply Hle.
      change (occ c non) with (snd (c, occ c non)). now apply in_map.
    - destruct (occ c non) eqn:E; [lia|]. exfalso. apply Hc, occ_pos_in. lia. }
  split; [|exact Hall].
  destruct Hin as [Hz|Hin].
  - destruct non as [|c non]; [congruence|]. exfalso.
    specialize (Hall c). rewrite Hz in Hall.
    assert (0 < occ c (c :: non)) by (apply occ_pos_in; now left). lia.
  - apply in_map_iff in Hin. destruct Hin as ([c k] & Hk & Hin). simpl in Hk. subst k.
    destruct (Hval c _ Hin) as [E Hpos]. exists c. split; [|now rewrite <- E].
    apply occ_pos_in. lia.
Qed.

Lemma py_max_counts (non : list ascii) :
  non <> [] -> py_max (map snd (count_residues non)) = Ok (max_count non).
Proof.
  intros Hne. unfold max_count.
  destruct (map snd (count_residues non)) as [|v vs] eqn:E; [|reflexivity].
  exfalso. destruct non as [|c non]; [congruence|].
  destruct (count_residues_inv (c :: non)) as (_ & _ & Hkeys).
  specialize (Hkeys c (or_introl eq_refl)).
  destruct (count_residues (c :: non)); [destruct Hkeys | discriminate].
Qed.

Lemma column_metric_eq (n : nat) (col : list ascii) :
  0 < n -> column_metric n col = Ok (metric_of n col).
Proof.
  intros Hn. unfold column_metric, metric_of, py_truediv.
  destruct n as [|n]; [lia|]. simpl bind.
  destruct (filter (fun c => negb (is_gap c)) col) as [|c non] eqn:E; [reflexivity|].
  rewrite py_max_counts by discriminate. reflexivity.
Qed.

Lemma column_metrics_eq (seqs : list str) (L : nat) :
  seqs <> [] -> Forall (fun s => length s = L) seqs ->
  column_metrics seqs
  = Ok (map (fun i => metric_of (length seqs) (column seqs i)) (range 0 L)).
Proof.
  intros Hne Hall. unfold column_metrics.
  destruct seqs as [|s0 seqs'] eqn:Es; [congruence|]. rewrite <- Es in *.
  assert (H0 : py_get seqs 0 = Ok s0) by (now rewrite Es).
  rewrite H0. simpl bind.
  assert (HL : length s0 = L).
  { rewrite Forall_forall in Hall. apply Hall. rewrite Es. now left. }
  rewrite HL. apply mapM_ok. intros i Hi.
  unfold range in Hi. apply in_seq in Hi.
  rewrite (mapM_ok (fun s => py_get s i) (fun s => nth i s gapc)).
  - simpl bind. apply column_metric_eq. rewrite Es. simpl. lia.
  - intros s Hs. apply py_get_nth. rewrite Forall_forall in Hall.
    rewrite (Hall s Hs). lia.
Qed.

Lemma gaps_occ (col : list ascii) : length (filter is_gap col) = occ gapc col.
Proof.
  unfold occ. rewrite (filter_ext is_gap (Ascii.eqb gapc)); [reflexivity|].
  intros c. unfold is_gap. apply Ascii.eqb_sym.
Qed.

Lemma occ_residue (c : ascii) (col : list ascii) :
  c <> gapc -> occ c (filter (fun x => negb (is_gap x)) col) = occ c col.
Proof.
  intros Hc. unfold occ. induction col as [|x col IH]; simpl; [reflexivity|].
  unfold is_gap at 1. destruct (Ascii.eqb x gapc) eqn:E; simpl.
  - apply Ascii.eqb_eq in E. subst x.
    apply Ascii.eqb_neq in Hc. rewrite Hc. exact IH.
  - destruct (Ascii.eqb c x); simpl; now rewrite IH.
Qed.

Lemma Zpos_of_nat (n : nat) : 0 < n -> Z.pos (Pos.of_nat n) = Z.of_nat n.
Proof.
  intros Hn. rewrite <- positive_nat_Z, Nat2Pos.id by lia. reflexivity.
Qed.

Lemma ratio_div (a n : nat) :
  0 < n ->
  (Qmake (Z.of_nat a) (Pos.of_nat n)
   == inject_Z (Z.of_nat a) / inject_Z (Z.of_nat n))%Q.
Proof. intros Hn. rewrite Qmake_Qdiv, Zpos_of_nat by assumption. reflexivity. Qed.

Lemma ratio_bounds (a n : nat) :
  0 < n -> a <= n -> (0 <= Qmake (Z.of_nat a) (Pos.of_nat n) <= 1)%Q.
Proof.
  intros Hn Ha. unfold Qle. simpl. rewrite Zpos_of_nat by assumption. lia.
Qed.

Lemma length_column (seqs : list str) (i : nat) :
  length (column seqs i) = length seqs.
Proof. unfold column. apply length_map. Qed.

(** The fields of [metric_of], read off a column of [n] characters. *)
Lemma metric_of_spec (n : nat) (col : list ascii) :
  0 < n -> length col = n ->
  let m := metric_of n col in
  let gaps := occ gapc col in
  (0 <= gap_ratio m <= 1)%Q /\ (0 <= cons_ratio m <= 1)%Q
  /\ (gap_ratio m == inject_Z (Z.of_nat gaps) / inject_Z (Z.of_nat n))%Q
  /\ (gaps = n -> cons_ratio m = 0%Q)
  /\ (gaps < n ->
      exists mx,
        (exists c, c <> gapc /\ occ c col = mx)
        /\ (forall c, c <> gapc -> occ c col <= mx)
        /\ (cons_ratio m
            == inject_Z (Z.of_nat mx) / inject_Z (Z.of_nat (n - gaps)))%Q).
Proof.
  intros Hn Hlen m gaps. unfold m, metric_of. simpl.
  pose proof (filter_length is_gap col) as Hsplit.
  rewrite gaps_occ in *. fold gaps in Hsplit |- *.
  set (non := filter (fun c => negb (is_gap c)) col) in *.
  assert (Hnon : length non = n - gaps) by lia.
  split; [apply ratio_bounds; lia|].
  destruct non as [|c0 non'] eqn:En.
  - simpl in Hnon. split; [unfold Qle; simpl; lia|].
    split; [now apply ratio_div|]. split; [reflexivity|]. intros Hlt. lia.
  - rewrite <- En in *.
    assert (Hne : non <> []) by (rewrite En; discriminate).
    destruct (max_count_spec non Hne) as ((c & Hc & Hmax) & Hle).
    assert (Hcg : c <> gapc).
    { unfold non in Hc. apply filter_In in Hc. destruct Hc as [_ Hc].
      unfold is_gap in Hc. intros ->. now rewrite Ascii.eqb_refl in Hc. }
    assert (Hb : max_count non <= length non).
    { rewrite <- Hmax. apply occ_le_length. }
    split; [apply ratio_bounds; [rewrite En; simpl|]; lia|].
    split; [now apply ratio_div|].
    split; [intros Hg; rewrite En in Hnon; simpl in Hnon; lia|].
    intros _. exists (max_count non). split; [|split].
    + exists c. split; [assumption|]. rewrite <- Hmax. symmetry.
      now apply occ_residue.
    + intros c' Hc'. rewrite <- (occ_residue c' col Hc'). apply Hle.
    + rewrite <- Hnon. apply ratio_div. rewrite En. simpl. lia.
Qed.

(** C6. For a non-empty alignment whose rows all have length [L],
    [column_metrics] returns [L] records; both ratios of every record lie
    in [0, 1]; the gap ratio of column [i] is the number of rows with a gap
    at [i] divided by the number of rows; the conservation ratio is 0 when
    every row has a gap at [i], and otherwise the largest number of
    occurrences of one residue divided by the number of residues at [i]. *)
Theorem column_metrics_spec (seqs : list str) (L : nat)
  (Hne : seqs <> []) (Hlen : Forall (fun s => length s = L) seqs) :
  exists mets,
    column_metrics seqs = Ok mets
    /\ length mets = L
    /\ forall i, i < L ->
         let m := nth i mets no_metrics in
         let col := column seqs i in
         let n := length seqs in
         let gaps := occ gapc col in
         (0 <= gap_ratio m <= 1)%Q /\ (0 <= cons_ratio m <= 1)%Q
         /\ (gap_ratio m == inject_Z (Z.of_nat gaps) / inject_Z (Z.of_nat n))%Q
         /\ (gaps = n -> cons_ratio m = 0%Q)
         /\ (gaps < n ->
             exists mx,
               (exists c, c <> gapc /\ occ c col = mx)
               /\ (forall c, c <> gapc -> occ c col <= mx)
               /\ (cons_ratio m
                   == inject_Z (Z.of_nat mx) / inject_Z (Z.of_nat (n - gaps)))%Q).
Proof.
  exists (map (fun i => metric_of (length seqs) (column seqs i)) (range 0 L)).
  split; [now apply column_metrics_eq|].
  split; [unfold range; now rewrite length_map, length_seq, Nat.sub_0_r|].
  intros i Hi.
  assert (E : nth i (map (fun i => metric_of (length seqs) (column seqs i)) (range 0 L))
                  no_metrics
              = metric_of (length seqs) (column seqs i)).
  { rewrite nth_indep with (d' := metric_of (length seqs) (column seqs 0))
      by (unfold range; rewrite length_map, length_seq; lia).
    rewrite (map_nth (fun i => metric_of (length seqs) (column seqs i))).
    unfold range. rewrite seq_nth by lia. reflexivity. }
  cbv zeta. rewrite E.
  apply metric_of_spec.
  - destruct seqs; [congruence | simpl; lia].
  - apply length_column.
Qed.

Lemma column_metrics_spec_witness :
  let seqs := [lit "MSTAG"; lit "MST-G"; lit "MSTTG"] in
  exists mets,
    column_metrics seqs = Ok mets
    /\ length mets = 5
    /\ (gap_ratio (nth 3 mets no_metrics) == 1 # 3)%Q
    /\ (cons_ratio (nth 3 mets no_metrics) == 1 # 2)%Q.
Proof.
  intros seqs.
  assert (Hne : seqs <> []) by discriminate.
  assert (Hlen : Forall (fun s => length s = 5) seqs)
    by (repeat constructor).
  destruct (column_metrics_spec seqs 5 Hne Hlen) as (mets & E & HL & _).
  exists mets. split; [exact E|]. split; [exact HL|].
  vm_compute in E. injection E as <-. split; reflexivity.
Defined.

(* ===================================================================== *)
(** * Run absorption                                                       *)
(* ===================================================================== *)

Lemma nth_bool_indep (m : list bool) (k : nat) (d d' : bool) :
  k < length m -> nth k m d = nth k m d'.
Proof. apply nth_indep. Qed.

Lemma scan_false_spec (m : list bool) (fuel j : nat) :
  j <= length m -> length m - j <= fuel ->
  exists j',
    scan_false fuel (length m) m j = Ok j'
    /\ j <= j' <= length m
    /\ (forall k, j <= k < j' -> nth k m false = false)
    /\ (j' = length m \/ nth j' m false = true).
Proof.
  revert j. induction fuel as [|fuel IH]; intros j Hj Hf.
  - assert (j = length m) by lia. subst j. simpl.
    rewrite Nat.ltb_irrefl. simpl. exists (length m).
    split; [reflexivity|]. split; [lia|]. split; [intros k Hk; lia | now left].
  - simpl. destruct (j <? length m) eqn:Elt; simpl.
    + apply Nat.ltb_lt in Elt. destruct (nth j m true) eqn:Ej; simpl.
      * exists j. split; [reflexivity|]. split; [lia|].
        split; [intros k Hk; lia|]. right.
        now rewrite (nth_bool_indep m j false true).
      * destruct (IH (j + 1)) as (j' & E & Hr & Hall & Hend); try lia.
        exists j'. split; [exact E|]. split; [lia|]. split; [|exact Hend].
        intros k Hk. destruct (Nat.eq_dec k j) as [->|Hne].
        -- now rewrite (nth_bool_indep m j false true).
        -- apply Hall. lia.
    + apply Nat.ltb_ge in Elt. exists j. split; [reflexivity|].
      split; [lia|]. split; [intros k Hk; lia|]. left. lia.
Qed.

Lemma set_true_spec (m : list bool) (i j : nat) :
  length (set_true m i j) = length m
  /\ forall k d, nth k (set_true m i j) d
                 = if (i <=? k) && (k <? j) && (k <? length m) then true
                   else nth k m d.
Proof.
  unfold set_true. rewrite range_seq.
  destruct (Nat.le_gt_cases i j) as [Hij|Hij].
  - pose (P := fun (e : nat) (m' : list bool) =>
      length m' = length m
      /\ forall k d, nth k m' d
                     = if (i <=? k) && (k <? e) && (k <? length m) then true
                       else nth k m d).
    assert (H : P (i + (j - i)) (fold_left (fun m k => upd m k true) (seq i (j - i)) m)).
    { apply fold_left_seq_inv.
      - split; [reflexivity|]. intros k d.
        destruct (i <=? k) eqn:E1; destruct (k <? i) eqn:E2; simpl; try reflexivity.
        apply Nat.leb_le in E1. apply Nat.ltb_lt in E2. lia.
      - intros e m' He [HL Hn]. split; [now rewrite length_upd|].
        intros k d. destruct (Nat.eq_dec k e) as [->|Hne].
        + destruct (Nat.lt_ge_cases e (length m)) as [Hlt|Hge].
          * rewrite nth_upd_eq by lia.
            assert (E1 : (i <=? e) = true) by (apply Nat.leb_le; lia).
            assert (E2 : (e <? e + 1) = true) by (apply Nat.ltb_lt; lia).
            assert (E3 : (e <? length m) = true) by (apply Nat.ltb_lt; lia).
            now rewrite E1, E2, E3.
          * rewrite upd_out by lia. rewrite Hn.
            assert (E3 : (e <? length m) = false) by (apply Nat.ltb_ge; lia).
            rewrite E3, !andb_false_r. reflexivity.
        + rewrite nth_upd_neq by lia. rewrite Hn.
          assert (E : (k <? e + 1) = (k <? e)).
          { destruct (k <? e) eqn:E'; [apply Nat.ltb_lt in E'; apply Nat.ltb_lt; lia|].
            apply Nat.ltb_ge in E'. apply Nat.ltb_ge. lia. }
          now rewrite E. }
    replace (i + (j - i)) with j in H by lia. exact H.
  - replace (j - i) with 0 by lia. simpl. split; [reflexivity|].
    intros k d. destruct (i <=? k) eqn:E1; destruct (k <? j) eqn:E2; simpl; try reflexivity.
    apply Nat.leb_le in E1. apply Nat.ltb_lt in E2. lia.
Qed.

(** The maximal run of unkept columns through a column is unique. *)
Lemma maximal_run_unique (m : list bool) (i j i' j' k : nat) :
  maximal_run m i j -> maximal_run m i' j' ->
  i <= k < j -> i' <= k < j' -> i = i' /\ j = j'.
Proof.
  intros (Hr & Hall & Hl & Hu) (Hr' & Hall' & Hl' & Hu') Hk Hk'.
  assert (Hi : i = i').
  { destruct (Nat.lt_trichotomy i i') as [H|[H|H]]; [|assumption|]; exfalso.
    - destruct Hl' as [Hl'|Hl']; [lia|].
      rewrite (Hall (i' - 1)) in Hl' by lia. discriminate.
    - destruct Hl as [Hl|Hl]; [lia|].
      rewrite (Hall' (i - 1)) in Hl by lia. discriminate. }
  split; [assumption|].
  destruct (Nat.lt_trichotomy j j') as [H|[H|H]]; [|assumption|]; exfalso.
  - destruct Hu as [Hu|Hu]; [lia|].
    rewrite (Hall' j) in Hu by lia. discriminate.
  - destruct Hu' as [Hu'|Hu']; [lia|].
    rewrite (Hall j') in Hu' by lia. discriminate.
Qed.

Lemma absorb_loop_step (fuel : nat) (max_run : Z) (L : nat) (m : list bool)
  (i : nat) :
  absorb_loop (S fuel) max_run L m i =
  if i <? L then
    if negb (nth i m true) then
      j <- scan_false L L m i ;;
      absorb_loop fuel max_run L
        (if (Z.of_nat (j - i) <=? max_run)%Z
            && ((1 <=? i) && nth (i - 1) m false)
            && ((j <? L) && nth j m false)
         then set_true m i j else m) j
    else absorb_loop fuel max_run L m (i + 1)
  else Ok m.
Proof. reflexivity. Qed.

(** The invariant of the outer loop: left of [i] the mask is final, from
    [i] on it is the original mask, and [i] is not inside a run. *)
Lemma absorb_loop_spec (m0 : list bool) (max_run : Z) (fuel : nat) :
  forall (m : list bool) (i : nat),
    length m = length m0 -> i <= length m0 -> length m0 - i <= fuel ->
    (forall k, k < i ->
       (nth k m false = true <->
        nth k m0 false = true \/ promoted m0 max_run k)) ->
    (forall k, i <= k < length m0 -> nth k m false = nth k m0 false) ->
    (i = 0 \/ i = length m0 \/ nth (i - 1) m0 false = true
     \/ nth i m0 false = true) ->
    exists m',
      absorb_loop fuel max_run (length m0) m i = Ok m'
      /\ length m' = length m0
      /\ forall k, k < length m0 ->
           (nth k m' false = true <->
            nth k m0 false = true \/ promoted m0 max_run k).
Proof.
  induction fuel as [|fuel IH]; intros m i HL Hi Hf Hdone Hrest Hedge.
  - assert (i = length m0) by lia. subst i. simpl.
    rewrite Nat.ltb_irrefl. exists m. auto.
  - rewrite absorb_loop_step. destruct (i <? length m0) eqn:Elt.
    2:{ apply Nat.ltb_ge in Elt. assert (i = length m0) by lia. subst i.
        exists m. auto. }
    apply Nat.ltb_lt in Elt.
    assert (Emi : nth i m true = nth i m0 false).
    { rewrite (nth_bool_indep m i true false) by lia. apply Hrest. lia. }
    rewrite Emi. destruct (nth i m0 false) eqn:Ei; cbn [negb].
    + (* a kept column *)
      apply IH; try lia.
      * intros k Hk. destruct (Nat.eq_dec k i) as [->|Hne].
        -- rewrite Hrest by lia. rewrite Ei. tauto.
        -- apply Hdone. lia.
      * intros k Hk. apply Hrest. lia.
      * right. right. left. now replace (i + 1 - 1) with i by lia.
    + (* the start of a run of unkept columns *)
      rewrite <- HL.
      destruct (scan_false_spec m (length m) i) as (j & -> & Hj & Hall & Hend);
        try lia.
      rewrite HL in *. cbn [bind].
      assert (Hij : i < j).
      { destruct (Nat.eq_dec i j) as [<-|]; [|lia]. exfalso.
        destruct Hend as [Hend|Hend]; [lia|].
        rewrite Hrest in Hend by lia. congruence. }
      assert (Hrun : maximal_run m0 i j).
      { split; [lia|]. split; [|split].
        - intros k Hk. rewrite <- Hrest by lia. now apply Hall.
        - destruct Hedge as [H|[H|[H|H]]]; [now left | lia | now right | congruence].
        - destruct Hend as [Hend|Hend]; [now left|].
          destruct (Nat.eq_dec j (length m0)) as [Hjl|Hjl]; [now left|].
          right. rewrite <- Hrest by lia. exact Hend. }
      assert (Hleft : ((1 <=? i) && nth (i - 1) m false) = (1 <=? i)).
      { destruct (1 <=? i) eqn:E1; [|reflexivity]. apply Nat.leb_le in E1. simpl.
        apply Hdone; [lia|]. left.
        destruct Hrun as (_ & _ & [H|H] & _); [lia | exact H]. }
      assert (Hright : ((j <? length m0) && nth j m false) = (j <? length m0)).
      { destruct (j <? length m0) eqn:E1; [|reflexivity]. apply Nat.ltb_lt in E1. simpl.
        destruct Hend as [Hend|Hend]; [lia | exact Hend]. }
      rewrite Hleft, Hright.
      destruct (set_true_spec m i j) as [HLs Hns].
      destruct ((Z.of_nat (j - i) <=? max_run)%Z && (1 <=? i) && (j <? length m0))
        eqn:Econd.
      * (* the run is promoted *)
        apply andb_true_iff in Econd. destruct Econd as [Econd E3].
        apply andb_true_iff in Econd. destruct Econd as [E1 E2].
        apply Z.leb_le in E1. apply Nat.leb_le in E2. apply Nat.ltb_lt in E3.
        apply IH; try lia.
        -- intros k Hk. rewrite Hns.
           destruct (Nat.lt_ge_cases k i) as [Hki|Hki].
           ++ assert (E : (i <=? k) = false) by (apply Nat.leb_gt; lia).
              rewrite E. simpl. apply Hdone. lia.
           ++ assert (Ea : (i <=? k) = true) by (apply Nat.leb_le; lia).
              assert (Eb : (k <? j) = true) by (apply Nat.ltb_lt; lia).
              assert (Ec : (k <? length m) = true) by (apply Nat.ltb_lt; lia).
              rewrite Ea, Eb, Ec. simpl. split; [intros _|reflexivity].
              right. exists i, j. split; [exact Hrun|]. split; [lia|].
              split; [exact E1|]. destruct Hrun as (_ & _ & Hl & Hu).
              split; split; try lia.
              ** destruct Hl; [lia | assumption].
              ** destruct Hu; [lia | assumption].
        -- intros k Hk. rewrite Hns.
           assert (E : (k <? j) = false) by (apply Nat.ltb_ge; lia).
           rewrite E, andb_false_r. simpl. apply Hrest. lia.
        -- destruct Hrun as (_ & _ & _ & Hu). destruct Hu; [right; now left|].
           right. right. now right.
      * (* the run stays unkept *)
        apply IH; try lia.
        -- intros k Hk. destruct (Nat.lt_ge_cases k i) as [Hki|Hki];
             [apply Hdone; lia|].
           rewrite Hrest by lia.
           destruct Hrun as (Hr1 & Hr2 & Hr3 & Hr4).
           rewrite (Hr2 k) by lia. split; [discriminate|].
           intros [H|(i' & j' & Hrun' & Hk' & Hlen & [Hl1 Hl2] & [Hu1 Hu2])];
             [discriminate|]. exfalso.
           destruct (maximal_run_unique m0 i j i' j' k) as [<- <-];
             [exact (conj Hr1 (conj Hr2 (conj Hr3 Hr4))) | exact Hrun' | lia | lia |].
           assert (E1 : (Z.of_nat (j - i) <=? max_run)%Z = true) by (now apply Z.leb_le).
           assert (E2 : (1 <=? i) = true) by (apply Nat.leb_le; lia).
           assert (E3 : (j <? length m0) = true) by (now apply Nat.ltb_lt).
           rewrite E1, E2, E3 in Econd. discriminate.
        -- intros k Hk. apply Hrest. lia.
        -- destruct Hrun as (_ & _ & _ & Hu). destruct Hu; [right; now left|].
           right. right. now right.
Qed.

(** The absorbed mask, column by column. *)
Lemma allow_runs_char (mask : list bool) (max_run : Z) :
  (0 < max_run)%Z ->
  exists m',
    _allow_short_nonconserved_runs mask max_run = Ok m'
    /\ length m' = length mask
    /\ forall k, k < length mask ->
         (nth k m' false = true <->
          nth k mask false = true \/ promoted mask max_run k).
Proof.
  intros Hpos. unfold _allow_short_nonconserved_runs.
  assert (E : (max_run <=? 0)%Z = false) by (apply Z.leb_gt; lia).
  rewrite E. apply absorb_loop_spec.
  - reflexivity.
  - lia.
  - lia.
  - intros k Hk. lia.
  - intros k Hk. reflexivity.
  - now left.
Qed.

(** C5. For a positive [max_run], run absorption keeps the length of the
    mask and promotes to kept exactly the maximal runs of consecutive unkept
    columns of length at most [max_run] that have a kept column immediately
    on both sides: a column of the result is kept if and only if it was kept
    or lies in such a run; a run that touches either end of the mask is
    never promoted. The mask T F F T becomes T T T T for [max_run] 2 and is
    unchanged for [max_run] 1. *)
Theorem allow_short_nonconserved_runs_spec (mask : list bool) (max_run : Z)
  (Hpos : (0 < max_run)%Z) :
  (exists m',
     _allow_short_nonconserved_runs mask max_run = Ok m'
     /\ length m' = length mask
     /\ (forall k, k < length mask ->
           (nth k m' false = true <->
            nth k mask false = true \/ promoted mask max_run k))
     /\ (forall i j, maximal_run mask i j -> i = 0 \/ j = length mask ->
           forall k, i <= k < j -> nth k m' false = false))
  /\ _allow_short_nonconserved_runs [true; false; false; true] 2
     = Ok [true; true; true; true]
  /\ _allow_short_nonconserved_runs [true; false; false; true] 1
     = Ok [true; false; false; true].
Proof.
  split; [|split; reflexivity].
  destruct (allow_runs_char mask max_run Hpos) as (m' & E & HL & Hchar).
  exists m'. split; [exact E|]. split; [exact HL|]. split; [exact Hchar|].
  intros i j Hrun Hedge k Hk.
  destruct (nth k m' false) eqn:Ek; [exfalso|reflexivity].
  assert (Hkl : k < length mask) by (destruct Hrun as ((_ & H) & _); lia).
  apply Hchar in Ek; [|exact Hkl].
  destruct Ek as [Ek|(i' & j' & Hrun' & Hk' & _ & [Hl _] & [Hu _])].
  - destruct Hrun as (_ & Hall & _). rewrite (Hall k Hk) in Ek. discriminate.
  - destruct (maximal_run_unique mask i j i' j' k Hrun Hrun' Hk Hk') as [<- <-].
    lia.
Qed.

Lemma allow_short_nonconserved_runs_spec_witness :
  (0 < 2)%Z
  /\ exists m',
       _allow_short_nonconserved_runs [false; true; false; true; false] 2 = Ok m'
       /\ length m' = 5
       /\ nth 2 m' false = true /\ nth 0 m' false = false
       /\ nth 4 m' false = false.
Proof.
  split; [reflexivity|].
  destruct (proj1 (allow_short_nonconserved_runs_spec
                     [false; true; false; true; false] 2 eq_refl))
    as (m' & E & HL & _).
  exists m'. split; [exact E|]. split; [exact HL|].
  vm_compute in E. injection E as <-. repeat split.
Defined.

(* ===================================================================== *)
(** * The block extractor                                                  *)
(* ===================================================================== *)

Lemma nodup_all_equal (l : list nat) (v : nat) :
  l <> [] -> (forall x, In x l -> x = v) -> nodup Nat.eq_dec l = [v].
Proof.
  induction l as [|x l IH]; intros Hne Hall; [congruence|].
  simpl. destruct (in_dec Nat.eq_dec x l) as [Hin|Hout].
  - apply IH; [intros ->; destruct Hin | intros y Hy; apply Hall; now right].
  - destruct l as [|y l].
    + simpl. f_equal. apply Hall. now left.
    + exfalso. apply Hout. left.
      rewrite (Hall x), (Hall y); [reflexivity | right; now left | now left].
Qed.

Lemma all_equal_length_iff (entries : list entry) :
  all_equal_length entries = true <->
  entries <> [] /\ exists L, Forall (fun e => length (snd e) = L) entries.
Proof.
  unfold all_equal_length. rewrite Nat.eqb_eq. split.
  - intros H.
    destruct (nodup Nat.eq_dec (map (fun e => length (snd e)) entries))
      as [|v [|w r]] eqn:E; try discriminate. clear H. split.
    + intros ->. discriminate.
    + exists v. apply Forall_forall. intros e He.
      assert (Hin : In (length (snd e)) (nodup Nat.eq_dec
                       (map (fun e => length (snd e)) entries))).
      { apply nodup_In. now apply (in_map (fun e => length (snd e))). }
      rewrite E in Hin. destruct Hin as [Hin|[]]. now symmetry.
  - intros [Hne [L HL]]. rewrite (nodup_all_equal _ L); [reflexivity | |].
    + destruct entries; [congruence | discriminate].
    + intros x Hx. apply in_map_iff in Hx. destruct Hx as (e & <- & He).
      rewrite Forall_forall in HL. now apply HL.
Qed.

(** A loop over [enumerate(l)] that maintains an invariant indexed by the
    position. *)
Lemma fold_enumerate_inv (A S : Type) (P : nat -> S -> Prop)
  (f : S -> nat * A -> S) (l : list A) (s0 : S) :
  P 0 s0 ->
  (forall k x s, nth_error l k = Some x -> P k s -> P (k + 1) (f s (k, x))) ->
  P (length l) (fold_left f (enumerate l) s0).
Proof.
  unfold enumerate.
  assert (G : forall l i s0,
    P i s0 ->
    (forall k x s, nth_error l k = Some x -> P (i + k) s -> P (i + k + 1) (f s (i + k, x))) ->
    P (i + length l) (fold_left f (combine (seq i (length l)) l) s0)).
  { clear. induction l as [|x l IH]; intros i s0 H0 Hstep; simpl.
    - now rewrite Nat.add_0_r.
    - replace (i + Datatypes.S (length l)) with (Datatypes.S i + length l) by lia.
      apply IH.
      + specialize (Hstep 0 x s0 eq_refl). rewrite Nat.add_0_r in Hstep.
        replace (Datatypes.S i) with (i + 1) by lia. now apply Hstep.
      + intros k y s Hk Hs.
        replace (Datatypes.S i + k) with (i + Datatypes.S k) in * by lia.
        now apply Hstep. }
  intros H0 Hstep. apply (G l 0 s0 H0). intros k x s. simpl. apply Hstep.
Qed.

Lemma nth_app_false (a : list bool) (k : nat) :
  nth k (a ++ [false]) false = nth k a false.
Proof.
  destruct (Nat.lt_ge_cases k (length a)) as [H|H].
  - now apply app_nth1.
  - rewrite app_nth2 by assumption. rewrite (nth_overflow a) by assumption.
    destruct (k - length a) as [|[|n]]; reflexivity.
Qed.

(** Every block found is a maximal run of kept columns of the mask, of
    length at least [min_len]. *)
Lemma find_blocks_sound (a : list bool) (min_len : Z) (s e : nat) :
  In (s, e) (find_blocks a min_len) ->
  s < e <= length a
  /\ (forall k, s <= k < e -> nth k a false = true)
  /\ (s = 0 \/ nth (s - 1) a false = false)
  /\ (e = length a \/ nth e a false = false)
  /\ (min_len <= Z.of_nat e - Z.of_nat s)%Z.
Proof.
  unfold find_blocks.
  pose (good := fun (b : nat * nat) =>
    fst b < snd b <= length a
    /\ (forall k, fst b <= k < snd b -> nth k a false = true)
    /\ (fst b = 0 \/ nth (fst b - 1) a false = false)
    /\ (snd b = length a \/ nth (snd b) a false = false)
    /\ (min_len <= Z.of_nat (snd b) - Z.of_nat (fst b))%Z).
  pose (P := fun (i : nat) (st : list (nat * nat) * option nat) =>
    (forall b, In b (fst st) -> good b)
    /\ match snd st with
       | None => i = 0 \/ nth (i - 1) a false = false
       | Some s0 => s0 < i
                    /\ (forall k, s0 <= k < i -> nth k a false = true)
                    /\ (s0 = 0 \/ nth (s0 - 1) a false = false)
       end).
  assert (H : P (length (a ++ [false]))
                (fold_left (find_blocks_step min_len) (enumerate (a ++ [false]))
                           ([], None))).
  { apply fold_enumerate_inv.
    - split; [intros b []| now left].
    - intros k x [blocks so] Hx [Hb Hs]. simpl in Hb, Hs.
      assert (Hk : k < length (a ++ [false])) by (apply nth_error_Some; congruence).
      rewrite length_app in Hk. simpl in Hk.
      apply (nth_error_nth _ _ false) in Hx. rewrite nth_app_false in Hx.
      unfold find_blocks_step.
      destruct x, so as [s0|]; simpl.
      + split; [exact Hb|]. destruct Hs as (H1 & H2 & H3).
        split; [lia|]. split; [|exact H3].
        intros j Hj. destruct (Nat.eq_dec j k) as [->|]; [exact Hx | apply H2; lia].
      + split; [exact Hb|]. split; [lia|]. split.
        * intros j Hj. replace j with k by lia. exact Hx.
        * replace (k + 1 - 1) with k in * by lia. destruct Hs; [now left|].
          right. assumption.
      + destruct Hs as (H1 & H2 & H3). split.
        * destruct (min_len <=? Z.of_nat k - Z.of_nat s0)%Z eqn:El; [|exact Hb].
          intros b Hin. apply in_app_or in Hin. destruct Hin as [Hin|[<-|[]]];
            [now apply Hb|].
          apply Z.leb_le in El. unfold good. simpl.
          split; [lia|]. split; [exact H2|]. split; [exact H3|]. split; [|exact El].
          destruct (Nat.eq_dec k (length a)); [now left | now right].
        * right. now replace (k + 1 - 1) with k by lia.
      + split; [exact Hb|]. right. now replace (k + 1 - 1) with k by lia. }
  intros Hin. destruct H as [H _]. apply (H (s, e) Hin).
Qed.

(** A mask without unkept columns is one block. *)
Lemma find_blocks_all_true (a : list bool) (min_len : Z) :
  (forall k, k < length a -> nth k a false = true) ->
  1 <= length a -> (min_len <= Z.of_nat (length a))%Z ->
  find_blocks a min_len = [(0, length a)].
Proof.
  intros Hall Hlen Hmin. unfold find_blocks.
  pose (P := fun (i : nat) (st : list (nat * nat) * option nat) =>
    (i = 0 /\ st = ([], None))
    \/ (1 <= i <= length a /\ st = ([], Some 0))
    \/ (i = length a + 1 /\ st = ([(0, length a)], None))).
  assert (H : P (length (a ++ [false]))
                (fold_left (find_blocks_step min_len) (enumerate (a ++ [false]))
                           ([], None))).
  { apply fold_enumerate_inv.
    - left. auto.
    - intros k x st Hx Hst.
      assert (Hk : k < length (a ++ [false])) by (apply nth_error_Some; congruence).
      rewrite length_app in Hk. simpl in Hk.
      apply (nth_error_nth _ _ false) in Hx. rewrite nth_app_false in Hx.
      destruct (Nat.eq_dec k (length a)) as [Hkl|Hkl].
      + rewrite nth_overflow in Hx by lia. subst x.
        destruct Hst as [[H1 ->]|[[H1 ->]|[H1 ->]]]; try lia.
        right. right. split; [lia|]. unfold find_blocks_step. rewrite Hkl.
        assert (E : (min_len <=? Z.of_nat (length a) - Z.of_nat 0)%Z = true)
          by (apply Z.leb_le; lia).
        now rewrite E.
      + rewrite Hall in Hx by lia. subst x.
        destruct Hst as [[H1 ->]|[[H1 ->]|[H1 ->]]]; try lia.
        * right. left. split; [lia|]. subst k. reflexivity.
        * right. left. split; [lia|]. reflexivity. }
  rewrite length_app in H. simpl in H.
  destruct H as [[H1 _]|[[H1 _]|[_ ->]]]; try lia. reflexivity.
Qed.

Lemma trim_left_spec (mets : list metrics) (fc mg : Q) (fuel s e : nat) :
  e <= length mets -> e - s <= fuel ->
  exists s',
    trim_left fuel mets fc mg s e = Ok s'
    /\ (s < e -> s <= s' <= e)
    /\ (e <= s -> s' = s)
    /\ (s' < e -> flank_ok mets fc mg s' = true)
    /\ (flank_ok mets fc mg s = true -> s' = s).
Proof.
  revert s. induction fuel as [|fuel IH]; intros s He Hf.
  - simpl. assert (E : (s <? e) = false) by (apply Nat.ltb_ge; lia).
    rewrite E. exists s. split; [reflexivity|].
    split; [lia|]. split; [auto|]. split; [lia | auto].
  - simpl. destruct (s <? e) eqn:E.
    + apply Nat.ltb_lt in E.
      rewrite (@py_get_nth _ mets s no_metrics) by lia. simpl.
      fold (flank_ok mets fc mg s).
      destruct (flank_ok mets fc mg s) eqn:Ef; simpl.
      * exists s. split; [reflexivity|]. split; [lia|]. split; [lia|]. auto.
      * destruct (IH (s + 1)) as (s' & Es & H1 & H2 & H3 & H4); try lia.
        exists s'. split; [exact Es|].
        split; [intros _; destruct (Nat.eq_dec (s + 1) e); [rewrite H2; lia | lia]|].
        split; [lia|]. split; [exact H3 | discriminate].
    + apply Nat.ltb_ge in E. exists s. split; [reflexivity|].
      split; [lia|]. split; [auto|]. split; [lia | auto].
Qed.

Lemma trim_right_spec (mets : list metrics) (fc mg : Q) (fuel s e : nat) :
  e <= length mets -> e - s <= fuel ->
  exists e',
    trim_right fuel mets fc mg s e = Ok e'
    /\ (s < e -> s <= e' <= e)
    /\ (e <= s -> e' = e)
    /\ (s < e' -> flank_ok mets fc mg (e' - 1) = true)
    /\ (flank_ok mets fc mg (e - 1) = true -> e' = e).
Proof.
  revert e. induction fuel as [|fuel IH]; intros e He Hf.
  - simpl. assert (E : (s <? e) = false) by (apply Nat.ltb_ge; lia).
    rewrite E. exists e. split; [reflexivity|].
    split; [lia|]. split; [auto|]. split; [lia | auto].
  - simpl. destruct (s <? e) eqn:E.
    + apply Nat.ltb_lt in E.
      rewrite (@py_get_nth _ mets (e - 1) no_metrics) by lia. simpl.
      fold (flank_ok mets fc mg (e - 1)).
      destruct (flank_ok mets fc mg (e - 1)) eqn:Ef; simpl.
      * exists e. split; [reflexivity|]. split; [lia|]. split; [lia|]. auto.
      * destruct (IH (e - 1)) as (e' & Ee & H1 & H2 & H3 & H4); try lia.
        exists e'. split; [exact Ee|].
        split; [intros _; destruct (Nat.eq_dec s (e - 1)); [rewrite H2; lia | lia]|].
        split; [lia|]. split; [exact H3 | discriminate].
    + apply Nat.ltb_ge in E. exists e. split; [reflexivity|].
      split; [lia|]. split; [auto|]. split; [lia | auto].
Qed.

(** Trimming a block within the columns never raises; what is left lies
    inside the block and has two flank columns that pass; a block whose
    two ends pass is left as it is. *)
Lemma soft_trim_block_spec (mets : list metrics) (fc mg : Q) (s e : nat) :
  s < e <= length mets ->
  exists r,
    soft_trim_block (s, e) mets fc mg = Ok r
    /\ (forall s' e', r = Some (s', e') ->
          s <= s' /\ s' < e' /\ e' <= e
          /\ flank_ok mets fc mg s' = true
          /\ flank_ok mets fc mg (e' - 1) = true)
    /\ (flank_ok mets fc mg s = true -> flank_ok mets fc mg (e - 1) = true ->
        r = Some (s, e)).
Proof.
  intros Hse. unfold soft_trim_block.
  destruct (trim_left_spec mets fc mg (e - s + 1) s e)
    as (s' & -> & L1 & L2 & L3 & L4); try lia.
  simpl.
  destruct (trim_right_spec mets fc mg (e - s' + 1) s' e)
    as (e' & -> & R1 & R2 & R3 & R4); try lia.
  simpl. eexists. split; [reflexivity|]. split.
  - intros s2 e2 Hr. destruct (s' <? e') eqn:E; [|discriminate].
    apply Nat.ltb_lt in E. injection Hr as <- <-.
    assert (s' < e) by (destruct (Nat.lt_ge_cases s' e); [assumption|];
                        rewrite R2 in E by lia; lia).
    split; [lia|]. split; [lia|]. split; [lia|]. split; [apply L3; lia | apply R3; lia].
  - intros Hs He. rewrite (L4 Hs) in *. rewrite (R4 He).
    assert (E : (s <? e) = true) by (apply Nat.ltb_lt; lia). now rewrite E.
Qed.

Lemma filterM_ok (A : Type) (p : A -> result bool) (q : A -> bool) (l : list A) :
  (forall x, In x l -> p x = Ok (q x)) -> filterM p l = Ok (filter q l).
Proof.
  induction l as [|x l IH]; intros H; simpl; [reflexivity|].
  rewrite (H x (or_introl eq_refl)). simpl.
  rewrite IH by (intros y Hy; apply H; now right). reflexivity.
Qed.

Lemma any_residue_at_ok (seqs : list str) (i : nat) :
  (forall s, In s seqs -> i < length s) ->
  any_residue_at seqs i
  = Ok (existsb (fun s => negb (is_gap (nth i s gapc))) seqs).
Proof.
  induction seqs as [|s seqs IH]; intros H; simpl; [reflexivity|].
  rewrite (@py_get_nth _ s i gapc) by (apply H; now left). simpl.
  destruct (negb (is_gap (nth i s gapc))); [reflexivity|].
  apply IH. intros s' Hs'. apply H. now right.
Qed.

(** The mask after the optional absorption, column by column. *)
Lemma mask_stage_spec (b : list bool) (max_run : Z) :
  exists a,
    (if (0 <? max_run)%Z then _allow_short_nonconserved_runs b max_run else Ok b)
    = Ok a
    /\ length a = length b
    /\ forall k, k < length b ->
         (nth k a false = true <->
          nth k b false = true \/ ((0 < max_run)%Z /\ promoted b max_run k)).
Proof.
  destruct (0 <? max_run)%Z eqn:E.
  - apply Z.ltb_lt in E.
    destruct (allow_runs_char b max_run E) as (a & Ea & HL & Hc).
    exists a. split; [exact Ea|]. split; [exact HL|].
    intros k Hk. rewrite (Hc k Hk). tauto.
  - apply Z.ltb_ge in E. exists b. split; [reflexivity|]. split; [reflexivity|].
    intros k Hk. split; [now left|]. intros [H|[H _]]; [exact H | lia].
Qed.

(** The trimming pass over the blocks. *)
Lemma trim_fold_spec (mets : list metrics) (fc mg : Q) (min_len : Z)
  (blocks : list (nat * nat)) :
  (forall b, In b blocks -> fst b < snd b <= length mets) ->
  forall acc,
  exists out,
    foldM (fun acc b =>
             tb <- soft_trim_block b mets fc mg ;;
             Ok (match tb with
                 | Some (s, e) =>
                     if (min_len <=? Z.of_nat e - Z.of_nat s)%Z
                     then acc ++ [(s, e)] else acc
                 | None => acc
                 end))
          blocks acc
    = Ok (acc ++ out)
    /\ (forall b', In b' out ->
         exists b, In b blocks
           /\ fst b <= fst b' /\ fst b' < snd b' /\ snd b' <= snd b
           /\ flank_ok mets fc mg (fst b') = true
           /\ flank_ok mets fc mg (snd b' - 1) = true
           /\ (min_len <= Z.of_nat (snd b') - Z.of_nat (fst b'))%Z
           /\ (flank_ok mets fc mg (fst b) = true ->
               flank_ok mets fc mg (snd b - 1) = true -> b' = b)).
Proof.
  induction blocks as [|[s e] blocks IH]; intros Hb acc.
  - exists []. simpl. rewrite app_nil_r. split; [reflexivity|].
    intros b' [].
  - cbn [foldM].
    destruct (soft_trim_block_spec mets fc mg s e) as (r & -> & Hr & Hid).
    { apply (Hb (s, e)). now left. }
    cbn [bind].
    assert (Hb' : forall b, In b blocks -> fst b < snd b <= length mets)
      by (intros b Hin; apply Hb; now right).
    assert (Hrest : forall acc',
      exists out, foldM (fun acc b =>
             tb <- soft_trim_block b mets fc mg ;;
             Ok (match tb with
                 | Some (s, e) =>
                     if (min_len <=? Z.of_nat e - Z.of_nat s)%Z
                     then acc ++ [(s, e)] else acc
                 | None => acc
                 end)) blocks acc' = Ok (acc' ++ out)
        /\ (forall b', In b' out ->
         exists b, In b ((s, e) :: blocks)
           /\ fst b <= fst b' /\ fst b' < snd b' /\ snd b' <= snd b
           /\ flank_ok mets fc mg (fst b') = true
           /\ flank_ok mets fc mg (snd b' - 1) = true
           /\ (min_len <= Z.of_nat (snd b') - Z.of_nat (fst b'))%Z
           /\ (flank_ok mets fc mg (fst b) = true ->
               flank_ok mets fc mg (snd b - 1) = true -> b' = b))).
    { intros acc'. destruct (IH Hb' acc') as (out & E & Hout).
      exists out. split; [exact E|]. intros b' Hin.
      destruct (Hout b' Hin) as (b & Hbin & Hprops).
      exists b. split; [now right | exact Hprops]. }
    destruct r as [[s' e']|]; [|apply Hrest].
    destruct (min_len <=? Z.of_nat e' - Z.of_nat s')%Z eqn:El; [|apply Hrest].
    destruct (Hr s' e' eq_refl) as (H1 & H2 & H3 & H4 & H5).
    destruct (Hrest (acc ++ [(s', e')])) as (out & -> & Hout).
    exists ((s', e') :: out). rewrite <- app_assoc. split; [reflexivity|].
    intros b' [<-|Hin]; [|now apply Hout].
    exists (s, e). simpl. apply Z.leb_le in El.
    split; [now left|]. repeat (split; [assumption|]).
    intros F1 F2. specialize (Hid F1 F2). now injection Hid as -> ->.
Qed.

Lemma length_base_mask (mets : list metrics) (mg mc : Q) :
  length (base_mask mets mg mc) = length mets.
Proof. apply length_map. Qed.

(** The surviving blocks: the extraction never raises, and every surviving
    block lies inside a maximal run of kept columns of the final mask. *)
Lemma surviving_blocks_spec (mets : list metrics) (min_len : Z) (mg mc : Q)
  (flank : option Q) (max_run : Z) :
  exists a blocks,
    (if (0 <? max_run)%Z
     then _allow_short_nonconserved_runs (base_mask mets mg mc) max_run
     else Ok (base_mask mets mg mc)) = Ok a
    /\ length a = length mets
    /\ surviving_blocks mets min_len mg mc flank max_run = Ok blocks
    /\ forall b', In b' blocks ->
         exists b0, In b0 (find_blocks a min_len)
           /\ fst b0 <= fst b' /\ fst b' < snd b' /\ snd b' <= snd b0
           /\ (min_len <= Z.of_nat (snd b') - Z.of_nat (fst b'))%Z
           /\ match flank with
              | None => b' = b0
              | Some fc =>
                  flank_ok mets fc mg (fst b') = true
                  /\ flank_ok mets fc mg (snd b' - 1) = true
                  /\ (flank_ok mets fc mg (fst b0) = true ->
                      flank_ok mets fc mg (snd b0 - 1) = true -> b' = b0)
              end.
Proof.
  destruct (mask_stage_spec (base_mask mets mg mc) max_run) as (a & Ea & HL & _).
  rewrite length_base_mask in HL.
  unfold surviving_blocks. rewrite Ea. cbn [bind].
  assert (Hfb : forall b, In b (find_blocks a min_len) ->
                          fst b < snd b <= length mets).
  { intros [s e] Hin. destruct (find_blocks_sound a min_len s e Hin) as (H & _).
    simpl. lia. }
  destruct flank as [fc|].
  - destruct (trim_fold_spec mets fc mg min_len (find_blocks a min_len) Hfb [])
      as (out & E & Hout).
    exists a, out. split; [reflexivity|]. split; [exact HL|].
    split; [exact E|].
    intros b' Hin.
    destruct (Hout b' Hin) as (b0 & H0 & H1 & H2 & H3 & H4 & H5 & H6 & H7).
    exists b0. repeat (split; [assumption|]). auto.
  - exists a, (find_blocks a min_len). split; [reflexivity|]. split; [exact HL|].
    split; [reflexivity|]. intros [s e] Hin.
    destruct (find_blocks_sound a min_len s e Hin) as (H1 & _ & _ & _ & H5).
    exists (s, e). simpl. repeat (split; [first [assumption | lia]|]). reflexivity.
Qed.

Lemma surviving_blocks_range (mets : list metrics) (min_len : Z) (mg mc : Q)
  (flank : option Q) (max_run : Z) (blocks : list (nat * nat)) :
  surviving_blocks mets min_len mg mc flank max_run = Ok blocks ->
  forall b, In b blocks -> fst b < snd b <= length mets.
Proof.
  intros E b Hin.
  destruct (surviving_blocks_spec mets min_len mg mc flank max_run)
    as (a & blocks' & _ & HL & E' & Hb).
  rewrite E in E'. injection E' as <-.
  destruct (Hb b Hin) as ([s e] & H0 & H1 & H2 & H3 & _).
  destruct (find_blocks_sound a min_len s e H0) as (H & _).
  simpl in *. lia.
Qed.

(** On an equal-length input [gblock_filter] raises nothing: it returns the
    assembly of the surviving blocks. *)
Lemma gblock_filter_char (entries : list entry) (min_len : Z) (mg mc : Q)
  (flank : option Q) (drop : bool) (max_run : Z) :
  all_equal_length entries = true ->
  exists L blocks,
    entries <> []
    /\ Forall (fun e => length (snd e) = L) entries
    /\ surviving_blocks
         (map (fun i => metric_of (length (map snd entries))
                                  (column (map snd entries) i))
              (range 0 L))
         min_len mg mc flank max_run = Ok blocks
    /\ (forall b, In b blocks -> fst b < snd b <= L)
    /\ gblock_filter entries min_len mg mc flank drop max_run
       = Ok (assemble entries blocks drop).
Proof.
  intros Heq. pose proof Heq as Heq'.
  apply all_equal_length_iff in Heq'. destruct Heq' as [Hne [L HL]].
  assert (HLs : Forall (fun s => length s = L) (map snd entries)).
  { apply Forall_forall. intros s Hs. apply in_map_iff in Hs.
    destruct Hs as (e & <- & He). rewrite Forall_forall in HL. now apply HL. }
  assert (Hnes : map snd entries <> []) by (destruct entries; [congruence | discriminate]).
  set (mets := map (fun i => metric_of (length (map snd entries))
                                       (column (map snd entries) i))
                   (range 0 L)).
  assert (Hmets : length mets = L)
    by (unfold mets, range; now rewrite length_map, length_seq, Nat.sub_0_r).
  destruct (surviving_blocks_spec mets min_len mg mc flank max_run)
    as (a & blocks & _ & _ & Eb & _).
  exists L, blocks. split; [exact Hne|]. split; [exact HL|]. split; [exact Eb|].
  assert (Hrange : forall b, In b blocks -> fst b < snd b <= L).
  { intros b Hb. rewrite <- Hmets.
    now apply (surviving_blocks_range mets min_len mg mc flank max_run blocks). }
  split; [exact Hrange|].
  unfold gblock_filter. rewrite Heq. cbn [negb].
  rewrite (column_metrics_eq (map snd entries) L Hnes HLs).
  fold mets. cbn [bind]. rewrite Eb. cbn [bind].
  unfold assemble. destruct blocks as [|b0 blocks']; [now rewrite map_map|].
  set (blocks := b0 :: blocks') in *.
  assert (Hkeep : forall i, In i (flat_map (fun b => range (fst b) (snd b)) blocks) ->
                            i < L).
  { intros i Hi. apply in_flat_map in Hi. destruct Hi as (b & Hb & Hi).
    unfold range in Hi. apply in_seq in Hi. specialize (Hrange b Hb). lia. }
  assert (Ekeep :
    (if drop
     then filterM (any_residue_at (map snd entries))
                  (flat_map (fun b => range (fst b) (snd b)) blocks)
     else Ok (flat_map (fun b => range (fst b) (snd b)) blocks))
    = Ok (kept_columns (map snd entries) blocks drop)).
  { unfold kept_columns. destruct drop; [|reflexivity].
    apply filterM_ok. intros i Hi. apply any_residue_at_ok.
    intros s Hs. rewrite Forall_forall in HLs. rewrite (HLs s Hs). now apply Hkeep. }
  rewrite Ekeep. cbn [bind].
  apply mapM_ok. intros e He.
  rewrite (mapM_ok (fun i => py_get (snd e) i) (fun i => nth i (snd e) gapc)).
  - reflexivity.
  - intros i Hi. apply py_get_nth.
    rewrite Forall_forall in HL.
    apply Nat.lt_le_trans with L;
      [|apply Nat.eq_le_incl; symmetry; exact (HL e He)].
    apply Hkeep.
    unfold kept_columns in Hi. destruct drop; [|exact Hi].
    apply filter_In in Hi. tauto.
Qed.

Lemma assemble_shape (entries : list entry) (blocks : list (nat * nat))
  (drop : bool) :
  map fst (assemble entries blocks drop) = map fst entries
  /\ length (assemble entries blocks drop) = length entries
  /\ exists len, Forall (fun e => length (snd e) = len)
                        (assemble entries blocks drop).
Proof.
  unfold assemble. destruct blocks as [|b blocks'].
  - split; [rewrite map_map; reflexivity|]. split; [apply length_map|].
    exists 0. apply Forall_forall. intros e He. apply in_map_iff in He.
    destruct He as (e0 & <- & _). reflexivity.
  - split; [rewrite map_map; reflexivity|]. split; [apply length_map|].
    exists (length (kept_columns (map snd entries) (b :: blocks') drop)).
    apply Forall_forall. intros e He. apply in_map_iff in He.
    destruct He as (e0 & <- & _). simpl. unfold select. apply length_map.
Qed.

Lemma assemble_equal_length (entries : list entry) (blocks : list (nat * nat))
  (drop : bool) :
  entries <> [] -> all_equal_length (assemble entries blocks drop) = true.
Proof.
  intros Hne. destruct (assemble_shape entries blocks drop) as (_ & H2 & H3).
  apply all_equal_length_iff. split; [|exact H3].
  intros Hnil. rewrite Hnil in H2. destruct entries; [congruence | discriminate].
Qed.

(** C8. On an equal-length input neither the column scorer nor the block
    extraction raises, and when no block survives [gblock_filter] returns,
    as a success value, every input label paired with the empty string. *)
Theorem gblock_filter_no_blocks (entries : list entry) (min_block_len : Z)
  (max_gap min_cons : Q) (flank_cons : option Q) (drop_all_gap_columns : bool)
  (max_noncons_run : Z)
  (Heq : all_equal_length entries = true) :
  exists mets blocks,
    column_metrics (map snd entries) = Ok mets
    /\ surviving_blocks mets min_block_len max_gap min_cons flank_cons
                        max_noncons_run = Ok blocks
    /\ (blocks = [] ->
        gblock_filter entries min_block_len max_gap min_cons flank_cons
                      drop_all_gap_columns max_noncons_run
        = Ok (map (fun h => (h, [])) (map fst entries))).
Proof.
  destruct (gblock_filter_char entries min_block_len max_gap min_cons flank_cons
              drop_all_gap_columns max_noncons_run Heq)
    as (L & blocks & Hne & HL & Eb & _ & E).
  eexists. exists blocks. split; [|split; [exact Eb|]].
  - apply column_metrics_eq.
    + destruct entries; [congruence | discriminate].
    + apply Forall_forall. intros s Hs. apply in_map_iff in Hs.
      destruct Hs as (e & <- & He). rewrite Forall_forall in HL. now apply HL.
  - intros ->. rewrite E. unfold assemble. now rewrite map_map.
Qed.

Lemma gblock_filter_no_blocks_witness :
  let entries := [(lit "s1", lit "AC-T"); (lit "s2", lit "AG-T")] in
  all_equal_length entries = true
  /\ gblock_filter entries 10 (1 # 2) (7 # 10) None true 0
     = Ok [(lit "s1", []); (lit "s2", [])].
Proof.
  intros entries. split; [reflexivity|].
  destruct (gblock_filter_no_blocks entries 10 (1 # 2) (7 # 10) None true 0 eq_refl)
    as (mets & blocks & Em & Eb & H).
  vm_compute in Em. injection Em as <-.
  vm_compute in Eb. injection Eb as <-.
  exact (H eq_refl).
Defined.

(** C10. On an equal-length input, for all threshold settings,
    [gblock_filter] returns as many entries as it was given, with the same
    labels in the same order, and the residue strings of the output all have
    the same length: the output is again an equal-length alignment. *)
Theorem gblock_filter_shape (entries : list entry) (min_block_len : Z)
  (max_gap min_cons : Q) (flank_cons : option Q) (drop_all_gap_columns : bool)
  (max_noncons_run : Z)
  (Heq : all_equal_length entries = true) :
  exists out,
    gblock_filter entries min_block_len max_gap min_cons flank_cons
                  drop_all_gap_columns max_noncons_run = Ok out
    /\ length out = length entries
    /\ map fst out = map fst entries
    /\ (exists len, Forall (fun e => length (snd e) = len) out)
    /\ all_equal_length out = true.
Proof.
  destruct (gblock_filter_char entries min_block_len max_gap min_cons flank_cons
              drop_all_gap_columns max_noncons_run Heq)
    as (L & blocks & Hne & HL & Eb & _ & E).
  destruct (assemble_shape entries blocks drop_all_gap_columns) as (H1 & H2 & H3).
  exists (assemble entries blocks drop_all_gap_columns).
  split; [exact E|]. split; [exact H2|]. split; [exact H1|]. split; [exact H3|].
  now apply assemble_equal_length.
Qed.

Lemma gblock_filter_shape_witness :
  let entries := [(lit "s1", lit "MSTAG"); (lit "s2", lit "MST-G");
                  (lit "s3", lit "MSTTG")] in
  all_equal_length entries = true
  /\ exists out,
       gblock_filter entries 3 (34 # 100) (67 # 100) None false 0 = Ok out
       /\ length out = 3
       /\ map fst out = [lit "s1"; lit "s2"; lit "s3"]
       /\ all_equal_length out = true.
Proof.
  intros entries. split; [reflexivity|].
  destruct (gblock_filter_shape entries 3 (34 # 100) (67 # 100) None false 0 eq_refl)
    as (out & E & H1 & H2 & _ & H4).
  exists out. split; [exact E|]. split; [exact H1|]. split; [exact H2 | exact H4].
Defined.

(** C3 (amended). On the entries s1 = MSTAG, s2 = MST-G, s3 = MSTTG with
    minBlockLen = 3, maxGap = 0.34, minCons = 0.67, no flank trim and no run
    absorption: column 3 has gap ratio 1/3 and conservation ratio 1/2, fails
    minCons and is dropped from the mask; the kept run [0, 3) has length 3,
    which meets minBlockLen, and survives, while the kept run [4, 5) fails
    minBlockLen and is discarded; the filter returns MST for every entry. *)
Theorem golden_example_blocks :
  let entries := [(lit "s1", lit "MSTAG"); (lit "s2", lit "MST-G");
                  (lit "s3", lit "MSTTG")] in
  exists mets,
    column_metrics (map snd entries) = Ok mets
    /\ (gap_ratio (nth 3 mets no_metrics) == 1 # 3)%Q
    /\ (cons_ratio (nth 3 mets no_metrics) == 1 # 2)%Q
    /\ Qle_bool (gap_ratio (nth 3 mets no_metrics)) (34 # 100) = true
    /\ Qle_bool (67 # 100) (cons_ratio (nth 3 mets no_metrics)) = false
    /\ base_mask mets (34 # 100) (67 # 100) = [true; true; true; false; true]
    /\ find_blocks [true; true; true; false; true] 3 = [(0, 3)]
    /\ surviving_blocks mets 3 (34 # 100) (67 # 100) None 0 = Ok [(0, 3)]
    /\ gblock_filter entries 3 (34 # 100) (67 # 100) None false 0
       = Ok [(lit "s1", lit "MST"); (lit "s2", lit "MST"); (lit "s3", lit "MST")].
Proof.
  intros entries. eexists. split; [vm_compute; reflexivity|].
  repeat split.
Qed.

(** C3 as first stated fails: the kept run [0, 3) is not discarded, it is
    the one surviving block. *)
Lemma golden_example_block_survives :
  let entries := [(lit "s1", lit "MSTAG"); (lit "s2", lit "MST-G");
                  (lit "s3", lit "MSTTG")] in
  exists mets,
    column_metrics (map snd entries) = Ok mets
    /\ In (0, 3) (find_blocks (base_mask mets (34 # 100) (67 # 100)) 3)
    /\ surviving_blocks mets 3 (34 # 100) (67 # 100) None 0 <> Ok [].
Proof.
  intros entries. eexists. split; [vm_compute; reflexivity|].
  split; [now left | discriminate].
Qed.

(* ===================================================================== *)
(** * Filtering a filtered alignment                                       *)
(* ===================================================================== *)

Lemma map_nth_seq (A : Type) (l : list A) (d : A) :
  map (fun i => nth i l d) (seq 0 (length l)) = l.
Proof.
  induction l as [|x l IH]; [reflexivity|].
  simpl. f_equal. rewrite <- seq_shift, map_map. exact IH.
Qed.

Lemma nth_map_in (A B : Type) (f : A -> B) (l : list A) (i : nat) (d : A)
  (d' : B) :
  i < length l -> nth i (map f l) d' = f (nth i l d).
Proof.
  intros Hi. rewrite (nth_indep _ d' (f d)) by (now rewrite length_map).
  apply map_nth.
Qed.

Lemma column_select (keep : list nat) (seqs : list str) (i : nat) :
  i < length keep ->
  column (map (select keep) seqs) i = column seqs (nth i keep 0).
Proof.
  intros Hi. unfold column, select. rewrite map_map.
  apply map_ext. intros s.
  exact (nth_map_in _ _ (fun k => nth k s gapc) keep i 0 gapc Hi).
Qed.

(** The metrics of the selected columns are the selected metrics. *)
Lemma mets_select (n L : nat) (keep : list nat) (seqs : list str) :
  (forall k, In k keep -> k < L) ->
  map (fun i => metric_of n (column (map (select keep) seqs) i))
      (range 0 (length keep))
  = map (fun k => nth k (map (fun i => metric_of n (column seqs i)) (range 0 L))
                      no_metrics)
        keep.
Proof.
  intros Hk.
  transitivity (map (fun k => metric_of n (column seqs k)) keep).
  - rewrite <- (map_nth_seq _ keep 0) at 2. rewrite map_map.
    unfold range. rewrite Nat.sub_0_r. apply map_ext_in.
    intros i Hi. apply in_seq in Hi. rewrite column_select by lia. reflexivity.
  - apply map_ext_in. intros k Hin. specialize (Hk k Hin).
    rewrite (nth_map_in _ _ (fun i => metric_of n (column seqs i)) (range 0 L) k 0
               no_metrics)
      by (unfold range; rewrite length_seq; lia).
    unfold range. rewrite seq_nth by lia. reflexivity.
Qed.

Lemma select_all (s : str) : select (range 0 (length s)) s = s.
Proof. unfold select, range. rewrite Nat.sub_0_r. apply map_nth_seq. Qed.

(** ** Masks with kept ends and short runs *)

Lemma ends_in_app (A : Type) (d : A) (F : A -> Prop) (l r : list A) :
  ends_in d F l -> ends_in d F r -> ends_in d F (l ++ r).
Proof.
  intros (Hl & L1 & L2) (Hr & R1 & R2). split; [|split].
  - destruct l; [congruence | discriminate].
  - rewrite app_nth1; [exact L1|]. destruct l; [congruence | simpl; lia].
  - rewrite length_app, app_nth2 by (destruct r; [congruence | simpl; lia]).
    replace (length l + length r - 1 - length l) with (length r - 1)
      by (destruct r; [congruence | simpl; lia]).
    exact R2.
Qed.

Lemma short_runs_app (max_run : Z) (l r : list bool) :
  absorbable max_run l -> absorbable max_run r -> short_runs max_run (l ++ r).
Proof.
  intros [(Hl & _ & L2) SL] [(Hr & R1 & _) SR] i j Hij Hall.
  rewrite length_app in Hij.
  assert (Hll : 1 <= length l) by (destruct l; [congruence | simpl; lia]).
  destruct (Nat.le_gt_cases j (length l)) as [Hj|Hj].
  - apply SL; [lia|]. intros k Hk.
    rewrite <- (app_nth1 l r false) by lia. now apply Hall.
  - destruct (Nat.le_gt_cases (length l) i) as [Hi|Hi].
    + replace (j - i) with ((j - length l) - (i - length l)) by lia.
      apply SR; [lia|]. intros k Hk.
      pose proof (Hall (length l + k) ltac:(lia)) as Hf.
      rewrite app_nth2 in Hf by lia.
      now replace (length l + k - length l) with k in Hf by lia.
    + exfalso. specialize (Hall (length l - 1) ltac:(lia)).
      rewrite app_nth1 in Hall by lia. congruence.
Qed.

Lemma absorbable_app (max_run : Z) (l r : list bool) :
  absorbable max_run l -> absorbable max_run r -> absorbable max_run (l ++ r).
Proof.
  intros Hl Hr. split; [|now apply short_runs_app].
  destruct Hl as [El _], Hr as [Er _]. now apply ends_in_app.
Qed.

Lemma absorbable_concat (max_run : Z) (segs : list (list bool)) :
  segs <> [] -> Forall (absorbable max_run) segs ->
  absorbable max_run (concat segs).
Proof.
  intros Hne H. induction H as [|l segs Hl Hsegs IH]; [congruence|].
  simpl. destruct segs as [|r segs'].
  - simpl. now rewrite app_nil_r.
  - apply absorbable_app; [exact Hl | apply IH; discriminate].
Qed.

Lemma run_left_exists (m : list bool) (k : nat) :
  nth k m false = false ->
  exists i, i <= k
    /\ (forall t, i <= t <= k -> nth t m false = false)
    /\ (i = 0 \/ nth (i - 1) m false = true).
Proof.
  induction k as [|k IH]; intros Hk.
  - exists 0. split; [lia|]. split; [|now left].
    intros t Ht. now replace t with 0 by lia.
  - destruct (nth k m false) eqn:E.
    + exists (S k). split; [lia|]. split.
      * intros t Ht. now replace t with (S k) by lia.
      * right. now replace (S k - 1) with k by lia.
    + destruct (IH eq_refl) as (i & Hi & Hall & Hedge).
      exists i. split; [lia|]. split; [|exact Hedge].
      intros t Ht. destruct (Nat.eq_dec t (S k)) as [->|]; [exact Hk|].
      apply Hall. lia.
Qed.

Lemma run_right_exists (m : list bool) (d k : nat) :
  length m - k <= d -> k < length m -> nth k m false = false ->
  exists j, k < j <= length m
    /\ (forall t, k <= t < j -> nth t m false = false)
    /\ (j = length m \/ nth j m false = true).
Proof.
  revert k. induction d as [|d IH]; intros k Hd Hk Hf; [lia|].
  destruct (Nat.eq_dec (k + 1) (length m)) as [Hl|Hl].
  - exists (length m). split; [lia|]. split; [|now left].
    intros t Ht. now replace t with k by lia.
  - destruct (nth (k + 1) m false) eqn:E.
    + exists (k + 1). split; [lia|]. split; [|now right].
      intros t Ht. now replace t with k by lia.
    + destruct (IH (k + 1) ltac:(lia) ltac:(lia) E) as (j & Hj & Hall & Hedge).
      exists j. split; [lia|]. split; [|exact Hedge].
      intros t Ht. destruct (Nat.eq_dec t k) as [->|]; [exact Hf|].
      apply Hall. lia.
Qed.

(** An unkept column lies in a maximal run of unkept columns. *)
Lemma maximal_run_exists (m : list bool) (k : nat) :
  k < length m -> nth k m false = false ->
  exists i j, maximal_run m i j /\ i <= k < j.
Proof.
  intros Hk Hf.
  destruct (run_left_exists m k Hf) as (i & Hi & Hl & Hel).
  destruct (run_right_exists m (length m) k ltac:(lia) Hk Hf) as (j & Hj & Hr & Her).
  exists i, j. split; [|lia]. split; [lia|]. split; [|split; assumption].
  intros t Ht. destruct (Nat.le_gt_cases t k); [apply Hl | apply Hr]; lia.
Qed.

(** The mask stage turns an absorbable mask into a mask of kept columns
    only. *)
Lemma absorbable_all_kept (max_run : Z) (m : list bool) :
  absorbable max_run m ->
  exists a,
    (if (0 <? max_run)%Z then _allow_short_nonconserved_runs m max_run else Ok m)
    = Ok a
    /\ length a = length m
    /\ forall k, k < length a -> nth k a false = true.
Proof.
  intros [(Hne & H0 & Hlast) Hshort].
  destruct (mask_stage_spec m max_run) as (a & Ea & HL & Hchar).
  exists a. split; [exact Ea|]. split; [exact HL|].
  intros k Hk. rewrite HL in Hk. apply (Hchar k Hk).
  destruct (nth k m false) eqn:Ek; [now left|]. right.
  destruct (maximal_run_exists m k Hk Ek) as (i & j & Hrun & Hij).
  pose proof Hrun as (Hr1 & Hr2 & Hr3 & Hr4).
  assert (Hlen : (Z.of_nat (j - i) <= max_run)%Z) by (apply Hshort; [lia | exact Hr2]).
  split; [lia|]. exists i, j. split; [exact Hrun|]. split; [exact Hij|].
  split; [exact Hlen|]. split.
  - destruct (Nat.eq_dec i 0) as [->|Hi0].
    + rewrite (Hr2 0) in H0 by lia. discriminate.
    + split; [lia|]. destruct Hr3; [lia | assumption].
  - destruct (Nat.eq_dec j (length m)) as [->|Hjl].
    + rewrite (Hr2 (length m - 1)) in Hlast by lia. discriminate.
    + split; [lia|]. destruct Hr4; [lia | assumption].
Qed.

(** A run of unkept columns lies inside the maximal run through any of its
    columns. *)
Lemma run_inside_maximal (m : list bool) (i j i' j' : nat) :
  maximal_run m i' j' -> i < j <= length m ->
  (forall k, i <= k < j -> nth k m false = false) ->
  i' <= i < j' -> j <= j'.
Proof.
  intros (Hr1 & Hr2 & Hr3 & Hr4) Hij Hall Hi.
  destruct (Nat.le_gt_cases j j') as [|Hgt]; [assumption|]. exfalso.
  destruct Hr4 as [Hr4|Hr4]; [lia|].
  rewrite (Hall j') in Hr4 by lia. discriminate.
Qed.

Section FinalMask.

(** [b] is the base mask and [a] the mask after the absorption stage. *)
Variables (b a : list bool) (max_run : Z).
Hypothesis HL : length a = length b.
Hypothesis Hchar : forall k, k < length b ->
  (nth k a false = true <->
   nth k b false = true \/ ((0 < max_run)%Z /\ promoted b max_run k)).

(** A promoted run is kept in the final mask together with the kept column
    on each side of it. *)
Lemma promoted_run_kept (k t : nat) :
  (0 < max_run)%Z -> promoted b max_run k ->
  exists i j, maximal_run b i j /\ i <= k < j /\ 0 < i /\ j < length b
    /\ (forall t, i - 1 <= t <= j -> nth t a false = true).
Proof.
  intros Hpos (i & j & Hrun & Hk & Hlen & [Hi Hbi] & [Hj Hbj]).
  exists i, j. repeat (split; [first [assumption | lia]|]).
  intros t' Ht. apply Hchar; [lia|].
  destruct (Nat.eq_dec t' (i - 1)) as [->|H1]; [now left|].
  destruct (Nat.eq_dec t' j) as [->|H2]; [now left|].
  right. split; [exact Hpos|]. exists i, j.
  split; [exact Hrun|]. split; [lia|]. split; [exact Hlen|]. auto.
Qed.

(** A maximal run of kept columns of the final mask starts and ends at a
    column the base mask keeps. *)
Lemma block_ends_base (s e : nat) :
  s < e <= length b ->
  (forall k, s <= k < e -> nth k a false = true) ->
  (s = 0 \/ nth (s - 1) a false = false) ->
  (e = length b \/ nth e a false = false) ->
  nth s b false = true /\ nth (e - 1) b false = true.
Proof.
  intros Hse Hall Hleft Hright. split.
  - destruct (nth s b false) eqn:Eb; [reflexivity|]. exfalso.
    destruct (proj1 (Hchar s ltac:(lia)) (Hall s ltac:(lia))) as [H|[Hpos Hp]];
      [congruence|].
    destruct (promoted_run_kept s s Hpos Hp) as (i & j & _ & Hk & Hi & _ & Hkept).
    destruct Hleft as [Hleft|Hleft]; [lia|].
    rewrite (Hkept (s - 1)) in Hleft by lia. discriminate.
  - destruct (nth (e - 1) b false) eqn:Eb; [reflexivity|]. exfalso.
    destruct (proj1 (Hchar (e - 1) ltac:(lia)) (Hall (e - 1) ltac:(lia)))
      as [H|[Hpos Hp]]; [congruence|].
    destruct (promoted_run_kept (e - 1) (e - 1) Hpos Hp)
      as (i & j & _ & Hk & _ & Hj & Hkept).
    destruct Hright as [Hright|Hright]; [lia|].
    rewrite (Hkept e) in Hright by lia. discriminate.
Qed.

(** The base mask restricted to a block of kept columns whose two ends the
    base mask keeps is absorbable. *)
Lemma seg_absorbable (s e : nat) :
  s < e <= length b ->
  (forall k, s <= k < e -> nth k a false = true) ->
  nth s b false = true -> nth (e - 1) b false = true ->
  absorbable max_run (map (fun k => nth k b false) (range s e)).
Proof.
  intros Hse Hall Hs He.
  assert (Hlen : length (map (fun k => nth k b false) (range s e)) = e - s)
    by (unfold range; now rewrite length_map, length_seq).
  assert (Hnth : forall t, t < e - s ->
            nth t (map (fun k => nth k b false) (range s e)) false
            = nth (s + t) b false).
  { intros t Ht.
    rewrite (nth_map_in _ _ (fun k => nth k b false) (range s e) t 0 false)
      by (unfold range; rewrite length_seq; lia).
    unfold range. now rewrite seq_nth by lia. }
  split; [split; [|split]|].
  - intros E. rewrite E in Hlen. simpl in Hlen. lia.
  - rewrite Hnth by lia. now rewrite Nat.add_0_r.
  - rewrite Hlen, Hnth by lia. now replace (s + (e - s - 1)) with (e - 1) by lia.
  - intros i j Hij Hfalse. rewrite Hlen in Hij.
    assert (Hb : forall k, s + i <= k < s + j -> nth k b false = false).
    { intros k Hk. replace k with (s + (k - s)) by lia.
      rewrite <- Hnth by lia. apply Hfalse. lia. }
    destruct (proj1 (Hchar (s + i) ltac:(lia)) (Hall (s + i) ltac:(lia)))
      as [H|[Hpos (i' & j' & Hrun & Hk & Hl & _)]].
    + rewrite (Hb (s + i)) in H by lia. discriminate.
    + pose proof (run_inside_maximal b (s + i) (s + j) i' j' Hrun
                    ltac:(lia) Hb ltac:(lia)).
      lia.
Qed.

End FinalMask.

Lemma base_mask_nth (mets : list metrics) (mg mc : Q) (k : nat) :
  k < length mets ->
  nth k (base_mask mets mg mc) false = passes mg mc (nth k mets no_metrics).
Proof.
  intros Hk. unfold base_mask.
  exact (nth_map_in _ _ (passes mg mc) mets k no_metrics false Hk).
Qed.

Lemma passes_weaken (mg t t' : Q) (m : metrics) :
  (t' <= t)%Q -> passes mg t m = true -> passes mg t' m = true.
Proof.
  intros Ht H. unfold passes in *. apply andb_true_iff in H.
  destruct H as [H1 H2]. apply andb_true_iff. split; [exact H1|].
  apply Qle_bool_iff. apply Qle_bool_iff in H2. now apply Qle_trans with t.
Qed.

Lemma ends_in_concat (A : Type) (d : A) (F : A -> Prop) (ls : list (list A)) :
  ls <> [] -> Forall (ends_in d F) ls -> ends_in d F (concat ls).
Proof.
  intros Hne H. induction H as [|l ls Hl Hls IH]; [congruence|].
  simpl. destruct ls as [|r ls'].
  - simpl. now rewrite app_nil_r.
  - apply ends_in_app; [exact Hl | apply IH; discriminate].
Qed.

Lemma map_flat_map (A B C : Type) (f : B -> C) (g : A -> list B) (l : list A) :
  map f (flat_map g l) = concat (map (fun x => map f (g x)) l).
Proof.
  induction l as [|x l IH]; [reflexivity|].
  simpl. now rewrite map_app, IH.
Qed.

(** What the first run leaves: every surviving block is made of columns
    kept by the final mask, starts and ends at a column that the base mask
    keeps and that passes the flank test, and is long enough. *)
Lemma surviving_blocks_good (mets : list metrics) (min_len : Z) (mg mc : Q)
  (flank : option Q) (max_run : Z) (blocks : list (nat * nat)) :
  surviving_blocks mets min_len mg mc flank max_run = Ok blocks ->
  exists a,
    length a = length (base_mask mets mg mc)
    /\ (forall k, k < length (base_mask mets mg mc) ->
          (nth k a false = true <->
           nth k (base_mask mets mg mc) false = true
           \/ ((0 < max_run)%Z /\ promoted (base_mask mets mg mc) max_run k)))
    /\ forall s e, In (s, e) blocks ->
         s < e <= length mets
         /\ (forall k, s <= k < e -> nth k a false = true)
         /\ nth s (base_mask mets mg mc) false = true
         /\ nth (e - 1) (base_mask mets mg mc) false = true
         /\ (min_len <= Z.of_nat e - Z.of_nat s)%Z
         /\ (forall fc, flank = Some fc ->
               flank_ok mets fc mg s = true
               /\ flank_ok mets fc mg (e - 1) = true).
Proof.
  intros E.
  destruct (surviving_blocks_spec mets min_len mg mc flank max_run)
    as (a & blocks' & Ea & HLa & E' & Hb).
  rewrite E in E'. injection E' as <-.
  destruct (mask_stage_spec (base_mask mets mg mc) max_run)
    as (a' & Ea' & HL & Hchar).
  rewrite Ea in Ea'. injection Ea' as <-.
  exists a. split; [exact HL|]. split; [exact Hchar|].
  intros s e Hin.
  destruct (Hb (s, e) Hin) as ([s0 e0] & H0 & H1 & H2 & H3 & H4 & H5).
  simpl in H1, H2, H3, H4.
  destruct (find_blocks_sound a min_len s0 e0 H0) as (F1 & F2 & F3 & F4 & _).
  rewrite HL in F1, F4.
  destruct (block_ends_base (base_mask mets mg mc) a max_run HL Hchar s0 e0
              F1 F2 F3 F4) as [B1 B2].
  rewrite length_base_mask in F1.
  assert (Hkept : forall k, s <= k < e -> nth k a false = true)
    by (intros k Hk; apply F2; lia).
  destruct flank as [fc|].
  - destruct H5 as (G1 & G2 & G3). simpl in G1, G2, G3.
    destruct (Qle_bool mc fc) eqn:Ecmp.
    + apply Qle_bool_iff in Ecmp.
      split; [lia|]. split; [exact Hkept|].
      unfold flank_ok in G1, G2.
      rewrite !base_mask_nth by lia.
      split; [now apply (passes_weaken mg fc mc)|].
      split; [now apply (passes_weaken mg fc mc)|].
      split; [exact H4|]. intros fc' Hfc. injection Hfc as <-. auto.
    + assert (Hlt : (fc <= mc)%Q).
      { apply Qlt_le_weak, Qnot_le_lt. intros Hle.
        apply Qle_bool_iff in Hle. congruence. }
      rewrite !base_mask_nth in B1, B2 by lia.
      assert (Heq : (s, e) = (s0, e0)).
      { apply G3; unfold flank_ok; now apply (passes_weaken mg mc fc). }
      injection Heq as -> ->.
      split; [lia|]. split; [exact Hkept|].
      rewrite !base_mask_nth by lia.
      split; [exact B1|]. split; [exact B2|]. split; [exact H4|].
      intros fc' Hfc. injection Hfc as <-. auto.
  - injection H5 as -> ->.
    split; [lia|]. split; [exact Hkept|]. split; [exact B1|]. split; [exact B2|].
    split; [exact H4|]. intros fc Hfc. discriminate.
Qed.

Lemma range_ends (F : nat -> Prop) (s e : nat) :
  s < e -> F s -> F (e - 1) -> ends_in 0 F (range s e).
Proof.
  intros Hse Hs He. unfold range. split; [|split].
  - intros E. apply (f_equal (@length nat)) in E. rewrite length_seq in E.
    simpl in E. lia.
  - rewrite seq_nth by lia. now rewrite Nat.add_0_r.
  - rewrite length_seq, seq_nth by lia. now replace (s + (e - s - 1)) with (e - 1) by lia.
Qed.

(** On the columns the first run keeps, the second run finds one block:
    all of them. *)
Lemma second_run_blocks (mets : list metrics) (min_len : Z) (mg mc : Q)
  (flank : option Q) (max_run : Z) (blocks : list (nat * nat)) :
  surviving_blocks mets min_len mg mc flank max_run = Ok blocks ->
  blocks <> [] ->
  surviving_blocks
    (map (fun k => nth k mets no_metrics)
         (flat_map (fun b => range (fst b) (snd b)) blocks))
    min_len mg mc flank max_run
  = Ok [(0, length (flat_map (fun b => range (fst b) (snd b)) blocks))].
Proof.
  intros E Hne.
  destruct (surviving_blocks_good mets min_len mg mc flank max_run blocks E)
    as (a & HL & Hchar & Hgood).
  set (keep := flat_map (fun b => range (fst b) (snd b)) blocks).
  set (mets2 := map (fun k => nth k mets no_metrics) keep).
  assert (Hkeep : forall k, In k keep -> k < length mets).
  { intros k Hk. apply in_flat_map in Hk. destruct Hk as ([s e] & Hin & Hk).
    unfold range in Hk. apply in_seq in Hk. simpl in Hk.
    destruct (Hgood s e Hin) as (H1 & _). lia. }
  assert (Hlen2 : length mets2 = length keep) by apply length_map.
  assert (Hnth2 : forall i, i < length keep ->
            nth i mets2 no_metrics = nth (nth i keep 0) mets no_metrics).
  { intros i Hi.
    exact (nth_map_in _ _ (fun k => nth k mets no_metrics) keep i 0 no_metrics Hi). }
  (* the base mask of the second run is made of the blocks of the first *)
  assert (Eb2 : base_mask mets2 mg mc
                = concat (map (fun blk => map (fun k => nth k (base_mask mets mg mc) false)
                                              (range (fst blk) (snd blk)))
                              blocks)).
  { rewrite <- map_flat_map. fold keep. unfold base_mask at 1, mets2.
    rewrite map_map. apply map_ext_in. intros k Hk.
    symmetry. apply base_mask_nth. now apply Hkeep. }
  assert (Habs : absorbable max_run (base_mask mets2 mg mc)).
  { rewrite Eb2. apply absorbable_concat.
    - destruct blocks; [congruence | discriminate].
    - apply Forall_forall. intros seg Hseg. apply in_map_iff in Hseg.
      destruct Hseg as ([s e] & <- & Hin). simpl.
      destruct (Hgood s e Hin) as (H1 & H2 & H3 & H4 & _).
      apply (seg_absorbable (base_mask mets mg mc) a max_run HL Hchar s e);
        try assumption.
      rewrite length_base_mask. exact H1. }
  destruct (absorbable_all_kept max_run (base_mask mets2 mg mc) Habs)
    as (a2 & Ea2 & HL2 & Hall2).
  rewrite length_base_mask, Hlen2 in HL2.
  (* the columns kept are at least one block long *)
  assert (Hlong : 1 <= length keep /\ (min_len <= Z.of_nat (length keep))%Z).
  { destruct blocks as [|[s1 e1] rest]; [congruence|].
    destruct (Hgood s1 e1 (or_introl eq_refl)) as (H1 & _ & _ & _ & H5 & _).
    assert (Hk : e1 - s1 <= length keep).
    { unfold keep. simpl. rewrite length_app. unfold range at 1.
      rewrite length_seq. lia. }
    lia. }
  destruct Hlong as [Hl1 Hl2].
  assert (Efb : find_blocks a2 min_len = [(0, length keep)]).
  { rewrite <- HL2. apply find_blocks_all_true; [exact Hall2 | lia | lia]. }
  unfold surviving_blocks. rewrite Ea2. cbn [bind]. rewrite Efb.
  destruct flank as [fc|]; [|reflexivity].
  (* both ends of the kept columns pass the flank test *)
  assert (Hends : ends_in 0 (fun k => flank_ok mets fc mg k = true) keep).
  { unfold keep. rewrite flat_map_concat_map. apply ends_in_concat.
    - destruct blocks; [congruence | discriminate].
    - apply Forall_forall. intros r Hr. apply in_map_iff in Hr.
      destruct Hr as ([s e] & <- & Hin). simpl.
      destruct (Hgood s e Hin) as (H1 & _ & _ & _ & _ & H6).
      destruct (H6 fc eq_refl) as [G1 G2].
      apply range_ends; [lia | exact G1 | exact G2]. }
  destruct Hends as (_ & He0 & He1).
  cbn [foldM].
  destruct (soft_trim_block_spec mets2 fc mg 0 (length keep) ltac:(lia))
    as (r & -> & _ & Hid).
  rewrite Hid.
  - cbn [bind]. replace (Z.of_nat (length keep) - Z.of_nat 0)%Z
      with (Z.of_nat (length keep)) by lia.
    assert (El : (min_len <=? Z.of_nat (length keep))%Z = true)
      by (now apply Z.leb_le).
    now rewrite El.
  - unfold flank_ok. rewrite Hnth2 by lia. exact He0.
  - unfold flank_ok. rewrite Hnth2 by lia. exact He1.
Qed.

(** C2 (amended). For every equal-length alignment and every threshold
    setting, with all-gap columns not dropped ([drop_all_gap_columns]
    false in both runs), [gblock_filter] applied to its own output returns
    that output unchanged. *)
Theorem gblock_filter_idempotent (entries : list entry) (min_block_len : Z)
  (max_gap min_cons : Q) (flank_cons : option Q) (max_noncons_run : Z)
  (Heq : all_equal_length entries = true) :
  exists out,
    gblock_filter entries min_block_len max_gap min_cons flank_cons false
                  max_noncons_run = Ok out
    /\ gblock_filter out min_block_len max_gap min_cons flank_cons false
                     max_noncons_run = Ok out.
Proof.
  destruct (gblock_filter_char entries min_block_len max_gap min_cons flank_cons
              false max_noncons_run Heq)
    as (L & blocks & Hne & HL & Eb & Hrange & E1).
  exists (assemble entries blocks false). split; [exact E1|].
  pose proof (assemble_equal_length entries blocks false Hne) as Heq2.
  destruct (gblock_filter_char (assemble entries blocks false) min_block_len
              max_gap min_cons flank_cons false max_noncons_run Heq2)
    as (L2 & blocks2 & Hne2 & HL2 & Eb2 & Hrange2 & E2).
  rewrite E2. f_equal.
  destruct blocks as [|b1 rest] eqn:Eblocks.
  - (* nothing survived: the output has no column *)
    simpl in *.
    assert (HL0 : L2 = 0).
    { destruct entries as [|e0 es]; [congruence|]. simpl in HL2.
      inversion HL2 as [|? ? H0 _]. simpl in H0. lia. }
    subst L2.
    assert (blocks2 = []).
    { destruct blocks2 as [|b2 r2]; [reflexivity|].
      specialize (Hrange2 b2 (or_introl eq_refl)). lia. }
    subst blocks2. simpl. rewrite map_map. reflexivity.
  - rewrite <- Eblocks in *.
    assert (Hbne : blocks <> []) by (rewrite Eblocks; discriminate).
    set (keep := flat_map (fun b => range (fst b) (snd b)) blocks).
    assert (Eout : assemble entries blocks false
                   = map (fun e => (fst e, select keep (snd e))) entries).
    { unfold assemble, keep. rewrite Eblocks. reflexivity. }
    assert (Esnd : map snd (assemble entries blocks false)
                   = map (select keep) (map snd entries)).
    { rewrite Eout, !map_map. reflexivity. }
    assert (HL2' : L2 = length keep).
    { rewrite Eout in HL2. destruct entries as [|e0 es]; [congruence|].
      simpl in HL2. inversion HL2 as [|? ? H0 _]. simpl in H0.
      unfold select in H0. rewrite length_map in H0. lia. }
    assert (Hkeep : forall k, In k keep -> k < L).
    { intros k Hk. apply in_flat_map in Hk. destruct Hk as (b & Hb & Hk).
      unfold range in Hk. apply in_seq in Hk. specialize (Hrange b Hb). lia. }
    rewrite Esnd, HL2' in Eb2.
    rewrite (length_map (select keep)) in Eb2.
    rewrite (mets_select (length (map snd entries)) L keep (map snd entries) Hkeep)
      in Eb2.
    pose proof (second_run_blocks _ min_block_len max_gap min_cons flank_cons
                  max_noncons_run blocks Eb Hbne) as Eb2'.
    fold keep in Eb2'. rewrite Eb2' in Eb2. injection Eb2 as <-.
    unfold assemble at 1. unfold kept_columns. simpl flat_map.
    rewrite app_nil_r. rewrite <- HL2'.
    transitivity (map (fun e : entry => e) (assemble entries blocks false));
      [|apply map_id].
    apply map_ext_in. intros e He.
    rewrite Forall_forall in HL2. rewrite <- (HL2 e He).
    rewrite select_all. now destruct e.
Qed.

Lemma gblock_filter_idempotent_witness :
  let entries := [(lit "s1", lit "AMSTAGKLV"); (lit "s2", lit "CMST-GKIV");
                  (lit "s3", lit "DMSTTGKLV")] in
  all_equal_length entries = true
  /\ exists out,
       gblock_filter entries 3 (1 # 2) (7 # 10) (Some (9 # 10)%Q) false 1 = Ok out
       /\ gblock_filter out 3 (1 # 2) (7 # 10) (Some (9 # 10)%Q) false 1 = Ok out.
Proof.
  intros entries. split; [reflexivity|].
  exact (gblock_filter_idempotent entries 3 (1 # 2) (7 # 10) (Some (9 # 10)%Q) 1
           eq_refl).
Defined.

(** C2 as first stated fails when all-gap columns are dropped in both
    runs: on two rows "A-A" with minBlockLen 3 and one absorbed column, the
    first run keeps the block [0, 3) and drops its all-gap column, giving
    "AA"; the second run finds a kept run of length 2, below minBlockLen,
    and returns empty rows. *)
Lemma gblock_filter_drop_counterexample :
  let entries := [(lit "s1", lit "A-A"); (lit "s2", lit "A-A")] in
  let out := [(lit "s1", lit "AA"); (lit "s2", lit "AA")] in
  all_equal_length entries = true
  /\ gblock_filter entries 3 (1 # 2) (7 # 10) None true 1 = Ok out
  /\ gblock_filter out 3 (1 # 2) (7 # 10) None true 1
     = Ok [(lit "s1", []); (lit "s2", [])]
  /\ gblock_filter out 3 (1 # 2) (7 # 10) None true 1 <> Ok out.
Proof.
  intros entries out. split; [reflexivity|]. split; [vm_compute; reflexivity|].
  split; [vm_compute; reflexivity|]. vm_compute. discriminate.
Qed.

(* ===================================================================== *)
(** * The parameter translator                                             *)
(* ===================================================================== *)

(** The nested [max(1, min(x, N))] of the code is the clamp of the
    specification as soon as the bounds are in order. *)
Lemma max_min_clamp (x N : Z) :
  (1 <= N)%Z -> Z.max 1 (Z.min x N) = clamp x 1 N.
Proof.
  intros HN. unfold clamp.
  destruct (x <? 1)%Z eqn:E1; [apply Z.ltb_lt in E1; lia|].
  apply Z.ltb_ge in E1.
  destruct (N <? x)%Z eqn:E2; [apply Z.ltb_lt in E2 | apply Z.ltb_ge in E2]; lia.
Qed.

Lemma Qmake_to_pos (a N : Z) :
  (1 <= N)%Z -> (Qmake a (Z.to_pos N) == inject_Z a / inject_Z N)%Q.
Proof. intros HN. rewrite Qmake_Qdiv, Z2Pos.id by lia. reflexivity. Qed.

Lemma clamp01_id (v : Q) : (0 <= v <= 1)%Q -> (Qmax 0 (Qmin 1 v) == v)%Q.
Proof.
  intros [H0 H1]. rewrite (Q.min_r 1 v H1). now apply Q.max_r.
Qed.

Lemma clamp01_bounds (v : Q) : (0 <= Qmax 0 (Qmin 1 v) <= 1)%Q.
Proof.
  split; [apply Q.le_max_l|].
  apply Q.max_lub; [discriminate | apply Q.le_min_l].
Qed.

(** C7 (amended). With the sequence count first raised to at least 1
    ([N' = max(1, N)]), the translator returns
    minCons = clamp(minConsCount, 1, N') / N',
    flankCons = clamp(flankConsCount, 1, N') / N',
    minBlockLen = max(1, given) and maxNonconsRun = max(0, given);
    maxGap is 0, 1/2, 1 for the modes none, half, all in any letter case;
    for another mode that [float] parses the value is clamped into [0, 1]
    (so a fraction of [0, 1] is taken as it is), and a mode [float] rejects
    gives 1/2. In particular "Half" gives 0.5, and N = 10 with
    gb_min_cons_count = 9 gives minCons = 0.9. *)
Theorem translator_spec (py_float : str -> option Q)
  (N gb_min_cons_count gb_flank_cons_count gb_max_noncons_run
     gb_min_block_len : Z) (gb_allowed_gap : str) :
  let N' := Z.max 1 N in
  let '(min_block_len, max_gap, min_cons, flank_cons, max_noncons_run) :=
    convert_gblocks_params_to_internal py_float N gb_min_cons_count
      gb_flank_cons_count gb_max_noncons_run gb_min_block_len gb_allowed_gap in
  (min_cons == inject_Z (clamp gb_min_cons_count 1 N') / inject_Z N')%Q
  /\ (flank_cons == inject_Z (clamp gb_flank_cons_count 1 N') / inject_Z N')%Q
  /\ min_block_len = Z.max 1 gb_min_block_len
  /\ max_noncons_run = Z.max 0 gb_max_noncons_run
  /\ max_gap = gb_allowed_gap_to_max_gap py_float gb_allowed_gap
  /\ (lower gb_allowed_gap = lit "none" -> max_gap = 0%Q)
  /\ (lower gb_allowed_gap = lit "half" -> max_gap = (1 # 2)%Q)
  /\ (lower gb_allowed_gap = lit "all" -> max_gap = 1%Q)
  /\ (lower gb_allowed_gap <> lit "none" -> lower gb_allowed_gap <> lit "half" ->
      lower gb_allowed_gap <> lit "all" ->
      match py_float (lower gb_allowed_gap) with
      | Some v => max_gap = Qmax 0 (Qmin 1 v)
                  /\ (0 <= max_gap <= 1)%Q
                  /\ ((0 <= v <= 1)%Q -> (max_gap == v)%Q)
      | None => max_gap = (1 # 2)%Q
      end)
  /\ gb_allowed_gap_to_max_gap py_float (lit "Half") = (1 # 2)%Q
  /\ (snd (fst (fst (convert_gblocks_params_to_internal py_float 10 9
                       gb_flank_cons_count gb_max_noncons_run gb_min_block_len
                       gb_allowed_gap))) == 9 # 10)%Q.
Proof.
  intros N'. unfold convert_gblocks_params_to_internal. fold N'.
  assert (HN : (1 <= N')%Z) by (unfold N'; lia).
  split; [rewrite Qmake_to_pos, max_min_clamp by assumption; reflexivity|].
  split; [rewrite Qmake_to_pos, max_min_clamp by assumption; reflexivity|].
  split; [reflexivity|]. split; [reflexivity|]. split; [reflexivity|].
  unfold gb_allowed_gap_to_max_gap.
  split; [intros ->; reflexivity|].
  split; [intros ->; reflexivity|].
  split; [intros ->; reflexivity|].
  split; [|split; reflexivity].
  intros H1 H2 H3.
  assert (Hneq : forall x y, x <> y -> str_eqb x y = false).
  { induction x as [|c x IH]; intros [|d y] Hxy; simpl; try reflexivity;
      [congruence|].
    destruct (Ascii.eqb c d) eqn:E; [|reflexivity]. simpl.
    apply Ascii.eqb_eq in E. subst d. apply IH. congruence. }
  rewrite (Hneq _ _ H1), (Hneq _ _ H2), (Hneq _ _ H3).
  destruct (py_float (lower gb_allowed_gap)) as [v|]; [|reflexivity].
  split; [reflexivity|]. split; [apply clamp01_bounds | apply clamp01_id].
Qed.

Lemma translator_spec_witness :
  gb_allowed_gap_to_max_gap decimal_float (lit "0.25") = Qmax 0 (Qmin 1 (25 # 100))
  /\ (gb_allowed_gap_to_max_gap decimal_float (lit "0.25") == 1 # 4)%Q.
Proof.
  pose proof (translator_spec decimal_float 10 9 14 8 10 (lit "0.25")) as H.
  cbv zeta in H.
  destruct (convert_gblocks_params_to_internal decimal_float 10 9 14 8 10
              (lit "0.25")) as [[[[mb mg] mc] fc] mr] eqn:E.
  destruct H as (_ & _ & _ & _ & Hmg & _ & _ & _ & Hlit & _).
  assert (Hm : mg = gb_allowed_gap_to_max_gap decimal_float (lit "0.25")) by exact Hmg.
  rewrite <- Hm.
  assert (H1 : lower (lit "0.25") <> lit "none") by discriminate.
  assert (H2 : lower (lit "0.25") <> lit "half") by discriminate.
  assert (H3 : lower (lit "0.25") <> lit "all") by discriminate.
  specialize (Hlit H1 H2 H3).
  vm_compute (decimal_float (lower (lit "0.25"))) in Hlit.
  destruct Hlit as (Ha & _ & Hb).
  split; [exact Ha|]. rewrite Hb; [reflexivity|].
  split; discriminate.
Defined.

(** C7 as first stated fails on a numeric literal outside [0, 1]: [float]
    parses "2" as 2, and the translator returns 1. *)
Lemma translator_literal_counterexample :
  decimal_float (lower (lit "2")) = Some (2 # 1)%Q
  /\ (gb_allowed_gap_to_max_gap decimal_float (lit "2") == 1)%Q
  /\ ~ (gb_allowed_gap_to_max_gap decimal_float (lit "2") == 2 # 1)%Q.
Proof.
  split; [reflexivity|]. split; [reflexivity|]. discriminate.
Qed.

(* ===================================================================== *)
(** * The FASTA codec                                                      *)
(* ===================================================================== *)

Lemma lstrip_first_ok (s : str) : first_ok s -> lstrip s = s.
Proof. destruct s as [|c s]; simpl; [reflexivity|]. now intros ->. Qed.

Lemma first_ok_lstrip (s : str) : first_ok (lstrip s).
Proof.
  induction s as [|c s IH]; simpl; [exact I|].
  destruct (is_space c) eqn:E; [exact IH | exact E].
Qed.

Lemma lstrip_app (s v : str) :
  lstrip (s ++ v) = match lstrip s with [] => lstrip v | _ => lstrip s ++ v end.
Proof.
  induction s as [|c s IH]; simpl; [now destruct (lstrip v)|].
  destruct (is_space c); [exact IH | reflexivity].
Qed.

Lemma in_lstrip (s : str) (c : ascii) : In c (lstrip s) -> In c s.
Proof.
  induction s as [|d s IH]; simpl; [tauto|].
  destruct (is_space d); simpl; tauto.
Qed.

Lemma in_strip (s : str) (c : ascii) : In c (strip s) -> In c s.
Proof.
  unfold strip, rstrip. intros H.
  apply in_rev, in_lstrip in H. apply in_rev in H. now apply in_lstrip.
Qed.

Lemma trimmed_strip_id (s : str) : trimmed s -> strip s = s.
Proof.
  intros [H1 H2]. unfold strip, rstrip.
  rewrite (lstrip_first_ok s H1), (lstrip_first_ok (rev s) H2).
  apply rev_involutive.
Qed.

Lemma strip_trimmed (s : str) : trimmed (strip s).
Proof.
  unfold trimmed, strip, rstrip. split.
  - pose proof (first_ok_lstrip s) as H. destruct (lstrip s) as [|c t]; [exact I|].
    simpl in H. simpl rev. rewrite lstrip_app.
    destruct (lstrip (rev t)) as [|d u] eqn:E.
    + simpl. rewrite H. simpl. exact H.
    + rewrite rev_app_distr. simpl. exact H.
  - rewrite rev_involutive. apply first_ok_lstrip.
Qed.

Lemma strip_snoc_space (s : str) (c : ascii) :
  is_space c = true -> strip (s ++ [c]) = strip s.
Proof.
  intros Hc. unfold strip, rstrip. rewrite lstrip_app.
  destruct (lstrip s) as [|d t] eqn:E.
  - simpl. now rewrite Hc.
  - rewrite rev_app_distr. simpl rev at 1. simpl app. simpl lstrip at 1.
    now rewrite Hc.
Qed.

Lemma trimmed_app (l r : str) :
  trimmed l -> trimmed r -> l <> [] -> r <> [] -> trimmed (l ++ r).
Proof.
  intros [L1 L2] [R1 R2] Hl Hr. split.
  - destruct l; [congruence | exact L1].
  - rewrite rev_app_distr. destruct (rev r) as [|c t] eqn:E; [|exact R2].
    exfalso. apply Hr. apply (f_equal (@rev ascii)) in E.
    now rewrite rev_involutive in E.
Qed.

Lemma nl_free_app (l r : str) : nl_free l -> nl_free r -> nl_free (l ++ r).
Proof. intros Hl Hr c Hc. apply in_app_or in Hc. destruct Hc; auto. Qed.

Lemma body_ok_nonempty (l : str) : body_ok l -> l <> [].
Proof. intros (_ & _ & H). destruct l; [destruct H | discriminate]. Qed.

(** Joined residue lines are good residues. *)
Lemma concat_body_ok (buf : list str) :
  Forall body_ok buf -> seq_ok (concat buf).
Proof.
  induction 1 as [|l buf Hl Hbuf IH]; simpl; [now left|]. right.
  destruct IH as [E|IH].
  - rewrite E, app_nil_r. exact Hl.
  - pose proof (body_ok_nonempty l Hl) as Hne.
    destruct Hl as (T1 & N1 & F1). destruct IH as (T2 & N2 & F2).
    split; [|split].
    + apply trimmed_app; try assumption.
      destruct (concat buf); [destruct F2 | discriminate].
    + now apply nl_free_app.
    + destruct l; [congruence | exact F1].
Qed.

Lemma strip_body_line (l : str) :
  body_ok l -> exists c s1, strip (l ++ [LF]) = c :: s1 /\ c :: s1 = l /\ c <> gtc.
Proof.
  intros (T & _ & F). rewrite strip_snoc_space by reflexivity.
  rewrite (trimmed_strip_id l T). destruct l as [|c s1]; [destruct F|].
  exists c, s1. auto.
Qed.

(** The parser on a header line, on a residue line and on a blank line. *)
Lemma parse_step_header (xs : list entry) (h0 : option str) (buf : list str)
  (h : str) :
  label_ok h ->
  parse_step (xs, h0, buf) (gtc :: h ++ [LF]) = (flush xs h0 buf, Some h, []).
Proof.
  intros (Hne & T & _). unfold parse_step.
  change (gtc :: h ++ [LF]) with ((gtc :: h) ++ [LF]).
  rewrite strip_snoc_space by reflexivity.
  assert (T' : trimmed (gtc :: h)).
  { destruct T as [T1 T2]. split; [reflexivity|]. simpl.
    destruct (rev h) as [|c t] eqn:E; [|exact T2].
    exfalso. apply Hne. apply (f_equal (@rev ascii)) in E.
    now rewrite rev_involutive in E. }
  rewrite (trimmed_strip_id _ T'). rewrite Ascii.eqb_refl.
  rewrite (trimmed_strip_id h T). destruct h; [congruence | reflexivity].
Qed.

Lemma parse_step_body (xs : list entry) (h0 : option str) (buf : list str)
  (l : str) :
  body_ok l -> parse_step (xs, h0, buf) (l ++ [LF]) = (xs, h0, buf ++ [l]).
Proof.
  intros Hl. destruct (strip_body_line l Hl) as (c & s1 & E & <- & Hc).
  unfold parse_step. rewrite E.
  apply Ascii.eqb_neq in Hc. now rewrite Hc.
Qed.

Lemma parse_step_blank (st : list entry * option str * list str) :
  parse_step st [LF] = st.
Proof. destruct st as [[xs h] buf]. reflexivity. Qed.

Lemma parse_body_lines (bs : list str) (rest : list str) (xs : list entry)
  (h0 : option str) (buf : list str) :
  Forall body_ok bs ->
  fold_left parse_step (map (fun l => l ++ [LF]) bs ++ rest) (xs, h0, buf)
  = fold_left parse_step rest (xs, h0, buf ++ bs).
Proof.
  intros H. revert buf. induction H as [|l bs Hl Hbs IH]; intros buf.
  - simpl. now rewrite app_nil_r.
  - cbn [map app fold_left].
    rewrite (parse_step_body xs h0 buf l Hl), IH, <- app_assoc. reflexivity.
Qed.

Lemma firstn_add (A : Type) (a b : nat) (l : list A) :
  firstn (a + b) l = firstn a l ++ firstn b (skipn a l).
Proof.
  revert l. induction a as [|a IH]; intros l; simpl; [reflexivity|].
  destruct l as [|x l]; simpl; [now destruct b|]. now rewrite IH.
Qed.

Lemma range_step_bound (len w i : nat) :
  1 <= w -> In i (range_step len w) -> i < len.
Proof.
  intros Hw Hi. unfold range_step in Hi. apply in_map_iff in Hi.
  destruct Hi as (k & <- & Hk). apply in_seq in Hk.
  pose proof (Nat.Div0.mul_div_le (len + w - 1) w) as Hq. nia.
Qed.

(** The chunks of a wrapped sequence spell the sequence. *)
Lemma concat_chunks (s : str) (w : nat) :
  1 <= w ->
  concat (map (fun i => firstn w (skipn i s)) (range_step (length s) w)) = s.
Proof.
  intros Hw. unfold range_step. rewrite map_map.
  set (q := (length s + w - 1) / w).
  assert (G : forall n, concat (map (fun k => firstn w (skipn (k * w) s)) (seq 0 n))
                        = firstn (n * w) s).
  { induction n as [|n IH]; [reflexivity|].
    rewrite seq_S, map_app, concat_app, IH. simpl.
    rewrite app_nil_r, <- firstn_add. f_equal. lia. }
  rewrite G. apply firstn_all2.
  pose proof (Nat.mul_succ_div_gt (length s + w - 1) w) as Hq. fold q in Hq.
  nia.
Qed.

Lemma all_nonspace_trimmed (l : str) :
  (forall c, In c l -> is_space c = false) -> trimmed l.
Proof.
  intros H. split.
  - destruct l as [|c l]; [exact I | apply H; now left].
  - destruct (rev l) as [|c t] eqn:E; [exact I|]. apply H, in_rev.
    rewrite E. now left.
Qed.

Lemma in_chunk (s : str) (w i : nat) (c : ascii) :
  In c (firstn w (skipn i s)) -> In c s.
Proof.
  intros H.
  rewrite <- (firstn_skipn i s). apply in_or_app. right.
  rewrite <- (firstn_skipn w (skipn i s)). apply in_or_app. now left.
Qed.

Lemma plain_residues_in (s : str) (c : ascii) :
  plain_residues s -> In c s -> is_space c = false /\ c <> gtc.
Proof.
  unfold plain_residues. intros H Hc.
  rewrite forallb_forall in H. specialize (H c Hc).
  apply andb_true_iff in H. destruct H as [H1 H2].
  apply negb_true_iff in H1, H2. split; [exact H1 | now apply Ascii.eqb_neq].
Qed.

Lemma chunk_body_ok (s : str) (w i : nat) :
  plain_residues s -> nl_free s -> 1 <= w -> i < length s ->
  body_ok (firstn w (skipn i s)).
Proof.
  intros Hp Hn Hw Hi. split; [|split].
  - apply all_nonspace_trimmed. intros c Hc.
    apply (plain_residues_in s c Hp). now apply in_chunk in Hc.
  - intros c Hc. apply Hn. now apply in_chunk in Hc.
  - destruct (firstn w (skipn i s)) as [|c t] eqn:E.
    + apply (f_equal (@length ascii)) in E.
      rewrite length_firstn, length_skipn in E. simpl in E. lia.
    + apply (plain_residues_in s c Hp). apply (in_chunk s w i). rewrite E. now left.
Qed.

(** The residue lines of one written entry are parsed back into the
    buffer, and join into the residues. *)
Lemma parse_entry_lines (wrap : Z) (h seq : str) :
  label_ok h -> seq_ok seq -> nl_free seq ->
  ((wrap <= 0)%Z \/ plain_residues seq) ->
  exists bs,
    concat bs = seq
    /\ forall rest xs h0 buf,
         fold_left parse_step
                   (map (fun l => l ++ [LF]) (entry_lines wrap (h, seq)) ++ rest)
                   (xs, h0, buf)
         = fold_left parse_step rest (flush xs h0 buf, Some h, bs).
Proof.
  intros Hh Hs Hn Hw. unfold entry_lines. cbn [fst snd].
  destruct (0 <? wrap)%Z eqn:E.
  - apply Z.ltb_lt in E. destruct Hw as [Hw|Hp]; [lia|].
    assert (Hw1 : 1 <= Z.to_nat wrap) by lia.
    set (w := Z.to_nat wrap) in *.
    exists (map (fun i => firstn w (skipn i seq)) (range_step (length seq) w)).
    split; [now apply concat_chunks|].
    intros rest xs h0 buf. cbn [map app fold_left].
    rewrite (parse_step_header xs h0 buf h Hh).
    rewrite parse_body_lines; [reflexivity|].
    apply Forall_forall. intros l Hl. apply in_map_iff in Hl.
    destruct Hl as (i & <- & Hi). apply chunk_body_ok; try assumption.
    now apply (range_step_bound (length seq) w).
  - destruct Hs as [->|Hb].
    + exists []. split; [reflexivity|]. intros rest xs h0 buf.
      cbn [map app fold_left].
      rewrite (parse_step_header xs h0 buf h Hh). now rewrite parse_step_blank.
    + exists [seq]. split; [simpl; apply app_nil_r|].
      intros rest xs h0 buf. cbn [map app fold_left].
      rewrite (parse_step_header xs h0 buf h Hh).
      now rewrite (parse_step_body _ _ _ seq Hb).
Qed.

Lemma flush_flush (xs : list entry) (h0 : option str) (buf : list str)
  (h : str) (bs : list str) :
  flush (flush xs h0 buf) (Some h) bs = flush xs h0 buf ++ [(h, concat bs)].
Proof. reflexivity. Qed.

(** Parsing the lines written for a list of good entries appends exactly
    these entries. *)
Lemma parse_written_entries (wrap : Z) (es : list entry) :
  Forall entry_ok es ->
  Forall (fun e => nl_free (snd e)) es ->
  ((wrap <= 0)%Z \/ Forall (fun e => plain_residues (snd e)) es) ->
  forall xs h0 buf,
  exists xs' h' buf',
    fold_left parse_step
              (map (fun l => l ++ [LF]) (flat_map (entry_lines wrap) es))
              (xs, h0, buf)
    = (xs', h', buf')
    /\ flush xs' h' buf' = flush xs h0 buf ++ es.
Proof.
  intros Hok. induction Hok as [|[h seq] es [Hh Hs] Hes IH]; intros Hn Hw xs h0 buf.
  - exists xs, h0, buf. simpl. now rewrite app_nil_r.
  - inversion Hn as [|? ? Hn1 Hn2]; subst. simpl in Hh, Hs, Hn1.
    assert (Hw1 : (wrap <= 0)%Z \/ plain_residues seq).
    { destruct Hw as [Hw|Hw]; [now left|]. right. now inversion Hw. }
    assert (Hw2 : (wrap <= 0)%Z \/ Forall (fun e => plain_residues (snd e)) es).
    { destruct Hw as [Hw|Hw]; [now left|]. right. now inversion Hw. }
    destruct (parse_entry_lines wrap h seq Hh Hs Hn1 Hw1) as (bs & Ebs & Hstep).
    cbn [flat_map]. rewrite map_app, Hstep.
    destruct (IH Hn2 Hw2 (flush xs h0 buf) (Some h) bs) as (xs' & h' & buf' & E & F).
    exists xs', h', buf'. split; [exact E|].
    rewrite F, flush_flush, Ebs, <- app_assoc. reflexivity.
Qed.

Lemma write_fasta_lines (es : list entry) (wrap : Z) :
  write_fasta es wrap
  = concat (map (fun l => l ++ [LF]) (flat_map (entry_lines wrap) es)).
Proof.
  unfold write_fasta. induction es as [|[h seq] es IH]; [reflexivity|].
  cbn [map concat flat_map]. rewrite map_app, concat_app.
  f_equal; [|exact IH].
  unfold write_entry, entry_lines. cbn [fst snd map concat].
  destruct (0 <? wrap)%Z.
  - rewrite map_map, <- app_assoc. reflexivity.
  - simpl. now rewrite app_nil_r, <- app_assoc.
Qed.

Lemma universal_newlines_id (s : str) :
  (forall c, In c s -> c <> CR) -> universal_newlines s = s.
Proof.
  induction s as [|c s IH]; intros H; [reflexivity|]. simpl.
  assert (E : Ascii.eqb c CR = false)
    by (apply Ascii.eqb_neq, H; now left).
  rewrite E. f_equal. apply IH. intros d Hd. apply H. now right.
Qed.

Lemma lines_from_line (l cur rest : str) :
  (forall c, In c l -> c <> LF) ->
  lines_from cur (l ++ LF :: rest) = (cur ++ l ++ [LF]) :: lines_from [] rest.
Proof.
  revert cur. induction l as [|c l IH]; intros cur H; simpl.
  - reflexivity.
  - assert (E : Ascii.eqb c LF = false) by (apply Ascii.eqb_neq, H; now left).
    rewrite E, IH by (intros d Hd; apply H; now right).
    now rewrite <- app_assoc.
Qed.

(** Reading back a text written line by line gives the lines. *)
Lemma file_lines_written (ls : list str) :
  Forall nl_free ls ->
  file_lines (concat (map (fun l => l ++ [LF]) ls))
  = map (fun l => l ++ [LF]) ls.
Proof.
  intros H. unfold file_lines. rewrite universal_newlines_id.
  - induction H as [|l ls Hl Hls IH]; [reflexivity|].
    cbn [map concat]. rewrite <- app_assoc. cbn [app].
    rewrite lines_from_line by (intros c Hc; now apply Hl).
    now rewrite IH.
  - intros c Hc. apply in_concat in Hc. destruct Hc as (x & Hx & Hc).
    apply in_map_iff in Hx. destruct Hx as (l & <- & Hl).
    rewrite Forall_forall in H. apply in_app_or in Hc.
    destruct Hc as [Hc|[<-|[]]]; [now apply (H l Hl) | discriminate].
Qed.

Lemma seq_ok_nl_free (s : str) : seq_ok s -> nl_free s.
Proof. intros [->|(_ & H & _)]; [intros c [] | exact H]. Qed.

Lemma entry_lines_nl_free (wrap : Z) (e : entry) :
  entry_ok e -> Forall nl_free (entry_lines wrap e).
Proof.
  intros [(_ & _ & Hh) Hs]. apply seq_ok_nl_free in Hs.
  unfold entry_lines. constructor.
  - intros c [<-|Hc]; [split; discriminate | now apply Hh].
  - destruct (0 <? wrap)%Z.
    + apply Forall_forall. intros l Hl. apply in_map_iff in Hl.
      destruct Hl as (i & <- & _). intros c Hc. apply Hs.
      now apply in_chunk in Hc.
    + constructor; [exact Hs | constructor].
Qed.

(** Serialising good entries and parsing the text gives the entries back. *)
Lemma parse_write (es : list entry) (wrap : Z) :
  es <> [] -> Forall entry_ok es ->
  ((wrap <= 0)%Z \/ Forall (fun e => plain_residues (snd e)) es) ->
  parse_fasta (write_fasta es wrap) = Ok es.
Proof.
  intros Hne Hok Hw. unfold parse_fasta.
  rewrite write_fasta_lines, file_lines_written.
  - assert (Hn : Forall (fun e => nl_free (snd e)) es).
    { apply Forall_forall. intros e He. rewrite Forall_forall in Hok.
      apply seq_ok_nl_free, (Hok e He). }
    destruct (parse_written_entries wrap es Hok Hn Hw [] None [])
      as (xs' & h' & buf' & -> & F).
    rewrite F. simpl. destruct es; [congruence | reflexivity].
  - apply Forall_forall. intros l Hl. apply in_flat_map in Hl.
    destruct Hl as (e & He & Hl). rewrite Forall_forall in Hok.
    pose proof (entry_lines_nl_free wrap e (Hok e He)) as H.
    rewrite Forall_forall in H. now apply H.
Qed.

Lemma universal_newlines_no_cr (n : nat) (s : str) :
  length s <= n ->
  forall c, In c (universal_newlines s) -> c <> CR /\ (c = LF \/ In c s).
Proof.
  revert s. induction n as [|n IH]; intros s Hs c Hc.
  - destruct s; [destruct Hc | simpl in Hs; lia].
  - destruct s as [|d s]; [destruct Hc|]. simpl in Hs, Hc.
    destruct (Ascii.eqb d CR) eqn:E.
    + destruct Hc as [<-|Hc]; [split; [discriminate | now left]|].
      destruct s as [|d' s']; [destruct Hc|]. simpl in Hs.
      destruct (Ascii.eqb d' LF).
      * destruct (IH s' ltac:(lia) c Hc) as [H1 [H2|H2]];
          (split; [exact H1|]); [now left | right; right; now right].
      * destruct (IH (d' :: s') ltac:(simpl; lia) c Hc) as [H1 [H2|H2]];
          (split; [exact H1|]); [now left | right; now right].
    + apply Ascii.eqb_neq in E. destruct Hc as [<-|Hc].
      * split; [exact E | right; now left].
      * destruct (IH s ltac:(lia) c Hc) as [H1 [H2|H2]];
          (split; [exact H1|]); [now left | right; now right].
Qed.

Lemma lines_from_shape (s cur raw : str) :
  (forall c, In c cur -> c <> LF) ->
  In raw (lines_from cur s) ->
  exists l0, (raw = l0 ++ [LF] \/ raw = l0)
             /\ forall c, In c l0 -> c <> LF /\ In c (cur ++ s).
Proof.
  revert cur. induction s as [|d s IH]; intros cur Hcur Hraw; simpl in Hraw.
  - destruct cur as [|c0 cur']; [destruct Hraw|].
    destruct Hraw as [<-|[]]. exists (c0 :: cur'). split; [now right|].
    intros c Hc. split; [now apply Hcur | now rewrite app_nil_r].
  - destruct (Ascii.eqb d LF) eqn:E.
    + destruct Hraw as [<-|Hraw].
      * exists cur. split; [now left|]. intros c Hc.
        split; [now apply Hcur | apply in_or_app; now left].
      * destruct (IH [] ltac:(intros c []) Hraw) as (l0 & Hl0 & Hc0).
        exists l0. split; [exact Hl0|]. intros c Hc.
        destruct (Hc0 c Hc) as [H1 H2]. split; [exact H1|].
        apply in_or_app. right. now right.
    + apply Ascii.eqb_neq in E.
      assert (Hcur' : forall c, In c (cur ++ [d]) -> c <> LF).
      { intros c Hc. apply in_app_or in Hc.
        destruct Hc as [Hc|[<-|[]]]; [now apply Hcur | exact E]. }
      destruct (IH (cur ++ [d]) Hcur' Hraw) as (l0 & Hl0 & Hc0).
      exists l0. split; [exact Hl0|]. intros c Hc.
      destruct (Hc0 c Hc) as [H1 H2]. split; [exact H1|].
      rewrite <- app_assoc in H2. exact H2.
Qed.

(** Every line the file iterator yields is, once stripped, free of
    end-of-line characters. *)
Lemma file_lines_nl_free (text raw : str) :
  In raw (file_lines text) -> nl_free (strip raw).
Proof.
  unfold file_lines. intros Hraw.
  destruct (lines_from_shape (universal_newlines text) [] raw
              ltac:(intros c []) Hraw) as (l0 & Hl0 & Hc0).
  assert (E : strip raw = strip l0).
  { destruct Hl0 as [->| ->]; [now apply strip_snoc_space | reflexivity]. }
  rewrite E. intros c Hc. apply in_strip in Hc.
  destruct (Hc0 c Hc) as [H1 H2]. split; [exact H1|].
  simpl in H2.
  now destruct (universal_newlines_no_cr (length text) text (le_n _) c H2).
Qed.

Lemma label_ok_unnamed : label_ok (lit "unnamed").
Proof.
  split; [discriminate|]. split; [split; reflexivity|].
  intros c Hc. simpl in Hc.
  repeat (destruct Hc as [<-|Hc]; [split; discriminate|]). destruct Hc.
Qed.

(** The invariant of the parsing loop: entries, pending label and buffered
    lines are well formed. *)
Lemma parse_step_ok (xs : list entry) (h : option str) (buf : list str)
  (raw : str) :
  Forall entry_ok xs -> (forall h0, h = Some h0 -> label_ok h0) ->
  Forall body_ok buf -> nl_free (strip raw) ->
  let '(xs', h', buf') := parse_step (xs, h, buf) raw in
  Forall entry_ok xs' /\ (forall h0, h' = Some h0 -> label_ok h0)
  /\ Forall body_ok buf'.
Proof.
  intros Hxs Hh Hbuf Hraw. unfold parse_step.
  pose proof (strip_trimmed raw) as Ht.
  destruct (strip raw) as [|c s1] eqn:E; [auto|].
  destruct (Ascii.eqb c gtc) eqn:Ec.
  - split; [|split; [|constructor]].
    + unfold flush. destruct h as [h0|]; [|exact Hxs].
      apply Forall_app. split; [exact Hxs|]. constructor; [|constructor].
      split; [now apply Hh | now apply concat_body_ok].
    + intros h0 Eh. injection Eh as <-.
      pose proof (strip_trimmed s1) as Ht1.
      destruct (strip s1) as [|d t] eqn:E1; [apply label_ok_unnamed|].
      split; [discriminate|]. split; [exact Ht1|].
      intros x Hx. apply Hraw. right. apply in_strip. rewrite E1. exact Hx.
  - apply Ascii.eqb_neq in Ec. split; [exact Hxs|]. split; [exact Hh|].
    apply Forall_app. split; [exact Hbuf|]. constructor; [|constructor].
    split; [exact Ht|]. split; [exact Hraw | exact Ec].
Qed.

(** What [parse_fasta] returns is well formed. *)
Lemma parse_fasta_ok (text : str) (xs : list entry) :
  parse_fasta text = Ok xs -> xs <> [] /\ Forall entry_ok xs.
Proof.
  unfold parse_fasta. intros H.
  assert (G : forall ls st,
    (forall raw, In raw ls -> nl_free (strip raw)) ->
    (let '(xs, h, buf) := st in
     Forall entry_ok xs /\ (forall h0, h = Some h0 -> label_ok h0)
     /\ Forall body_ok buf) ->
    let '(xs, h, buf) := fold_left parse_step ls st in
    Forall entry_ok xs /\ (forall h0, h = Some h0 -> label_ok h0)
    /\ Forall body_ok buf).
  { induction ls as [|raw ls IH]; intros st Hls Hst; [exact Hst|].
    simpl. apply IH; [intros r Hr; apply Hls; now right|].
    destruct st as [[xs0 h0] buf0]. destruct Hst as (H1 & H2 & H3).
    apply parse_step_ok; try assumption. apply Hls. now left. }
  specialize (G (file_lines text) ([], None, [])
                (fun raw => file_lines_nl_free text raw)).
  destruct (fold_left parse_step (file_lines text) ([], None, []))
    as [[xs0 h0] buf0].
  destruct G as (G1 & G2 & G3).
  { split; [constructor|]. split; [discriminate | constructor]. }
  assert (Hf : Forall entry_ok (flush xs0 h0 buf0)).
  { unfold flush. destruct h0 as [h1|]; [|exact G1].
    apply Forall_app. split; [exact G1|]. constructor; [|constructor].
    split; [now apply G2 | now apply concat_body_ok]. }
  destruct (flush xs0 h0 buf0) as [|e es]; [discriminate|].
  injection H as <-. split; [discriminate | exact Hf].
Qed.

(** C9 (amended). For every FASTA text that [parse_fasta] accepts,
    serialising the parsed entries and parsing the serialisation again
    gives the same sequence of (label, residues) pairs, when the text is
    written unwrapped (wrap <= 0) or when the parsed residues hold no white
    space and no ['>'] character; under that condition the wrap width only
    changes the line breaks. *)
Theorem fasta_roundtrip (text : str) (xs : list entry) (wrap : Z)
  (Hparse : parse_fasta text = Ok xs)
  (Hwrap : (wrap <= 0)%Z \/ Forall (fun e => plain_residues (snd e)) xs) :
  parse_fasta (write_fasta xs wrap) = Ok xs.
Proof.
  destruct (parse_fasta_ok text xs Hparse) as [Hne Hok].
  now apply parse_write.
Qed.

Lemma fasta_roundtrip_witness :
  let text := lit ">a b" ++ [LF] ++ lit "ACGTAC" ++ [LF] ++ lit " GT "
              ++ [CR; LF] ++ lit ">" ++ [LF] ++ lit ">x" ++ [LF] ++ lit "MK" in
  let xs := [(lit "a b", lit "ACGTACGT"); (lit "unnamed", []);
             (lit "x", lit "MK")] in
  parse_fasta text = Ok xs
  /\ parse_fasta (write_fasta xs 3) = Ok xs
  /\ parse_fasta (write_fasta xs 0) = Ok xs.
Proof.
  intros text xs.
  assert (Hp : parse_fasta text = Ok xs) by reflexivity.
  split; [exact Hp|]. split.
  - apply (fasta_roundtrip text xs 3 Hp). right. repeat constructor.
  - apply (fasta_roundtrip text xs 0 Hp). left. discriminate.
Defined.

(** C9 as first stated fails when a residue line holds white space inside:
    the text ">s / AC GT" parses to the residues "AC GT"; written with wrap
    width 3 the lines are "AC " and "GT", and parsing them gives "ACGT". *)
Lemma fasta_roundtrip_counterexample :
  let text := lit ">s" ++ [LF] ++ lit "AC GT" ++ [LF] in
  parse_fasta text = Ok [(lit "s", lit "AC GT")]
  /\ parse_fasta (write_fasta [(lit "s", lit "AC GT")] 3)
     = Ok [(lit "s", lit "ACGT")]
  /\ parse_fasta (write_fasta [(lit "s", lit "AC GT")] 3)
     <> Ok [(lit "s", lit "AC GT")].
Proof.
  intros text. split; [reflexivity|]. split; [reflexivity | discriminate].
Qed.

(* ===================================================================== *)
(** * Further properties of the block extractor                            *)
(* ===================================================================== *)

Lemma kept_run_start_unique (a : list bool) (s s' e : nat) :
  s < e -> s' < e ->
  (forall k, s <= k < e -> nth k a false = true) ->
  (forall k, s' <= k < e -> nth k a false = true) ->
  (s = 0 \/ nth (s - 1) a false = false) ->
  (s' = 0 \/ nth (s' - 1) a false = false) ->
  s = s'.
Proof.
  intros Hs Hs' Ha Ha' Hm Hm'.
  destruct (Nat.lt_trichotomy s s') as [H|[H|H]]; [|exact H|].
  - destruct Hm' as [->|Hm']; [lia|]. rewrite Ha in Hm' by lia. discriminate.
  - destruct Hm as [->|Hm]; [lia|]. rewrite Ha' in Hm by lia. discriminate.
Qed.

Lemma nth_true_lt (a : list bool) (k : nat) :
  nth k a false = true -> k < length a.
Proof.
  intros H. destruct (Nat.lt_ge_cases k (length a)) as [|Hge]; [assumption|].
  rewrite nth_overflow in H by assumption. discriminate.
Qed.

(** Every maximal run of kept columns that is long enough is found. *)
Lemma find_blocks_complete (a : list bool) (min_len : Z) (s e : nat) :
  kept_run a s e -> (min_len <= Z.of_nat e - Z.of_nat s)%Z ->
  In (s, e) (find_blocks a min_len).
Proof.
  unfold find_blocks.
  pose (good := fun (b : nat * nat) =>
    kept_run a (fst b) (snd b)
    /\ (min_len <= Z.of_nat (snd b) - Z.of_nat (fst b))%Z).
  pose (P := fun (i : nat) (st : list (nat * nat) * option nat) =>
    (forall b, good b -> snd b < i -> In b (fst st))
    /\ match snd st with
       | None => i = 0 \/ nth (i - 1) a false = false
       | Some s0 => s0 < i
                    /\ (forall k, s0 <= k < i -> nth k a false = true)
                    /\ (s0 = 0 \/ nth (s0 - 1) a false = false)
       end).
  assert (H : P (length (a ++ [false]))
                (fold_left (find_blocks_step min_len) (enumerate (a ++ [false]))
                           ([], None))).
  { apply fold_enumerate_inv.
    - split; [intros b _ Hb; lia | now left].
    - intros k x [blocks so] Hx [Hb Hs]. simpl in Hb, Hs.
      assert (Hk : k < length (a ++ [false])) by (apply nth_error_Some; congruence).
      rewrite length_app in Hk. simpl in Hk.
      apply (nth_error_nth _ _ false) in Hx. rewrite nth_app_false in Hx.
      assert (Hold : forall b, good b -> snd b < k + 1 -> snd b <> k -> In b blocks)
        by (intros b Hg Hlt Hne; apply Hb; [exact Hg | lia]).
      unfold find_blocks_step.
      destruct x, so as [s0|]; simpl.
      + split.
        * intros b Hg Hlt. destruct (Nat.eq_dec (snd b) k) as [Ek|Ek];
            [|now apply Hold].
          exfalso. pose proof (nth_true_lt _ _ Hx) as Hlk.
          destruct Hg as [(_ & _ & _ & [Hend|Hend]) _]; [lia|].
          rewrite Ek, Hx in Hend. discriminate.
        * destruct Hs as (H1 & H2 & H3). split; [lia|]. split; [|exact H3].
          intros j Hj. destruct (Nat.eq_dec j k) as [->|]; [exact Hx | apply H2; lia].
      + split.
        * intros b Hg Hlt. destruct (Nat.eq_dec (snd b) k) as [Ek|Ek];
            [|now apply Hold].
          exfalso. pose proof (nth_true_lt _ _ Hx) as Hlk.
          destruct Hg as [(_ & _ & _ & [Hend|Hend]) _]; [lia|].
          rewrite Ek, Hx in Hend. discriminate.
        * split; [lia|]. split.
          -- intros j Hj. replace j with k by lia. exact Hx.
          -- replace (k + 1 - 1) with k in * by lia. destruct Hs; [now left|].
             right. assumption.
      + destruct Hs as (H1 & H2 & H3). split.
        * intros b Hg Hlt. destruct (Nat.eq_dec (snd b) k) as [Ek|Ek].
          -- destruct b as [s1 e1]. simpl in Ek. subst e1.
             destruct Hg as [(G1 & G2 & G3 & G4) G5]. simpl in *.
             assert (s1 = s0)
               by (apply (kept_run_start_unique a s1 s0 k); auto; lia).
             subst s1. apply Z.leb_le in G5. rewrite G5.
             apply in_or_app. right. now left.
          -- destruct (min_len <=? Z.of_nat k - Z.of_nat s0)%Z;
               [apply in_or_app; left|]; now apply Hold.
        * right. now replace (k + 1 - 1) with k by lia.
      + split.
        * intros b Hg Hlt. destruct (Nat.eq_dec (snd b) k) as [Ek|Ek];
            [|now apply Hold].
          exfalso. destruct Hg as [(G1 & G2 & _) _].
          assert (Ht : nth (k - 1) a false = true) by (apply G2; lia).
          destruct Hs as [->|Hs]; [lia|]. rewrite Hs in Ht. discriminate.
        * right. now replace (k + 1 - 1) with k by lia. }
  intros Hrun Hmin. destruct H as [H _]. apply (H (s, e)).
  - split; assumption.
  - rewrite length_app. simpl. destruct Hrun as (H1 & _). simpl. lia.
Qed.

Lemma StronglySorted_snoc (A : Type) (R : A -> A -> Prop) (l : list A) (x : A) :
  StronglySorted R l -> Forall (fun y => R y x) l -> StronglySorted R (l ++ [x]).
Proof.
  induction 1 as [|y l Hs IH Hy]; intros Hall; simpl.
  - constructor; constructor.
  - inversion Hall; subst. constructor; [now apply IH|].
    apply Forall_app. split; [assumption | constructor; [assumption | constructor]].
Qed.

Lemma StronglySorted_app (A : Type) (R : A -> A -> Prop) (l r : list A) :
  StronglySorted R l -> StronglySorted R r ->
  (forall x y, In x l -> In y r -> R x y) -> StronglySorted R (l ++ r).
Proof.
  induction 1 as [|x l Hs IH Hx]; intros Hr Hlr; simpl; [assumption|].
  constructor.
  - apply IH; [assumption|]. intros a b Ha Hb. apply Hlr; [now right | assumption].
  - apply Forall_app. split; [assumption|].
    apply Forall_forall. intros y Hy. apply Hlr; [now left | assumption].
Qed.

(** The blocks come out in increasing order, no two of them adjacent. *)
Lemma find_blocks_sorted (a : list bool) (min_len : Z) :
  StronglySorted separated (find_blocks a min_len).
Proof.
  unfold find_blocks.
  pose (P := fun (i : nat) (st : list (nat * nat) * option nat) =>
    StronglySorted separated (fst st)
    /\ match snd st with
       | None => Forall (fun b => snd b < i) (fst st)
       | Some s0 => s0 < i /\ Forall (fun b => snd b < s0) (fst st)
       end).
  assert (H : P (length (a ++ [false]))
                (fold_left (find_blocks_step min_len) (enumerate (a ++ [false]))
                           ([], None))).
  { apply fold_enumerate_inv.
    - split; constructor.
    - intros k x [blocks so] _ [Hb Hs]. simpl in Hb, Hs.
      unfold find_blocks_step.
      destruct x, so as [s0|]; simpl.
      + split; [exact Hb|]. split; [lia | apply Hs].
      + split; [exact Hb|]. split; [lia | exact Hs].
      + destruct Hs as [H1 H2].
        destruct (min_len <=? Z.of_nat k - Z.of_nat s0)%Z; simpl.
        * split.
          -- apply StronglySorted_snoc; [exact Hb|].
             revert H2. apply Forall_impl. intros b Hlt. exact Hlt.
          -- apply Forall_app. split.
             ++ revert H2. apply Forall_impl. intros b Hlt. lia.
             ++ constructor; [simpl; lia | constructor].
        * split; [exact Hb|]. revert H2. apply Forall_impl. intros b Hlt. lia.
      + split; [exact Hb|]. revert Hs. apply Forall_impl. intros b Hlt. lia. }
  apply H.
Qed.

(** X1. [find_blocks] returns exactly the maximal runs of kept columns of
    the mask whose length is at least [min_len], as half-open intervals, in
    increasing order and with at least one unkept column between two
    consecutive blocks. *)
Theorem find_blocks_char (mask : list bool) (min_len : Z) :
  (forall s e,
     In (s, e) (find_blocks mask min_len) <->
     kept_run mask s e /\ (min_len <= Z.of_nat e - Z.of_nat s)%Z)
  /\ StronglySorted separated (find_blocks mask min_len).
Proof.
  split; [|apply find_blocks_sorted].
  intros s e. split.
  - intros Hin. apply find_blocks_sound in Hin.
    destruct Hin as (H1 & H2 & H3 & H4 & H5).
    split; [|exact H5]. unfold kept_run. auto.
  - intros [Hrun Hmin]. now apply find_blocks_complete.
Qed.

(* --------------------------------------------------------------------- *)
(** ** [soft_trim_block]                                                   *)
(* --------------------------------------------------------------------- *)

Lemma trim_left_first (mets : list metrics) (fc mg : Q) (fuel s e : nat) :
  e <= length mets -> e - s <= fuel ->
  exists s',
    trim_left fuel mets fc mg s e = Ok s'
    /\ (s < e -> s <= s' <= e)
    /\ (e <= s -> s' = s)
    /\ (s' < e -> flank_ok mets fc mg s' = true)
    /\ (forall k, s <= k < s' -> flank_ok mets fc mg k = false).
Proof.
  revert s. induction fuel as [|fuel IH]; intros s He Hf.
  - simpl. assert (E : (s <? e) = false) by (apply Nat.ltb_ge; lia).
    rewrite E. exists s. split; [reflexivity|].
    split; [lia|]. split; [auto|]. split; [lia | intros k Hk; lia].
  - simpl. destruct (s <? e) eqn:E.
    + apply Nat.ltb_lt in E.
      rewrite (@py_get_nth _ mets s no_metrics) by lia. simpl.
      fold (flank_ok mets fc mg s).
      destruct (flank_ok mets fc mg s) eqn:Ef; simpl.
      * exists s. split; [reflexivity|]. split; [lia|]. split; [lia|].
        split; [auto | intros k Hk; lia].
      * destruct (IH (s + 1)) as (s' & Es & H1 & H2 & H3 & H4); try lia.
        exists s'. split; [exact Es|].
        assert (Hle : s + 1 <= s')
          by (destruct (Nat.eq_dec (s + 1) e); [rewrite H2; lia | lia]).
        split; [intros _; destruct (Nat.eq_dec (s + 1) e); [rewrite H2; lia | lia]|].
        split; [lia|]. split; [exact H3|].
        intros k Hk. destruct (Nat.eq_dec k s) as [->|]; [exact Ef | apply H4; lia].
    + apply Nat.ltb_ge in E. exists s. split; [reflexivity|].
      split; [lia|]. split; [auto|]. split; [lia | intros k Hk; lia].
Qed.

Lemma trim_right_last (mets : list metrics) (fc mg : Q) (fuel s e : nat) :
  e <= length mets -> e - s <= fuel ->
  exists e',
    trim_right fuel mets fc mg s e = Ok e'
    /\ (s < e -> s <= e' <= e)
    /\ (e <= s -> e' = e)
    /\ (s < e' -> flank_ok mets fc mg (e' - 1) = true)
    /\ (forall k, e' <= k < e -> flank_ok mets fc mg k = false).
Proof.
  revert e. induction fuel as [|fuel IH]; intros e He Hf.
  - simpl. assert (E : (s <? e) = false) by (apply Nat.ltb_ge; lia).
    rewrite E. exists e. split; [reflexivity|].
    split; [lia|]. split; [auto|]. split; [lia | intros k Hk; lia].
  - simpl. destruct (s <? e) eqn:E.
    + apply Nat.ltb_lt in E.
      rewrite (@py_get_nth _ mets (e - 1) no_metrics) by lia. simpl.
      fold (flank_ok mets fc mg (e - 1)).
      destruct (flank_ok mets fc mg (e - 1)) eqn:Ef; simpl.
      * exists e. split; [reflexivity|]. split; [lia|]. split; [lia|].
        split; [auto | intros k Hk; lia].
      * destruct (IH (e - 1)) as (e' & Es & H1 & H2 & H3 & H4); try lia.
        exists e'. split; [exact Es|].
        assert (Hle : e' <= e - 1)
          by (destruct (Nat.eq_dec s (e - 1)); [rewrite H2; lia | lia]).
        split; [intros _; destruct (Nat.eq_dec s (e - 1)); [rewrite H2; lia | lia]|].
        split; [lia|]. split; [exact H3|].
        intros k Hk. destruct (Nat.eq_dec k (e - 1)) as [->|];
          [exact Ef | apply H4; lia].
    + apply Nat.ltb_ge in E. exists e. split; [reflexivity|].
      split; [lia|]. split; [auto|]. split; [lia | intros k Hk; lia].
Qed.

(** The trimmed block runs from the first to the last column that passes
    the flank test. *)
Lemma soft_trim_block_first_last (mets : list metrics) (flank_cons max_gap : Q)
  (s e : nat) (Hb : s < e <= length mets) :
  exists r,
    soft_trim_block (s, e) mets flank_cons max_gap = Ok r
    /\ (r = None <->
        forall k, s <= k < e -> flank_ok mets flank_cons max_gap k = false)
    /\ (forall s' e', r = Some (s', e') ->
          s <= s' /\ s' < e' /\ e' <= e
          /\ flank_ok mets flank_cons max_gap s' = true
          /\ flank_ok mets flank_cons max_gap (e' - 1) = true
          /\ (forall k, s <= k < s' -> flank_ok mets flank_cons max_gap k = false)
          /\ (forall k, e' <= k < e -> flank_ok mets flank_cons max_gap k = false)).
Proof.
  unfold soft_trim_block.
  destruct (trim_left_first mets flank_cons max_gap (e - s + 1) s e)
    as (s' & Es & L1 & L2 & L3 & L4); try lia.
  rewrite Es. cbn [bind].
  destruct (trim_right_last mets flank_cons max_gap (e - s' + 1) s' e)
    as (e' & Ee & R1 & R2 & R3 & R4); try lia.
  rewrite Ee. cbn [bind].
  assert (Hs' : s <= s' <= e) by (apply L1; lia).
  destruct (s' <? e') eqn:E.
  - apply Nat.ltb_lt in E. exists (Some (s', e')). split; [reflexivity|]. split.
    + split; [discriminate|]. intros Hall. exfalso.
      assert (Hlt : s' < e) by (destruct (Nat.eq_dec s' e); [rewrite R2 in E; lia | lia]).
      rewrite Hall in L3 by lia. specialize (L3 Hlt). discriminate.
    + intros s1 e1 Heq. injection Heq as <- <-.
      assert (Hlt : s' < e) by (destruct (Nat.eq_dec s' e); [rewrite R2 in E; lia | lia]).
      split; [lia|]. split; [lia|]. split; [apply R1; lia|].
      split; [now apply L3|]. split; [now apply R3|]. split; assumption.
  - apply Nat.ltb_ge in E. exists None. split; [reflexivity|]. split.
    + split; [|reflexivity]. intros _ k Hk.
      destruct (Nat.lt_ge_cases k s') as [Hlt|Hge]; [apply L4; lia|].
      apply R4. split; [|lia].
      destruct (Nat.eq_dec s' e) as [Heq|Hne]; [lia|].
      assert (s' <= e' <= e) by (apply R1; lia). lia.
    + discriminate.
Qed.

(** X2. On a block inside the alignment, [soft_trim_block] returns the
    interval from the first to the last column of the block that passes the
    flank test, and [None] exactly when no column of the block passes it. *)
Theorem soft_trim_block_char (mets : list metrics) (flank_cons max_gap : Q)
  (s e : nat) (Hb : s < e <= length mets) :
  exists r,
    soft_trim_block (s, e) mets flank_cons max_gap = Ok r
    /\ (r = None <->
        forall k, s <= k < e -> flank_ok mets flank_cons max_gap k = false)
    /\ (forall s' e', r = Some (s', e') ->
          s <= s' /\ s' < e' /\ e' <= e
          /\ flank_ok mets flank_cons max_gap s' = true
          /\ flank_ok mets flank_cons max_gap (e' - 1) = true
          /\ (forall k, s <= k < s' -> flank_ok mets flank_cons max_gap k = false)
          /\ (forall k, e' <= k < e -> flank_ok mets flank_cons max_gap k = false)).
Proof. exact (soft_trim_block_first_last mets flank_cons max_gap s e Hb). Qed.

Lemma soft_trim_block_char_witness :
  let mets := [ {| gap_ratio := 0; cons_ratio := 1 # 2 |};
                {| gap_ratio := 0; cons_ratio := 1 |};
                {| gap_ratio := 0; cons_ratio := 1 # 3 |} ] in
  0 < 3 <= length mets
  /\ exists r,
       soft_trim_block (0, 3) mets 1 (1 # 2) = Ok r
       /\ (forall s' e', r = Some (s', e') ->
             flank_ok mets 1 (1 # 2) s' = true
             /\ (forall k, 0 <= k < s' -> flank_ok mets 1 (1 # 2) k = false)).
Proof.
  intros mets.
  assert (Hb : 0 < 3 <= length mets) by (simpl; lia).
  split; [exact Hb|].
  destruct (soft_trim_block_char mets 1 (1 # 2) 0 3 Hb) as (r & Er & _ & H).
  exists r. split; [exact Er|].
  intros s' e' Hr. destruct (H s' e' Hr) as (_ & _ & _ & H1 & _ & H2 & _).
  split; assumption.
Defined.

(* --------------------------------------------------------------------- *)
(** ** Run absorption                                                      *)
(* --------------------------------------------------------------------- *)

Lemma promoted_false (m : list bool) (max_run : Z) (k : nat) :
  promoted m max_run k -> nth k m false = false.
Proof.
  intros (i & j & (_ & Hall & _) & Hk & _). now apply Hall.
Qed.

Lemma promoted_same_run (m : list bool) (max_run : Z) (i j k : nat) :
  promoted m max_run k -> maximal_run m i j -> i <= k < j ->
  forall t, i <= t < j -> promoted m max_run t.
Proof.
  intros (i' & j' & Hrun' & Hk' & Hlen & Hl & Hr) Hrun Hk t Ht.
  destruct (maximal_run_unique m i j i' j' k Hrun Hrun' Hk Hk') as [-> ->].
  exists i', j'. auto.
Qed.

Lemma bool_list_ext (l l' : list bool) :
  length l = length l' ->
  (forall k, k < length l -> (nth k l false = true <-> nth k l' false = true)) ->
  l = l'.
Proof.
  intros Hlen H. apply (nth_ext l l' false false Hlen).
  intros k Hk. specialize (H k Hk).
  destruct (nth k l false), (nth k l' false); try reflexivity.
  - symmetry. now apply H.
  - now apply H.
Qed.

(** After absorption no run is left that a second pass would absorb. *)
Lemma absorbed_not_promoted (mask m' : list bool) (max_run : Z) :
  length m' = length mask ->
  (forall k, k < length mask ->
     (nth k m' false = true <->
      nth k mask false = true \/ promoted mask max_run k)) ->
  forall k, ~ promoted m' max_run k.
Proof.
  intros Hlen Hchar k Hp.
  pose proof (promoted_false _ _ _ Hp) as Hk.
  destruct Hp as (i & j & (Hij & Hall & _) & Hik & Hrun & [Hi Hl] & [Hj Hr]).
  rewrite Hlen in *.
  assert (Hm : forall t, i <= t < j ->
                 nth t mask false = false /\ ~ promoted mask max_run t).
  { intros t Ht. specialize (Hall t Ht).
    destruct (nth t mask false) eqn:E.
    - assert (nth t m' false = true) by (apply Hchar; [lia | now left]). congruence.
    - split; [reflexivity|]. intros Hpt.
      assert (nth t m' false = true) by (apply Hchar; [lia | now right]). congruence. }
  assert (Hleft : nth (i - 1) mask false = true).
  { apply Hchar in Hl; [|lia]. destruct Hl as [Hl|Hl]; [exact Hl|]. exfalso.
    destruct Hl as (i0 & j0 & Hrun0 & Hin0 & Hrest).
    assert (Hj0 : i < j0).
    { destruct Hrun0 as (B1 & _ & _ & [B4|B4]); [lia|].
      destruct (Nat.eq_dec j0 i) as [->|]; [|lia].
      destruct (Hm i) as [Hmi _]; [lia|]. congruence. }
    apply (proj2 (Hm i ltac:(lia))).
    exists i0, j0. split; [exact Hrun0|]. split; [lia | exact Hrest]. }
  assert (Hright : nth j mask false = true).
  { apply Hchar in Hr; [|lia]. destruct Hr as [Hr|Hr]; [exact Hr|]. exfalso.
    destruct Hr as (i0 & j0 & Hrun0 & Hin0 & Hrest).
    assert (Hi0 : i0 < j).
    { destruct Hrun0 as (B1 & _ & [B3|B3] & _); [lia|].
      destruct (Nat.eq_dec i0 j) as [->|]; [|lia].
      destruct (Hm (j - 1)) as [Hmj _]; [lia|]. congruence. }
    apply (proj2 (Hm (j - 1) ltac:(lia))).
    exists i0, j0. split; [exact Hrun0|]. split; [lia | exact Hrest]. }
  apply (proj2 (Hm k Hik)).
  exists i, j. split.
  - split; [lia|]. split; [intros t Ht; now apply Hm|]. split; [now right | now right].
  - split; [exact Hik|]. split; [exact Hrun|]. split; split; assumption || lia.
Qed.

(** X3. Run absorption keeps the length of the mask, never unkeeps a
    column, and a second pass with the same bound changes nothing. *)
Theorem allow_short_nonconserved_runs_closure (mask : list bool) (max_run : Z) :
  exists m',
    _allow_short_nonconserved_runs mask max_run = Ok m'
    /\ length m' = length mask
    /\ (forall k, nth k mask false = true -> nth k m' false = true)
    /\ _allow_short_nonconserved_runs m' max_run = Ok m'.
Proof.
  destruct (Z.leb_spec max_run 0) as [Hle|Hpos].
  - exists mask. unfold _allow_short_nonconserved_runs.
    assert (E : (max_run <=? 0)%Z = true) by (apply Z.leb_le; lia).
    rewrite E. auto.
  - destruct (allow_runs_char mask max_run Hpos) as (m' & E1 & L1 & C1).
    exists m'. split; [exact E1|]. split; [exact L1|]. split.
    + intros k Hk. apply C1; [now apply nth_true_lt | now left].
    + destruct (allow_runs_char m' max_run Hpos) as (m'' & E2 & L2 & C2).
      rewrite E2. f_equal. apply bool_list_ext; [exact L2|].
      intros k Hk. rewrite L2 in Hk. rewrite (C2 k Hk). split; [|now left].
      intros [H|H]; [exact H|]. exfalso.
      now apply (absorbed_not_promoted mask m' max_run L1 C1 k).
Qed.

(* ===================================================================== *)
(** * Further properties of [gblock_filter]                                *)
(* ===================================================================== *)

(** Trimming keeps the blocks in order. *)
Lemma trim_fold_sorted (mets : list metrics) (fc mg : Q) (min_len : Z)
  (blocks : list (nat * nat)) :
  (forall b, In b blocks -> fst b < snd b <= length mets) ->
  StronglySorted separated blocks ->
  forall acc,
  exists out,
    foldM (fun acc b =>
             tb <- soft_trim_block b mets fc mg ;;
             Ok (match tb with
                 | Some (s, e) =>
                     if (min_len <=? Z.of_nat e - Z.of_nat s)%Z
                     then acc ++ [(s, e)] else acc
                 | None => acc
                 end))
          blocks acc
    = Ok (acc ++ out)
    /\ StronglySorted separated out
    /\ Forall (fun b' => exists b, In b blocks
                           /\ fst b <= fst b' /\ snd b' <= snd b) out.
Proof.
  induction blocks as [|[s e] bs IH]; intros Hin Hs acc.
  - exists []. rewrite app_nil_r. split; [reflexivity|]. split; constructor.
  - cbn [foldM].
    destruct (soft_trim_block_spec mets fc mg s e) as (r & Er & Hr & _).
    { apply (Hin (s, e)). now left. }
    rewrite Er. cbn [bind].
    inversion Hs as [|x l Hs' Hall]; subst.
    assert (Hin' : forall b, In b bs -> fst b < snd b <= length mets)
      by (intros b Hb; apply Hin; now right).
    assert (Hweak : forall out,
      Forall (fun b' => exists b, In b bs
                          /\ fst b <= fst b' /\ snd b' <= snd b) out ->
      Forall (fun b' => exists b, In b ((s, e) :: bs)
                          /\ fst b <= fst b' /\ snd b' <= snd b) out).
    { intros out. apply Forall_impl. intros o (p & Hp & Hp'). exists p.
      split; [now right | exact Hp']. }
    destruct r as [[s' e']|].
    + destruct (Hr s' e' eq_refl) as (H1 & H2 & H3 & _).
      destruct (min_len <=? Z.of_nat e' - Z.of_nat s')%Z.
      * destruct (IH Hin' Hs' (acc ++ [(s', e')])) as (out & Eo & So & Fo).
        rewrite Eo. exists ((s', e') :: out). rewrite <- app_assoc.
        split; [reflexivity|]. split.
        -- constructor; [exact So|]. rewrite Forall_forall in *.
           intros o Ho. destruct (Fo o Ho) as (p & Hp & Hp1 & Hp2).
           specialize (Hall p Hp). unfold separated in *. simpl in *. lia.
        -- constructor; [|now apply Hweak].
           exists (s, e). simpl. split; [now left | lia].
      * destruct (IH Hin' Hs' acc) as (out & Eo & So & Fo).
        rewrite Eo. exists out. split; [reflexivity|]. split; [exact So|].
        now apply Hweak.
    + destruct (IH Hin' Hs' acc) as (out & Eo & So & Fo).
      rewrite Eo. exists out. split; [reflexivity|]. split; [exact So|].
      now apply Hweak.
Qed.

Lemma surviving_blocks_sorted (mets : list metrics) (min_len : Z) (mg mc : Q)
  (flank : option Q) (max_run : Z) (blocks : list (nat * nat)) :
  surviving_blocks mets min_len mg mc flank max_run = Ok blocks ->
  StronglySorted separated blocks.
Proof.
  unfold surviving_blocks.
  destruct (mask_stage_spec (base_mask mets mg mc) max_run) as (a & Ea & La & _).
  rewrite Ea. cbn [bind]. rewrite length_base_mask in La.
  destruct flank as [fc|].
  - intros H.
    destruct (trim_fold_sorted mets fc mg min_len (find_blocks a min_len))
      with (acc := @nil (nat * nat)) as (out & Eo & So & _).
    + intros [s e] Hb. apply find_blocks_sound in Hb. simpl. lia.
    + apply find_blocks_sorted.
    + rewrite Eo in H. injection H as <-. exact So.
  - intros H. injection H as <-. apply find_blocks_sorted.
Qed.

Lemma seq_sorted (s n : nat) : StronglySorted lt (seq s n).
Proof.
  revert s. induction n as [|n IH]; intros s; simpl; constructor.
  - apply IH.
  - apply Forall_forall. intros x Hx. apply in_seq in Hx. lia.
Qed.

Lemma keep_sorted (blocks : list (nat * nat)) :
  StronglySorted separated blocks ->
  StronglySorted lt (flat_map (fun b => range (fst b) (snd b)) blocks).
Proof.
  induction 1 as [|b bs Hs IH Hall]; simpl; [constructor|].
  apply StronglySorted_app; [apply seq_sorted | exact IH |].
  intros x y Hx Hy. unfold range in Hx. apply in_seq in Hx.
  apply in_flat_map in Hy. destruct Hy as (p & Hp & Hy).
  unfold range in Hy. apply in_seq in Hy.
  rewrite Forall_forall in Hall. specialize (Hall p Hp).
  unfold separated in Hall. lia.
Qed.

Lemma filter_sorted (A : Type) (R : A -> A -> Prop) (f : A -> bool) (l : list A) :
  StronglySorted R l -> StronglySorted R (filter f l).
Proof.
  induction 1 as [|x l Hs IH Hall]; simpl; [constructor|].
  destruct (f x); [|exact IH]. constructor; [exact IH|].
  apply Forall_forall. intros y Hy. apply filter_In in Hy.
  rewrite Forall_forall in Hall. apply Hall. tauto.
Qed.

Lemma kept_columns_sorted (seqs : list str) (blocks : list (nat * nat))
  (drop : bool) :
  StronglySorted separated blocks ->
  StronglySorted lt (kept_columns seqs blocks drop).
Proof.
  intros H. unfold kept_columns. destruct drop.
  - apply filter_sorted. now apply keep_sorted.
  - now apply keep_sorted.
Qed.

Lemma kept_columns_in (seqs : list str) (blocks : list (nat * nat))
  (drop : bool) (k : nat) :
  In k (kept_columns seqs blocks drop) ->
  (exists b, In b blocks /\ fst b <= k < snd b)
  /\ (drop = true ->
      existsb (fun s => negb (is_gap (nth k s gapc))) seqs = true).
Proof.
  unfold kept_columns. intros H.
  assert (H' : In k (flat_map (fun b => range (fst b) (snd b)) blocks)
               /\ (drop = true ->
                   existsb (fun s => negb (is_gap (nth k s gapc))) seqs = true)).
  { destruct drop; [apply filter_In in H; tauto | split; [exact H | discriminate]]. }
  destruct H' as [H1 H2]. split; [|exact H2].
  apply in_flat_map in H1. destruct H1 as (b & Hb & Hk).
  unfold range in Hk. apply in_seq in Hk. exists b. split; [exact Hb | lia].
Qed.

Lemma assemble_select (entries : list entry) (blocks : list (nat * nat))
  (drop : bool) :
  assemble entries blocks drop
  = map (fun e => (fst e,
                   select (kept_columns (map snd entries) blocks drop) (snd e)))
        entries.
Proof.
  unfold assemble. destruct blocks as [|b bs]; [|reflexivity].
  unfold kept_columns. simpl. destruct drop; reflexivity.
Qed.

(** The columns [gblock_filter] keeps, and what it returns from them. *)
Lemma gblock_filter_keep (entries : list entry) (min_len : Z) (mg mc : Q)
  (flank : option Q) (drop : bool) (max_run : Z) :
  all_equal_length entries = true ->
  exists L blocks,
    entries <> []
    /\ Forall (fun e => length (snd e) = L) entries
    /\ surviving_blocks
         (map (fun i => metric_of (length (map snd entries))
                                  (column (map snd entries) i))
              (range 0 L))
         min_len mg mc flank max_run = Ok blocks
    /\ (forall b, In b blocks -> fst b < snd b <= L)
    /\ StronglySorted lt (kept_columns (map snd entries) blocks drop)
    /\ gblock_filter entries min_len mg mc flank drop max_run
       = Ok (map (fun e =>
                    (fst e,
                     select (kept_columns (map snd entries) blocks drop) (snd e)))
                 entries).
Proof.
  intros Heq.
  destruct (gblock_filter_char entries min_len mg mc flank drop max_run Heq)
    as (L & blocks & Hne & HL & Eb & Hr & Eg).
  exists L, blocks. split; [exact Hne|]. split; [exact HL|]. split; [exact Eb|].
  split; [exact Hr|]. split.
  - apply kept_columns_sorted.
    now apply surviving_blocks_sorted in Eb.
  - rewrite Eg. f_equal. apply assemble_select.
Qed.

Lemma length_flat_map_range_ge (blocks : list (nat * nat)) (b : nat * nat) :
  In b blocks ->
  snd b - fst b <= length (flat_map (fun b => range (fst b) (snd b)) blocks).
Proof.
  induction blocks as [|b0 bs IH]; intros Hin; [destruct Hin|].
  simpl. rewrite length_app. unfold range at 1. rewrite length_seq.
  destruct Hin as [->|Hin]; [lia|]. specialize (IH Hin). lia.
Qed.

(** X4. On an equal-length alignment [gblock_filter] deletes columns and
    does nothing else: every output row is the input row restricted to one
    and the same strictly increasing list of column indices, so no column
    is reordered, repeated or altered.  When all-gap columns are not
    dropped, the output is empty or at least [min_block_len] columns
    wide. *)
Theorem gblock_filter_selects_columns (entries : list entry)
  (min_block_len : Z) (max_gap min_cons : Q) (flank_cons : option Q)
  (drop_all_gap_columns : bool) (max_noncons_run : Z)
  (Heq : all_equal_length entries = true) :
  exists L keep,
    Forall (fun e => length (snd e) = L) entries
    /\ StronglySorted lt keep
    /\ Forall (fun k => k < L) keep
    /\ gblock_filter entries min_block_len max_gap min_cons flank_cons
                     drop_all_gap_columns max_noncons_run
       = Ok (map (fun e => (fst e, select keep (snd e))) entries)
    /\ (drop_all_gap_columns = false ->
        keep = [] \/ (min_block_len <= Z.of_nat (length keep))%Z).
Proof.
  destruct (gblock_filter_keep entries min_block_len max_gap min_cons flank_cons
              drop_all_gap_columns max_noncons_run Heq)
    as (L & blocks & Hne & HL & Eb & Hr & Hs & Eg).
  exists L, (kept_columns (map snd entries) blocks drop_all_gap_columns).
  split; [exact HL|]. split; [exact Hs|]. split.
  - apply Forall_forall. intros k Hk. apply kept_columns_in in Hk.
    destruct Hk as [(b & Hb & Hk) _]. specialize (Hr b Hb). lia.
  - split; [exact Eg|]. intros ->. unfold kept_columns.
    destruct blocks as [|b bs]; [now left|]. right.
    destruct (surviving_blocks_good _ _ _ _ _ _ _ Eb) as (a & _ & _ & Hgood).
    destruct b as [s e].
    destruct (Hgood s e (or_introl eq_refl)) as (H1 & _ & _ & _ & H5 & _).
    pose proof (length_flat_map_range_ge ((s, e) :: bs) (s, e) (or_introl eq_refl))
      as Hlen.
    simpl fst in Hlen. simpl snd in Hlen. lia.
Qed.

Lemma gblock_filter_selects_columns_witness :
  let entries := [(lit "s1", lit "MSTAG"); (lit "s2", lit "MST-G");
                  (lit "s3", lit "MSTTG")] in
  all_equal_length entries = true
  /\ exists L keep,
       Forall (fun e => length (snd e) = L) entries
       /\ StronglySorted lt keep
       /\ gblock_filter entries 3 (34 # 100) (67 # 100) None false 0
          = Ok (map (fun e => (fst e, select keep (snd e))) entries).
Proof.
  intros entries.
  assert (Heq : all_equal_length entries = true) by reflexivity.
  split; [exact Heq|].
  destruct (gblock_filter_selects_columns entries 3 (34 # 100) (67 # 100) None
              false 0 Heq) as (L & keep & H1 & H2 & _ & H4 & _).
  exists L, keep. split; [exact H1|]. split; [exact H2 | exact H4].
Defined.

(** X5. With [drop_all_gap_columns] on, no column of the output consists
    of gaps only: at every output position some row holds a residue. *)
Theorem gblock_filter_drops_gap_columns (entries : list entry)
  (min_block_len : Z) (max_gap min_cons : Q) (flank_cons : option Q)
  (max_noncons_run : Z)
  (Heq : all_equal_length entries = true) :
  exists out W,
    gblock_filter entries min_block_len max_gap min_cons flank_cons true
                  max_noncons_run = Ok out
    /\ Forall (fun e => length (snd e) = W) out
    /\ forall i, i < W ->
         exists e, In e out /\ is_gap (nth i (snd e) gapc) = false.
Proof.
  destruct (gblock_filter_keep entries min_block_len max_gap min_cons flank_cons
              true max_noncons_run Heq)
    as (L & blocks & Hne & HL & Eb & Hr & Hs & Eg).
  set (keep := kept_columns (map snd entries) blocks true) in *.
  exists (map (fun e => (fst e, select keep (snd e))) entries), (length keep).
  split; [exact Eg|]. split.
  - apply Forall_forall. intros o Ho. apply in_map_iff in Ho.
    destruct Ho as (e & <- & _). simpl. unfold select. apply length_map.
  - intros i Hi.
    assert (Hin : In (nth i keep 0) keep) by now apply nth_In.
    apply kept_columns_in in Hin. destruct Hin as [_ Hex].
    specialize (Hex eq_refl). apply existsb_exists in Hex.
    destruct Hex as (s & Hsin & Hres).
    apply in_map_iff in Hsin. destruct Hsin as (e & <- & He).
    exists (fst e, select keep (snd e)). split.
    + apply in_map_iff. exists e. split; [reflexivity | exact He].
    + simpl. unfold select.
      rewrite (nth_map_in _ _ (fun i => nth i (snd e) gapc) keep i 0 gapc Hi).
      now apply negb_true_iff in Hres.
Qed.

Lemma gblock_filter_drops_gap_columns_witness :
  let entries := [(lit "s1", lit "A-A"); (lit "s2", lit "A-A")] in
  all_equal_length entries = true
  /\ exists out W,
       gblock_filter entries 3 (1 # 2) (7 # 10) None true 1 = Ok out
       /\ Forall (fun e => length (snd e) = W) out
       /\ forall i, i < W ->
            exists e, In e out /\ is_gap (nth i (snd e) gapc) = false.
Proof.
  intros entries.
  assert (Heq : all_equal_length entries = true) by reflexivity.
  split; [exact Heq|].
  exact (gblock_filter_drops_gap_columns entries 3 (1 # 2) (7 # 10) None 1 Heq).
Defined.



(* --------------------------------------------------------------------- *)
(** ** Accepted and rejected inputs                                        *)
(* --------------------------------------------------------------------- *)

(** X7. [all_equal_length] holds exactly of the non-empty lists of entries
    whose residue strings all have the same length; in particular it is
    false of the empty list. *)
Theorem all_equal_length_char (entries : list entry) :
  all_equal_length entries = true <-> entries <> [] /\ equal_length entries.
Proof.
  rewrite all_equal_length_iff. split; intros [Hne H]; (split; [exact Hne|]).
  - destruct H as [L HL]. rewrite Forall_forall in HL.
    intros e1 e2 H1 H2.
    transitivity L; [exact (HL e1 H1) | symmetry; exact (HL e2 H2)].
  - destruct entries as [|e0 es]; [congruence|].
    exists (length (snd e0)). apply Forall_forall. intros e He.
    apply H; [exact He | now left].
Qed.

(** X8. [gblock_filter] raises ValueError exactly when the list of entries
    is empty or two residue strings differ in length, whatever the
    thresholds; on every other input it returns, so it raises no other
    exception and its loops terminate. *)
Theorem gblock_filter_errors (entries : list entry) (min_block_len : Z)
  (max_gap min_cons : Q) (flank_cons : option Q) (drop_all_gap_columns : bool)
  (max_noncons_run : Z) :
  let r := gblock_filter entries min_block_len max_gap min_cons flank_cons
                         drop_all_gap_columns max_noncons_run in
  (r = Raise ValueError <-> entries = [] \/ ~ equal_length entries)
  /\ (r = Raise ValueError \/ exists out, r = Ok out).
Proof.
  intros r. subst r.
  destruct (all_equal_length entries) eqn:Heq.
  - destruct (gblock_filter_char entries min_block_len max_gap min_cons
                flank_cons drop_all_gap_columns max_noncons_run Heq)
      as (L & blocks & Hne & HL & _ & _ & Eg).
    rewrite Eg. split; [|right; eauto]. split; [discriminate|].
    intros [He|Hn]; [congruence|]. exfalso. apply Hn.
    rewrite Forall_forall in HL.
    intros e1 e2 H1 H2.
    transitivity L; [exact (HL e1 H1) | symmetry; exact (HL e2 H2)].
  - assert (E : gblock_filter entries min_block_len max_gap min_cons flank_cons
                  drop_all_gap_columns max_noncons_run = Raise ValueError)
      by (unfold gblock_filter; now rewrite Heq).
    rewrite E. split; [|now left]. split; [|reflexivity]. intros _.
    destruct entries as [|e0 es]; [now left|]. right. intros Hel.
    assert (Ht : all_equal_length (e0 :: es) = true).
    { apply all_equal_length_iff. split; [discriminate|].
      exists (length (snd e0)). apply Forall_forall. intros e He.
      apply Hel; [exact He | now left]. }
    congruence.
Qed.

(* ===================================================================== *)
(** * Rows of unequal length in [column_metrics]                           *)
(* ===================================================================== *)

Lemma mapM_ext_in (A B : Type) (f g : A -> result B) (l : list A) :
  (forall x, In x l -> f x = g x) -> mapM f l = mapM g l.
Proof.
  induction l as [|x l IH]; intros H; [reflexivity|].
  cbn [mapM]. rewrite (H x) by now left.
  rewrite IH; [reflexivity|]. intros y Hy. apply H. now right.
Qed.

Lemma mapM_map (A B C : Type) (h : A -> B) (f : B -> result C) (l : list A) :
  mapM f (map h l) = mapM (fun x => f (h x)) l.
Proof.
  induction l as [|x l IH]; [reflexivity|].
  cbn [mapM map]. now rewrite IH.
Qed.

(** A comprehension whose elements can only raise [e], and one of which
    does, raises [e]. *)
Lemma mapM_raise (A B : Type) (f : A -> result B) (e : exn) (l : list A) :
  (forall x, In x l -> f x = Raise e \/ exists y, f x = Ok y) ->
  Exists (fun x => f x = Raise e) l ->
  mapM f l = Raise e.
Proof.
  induction l as [|x l IH]; intros Hall Hex; [inversion Hex|].
  cbn [mapM].
  destruct (Hall x (or_introl eq_refl)) as [E|[y E]]; rewrite E; [reflexivity|].
  cbn [bind]. inversion Hex as [? ? Hx|? ? Hx]; subst; [congruence|].
  rewrite IH; [reflexivity | | exact Hx].
  intros z Hz. apply Hall. now right.
Qed.

Lemma py_get_cases (A : Type) (l : list A) (k : nat) :
  py_get l k = Raise IndexError \/ exists y, py_get l k = Ok y.
Proof.
  destruct (Nat.lt_ge_cases k (length l)) as [H|H].
  - destruct l as [|d l']; [simpl in H; lia|]. right.
    exists (nth k (d :: l') d). now apply py_get_nth.
  - left. now apply py_get_out.
Qed.

Lemma py_get_firstn (A : Type) (l : list A) (L k : nat) :
  k < L -> py_get (firstn L l) k = py_get l k.
Proof.
  intros Hk. destruct (Nat.lt_ge_cases k (length l)) as [H|H].
  - destruct l as [|d l']; [simpl in H; lia|].
    rewrite (@py_get_nth _ (firstn L (d :: l')) k d)
      by (rewrite length_firstn; lia).
    rewrite (@py_get_nth _ (d :: l') k d) by assumption.
    now rewrite nth_firstn, (proj2 (Nat.ltb_lt k L) Hk).
  - rewrite !py_get_out; [reflexivity | assumption |].
    rewrite length_firstn. lia.
Qed.

Lemma py_get_head (A : Type) (x : A) (l : list A) : py_get (x :: l) 0 = Ok x.
Proof. apply (@py_get_nth _ (x :: l) 0 x). simpl. lia. Qed.

(** Only the first [len(aligned_seqs[0])] characters of a row are read. *)
Lemma column_metrics_firstn (seqs : list str) :
  column_metrics seqs
  = column_metrics (map (firstn (length (hd [] seqs))) seqs).
Proof.
  destruct seqs as [|s0 rest]; [reflexivity|].
  unfold column_metrics. cbn [hd].
  cbn [map]. rewrite !py_get_head. cbn [bind].
  replace (firstn (length s0) s0) with s0 by (symmetry; apply firstn_all).
  cbn [length]. rewrite length_map.
  apply mapM_ext_in. intros i Hi. unfold range in Hi. apply in_seq in Hi.
  cbn [mapM]. rewrite mapM_map.
  rewrite (mapM_ext_in _ _ (fun s => py_get s i)
             (fun x => py_get (firstn (length s0) x) i) rest);
    [reflexivity|].
  intros s _. symmetry. apply py_get_firstn. lia.
Qed.

Lemma column_metrics_short_row (seqs : list str) :
  Exists (fun s => length s < length (hd [] seqs)) seqs ->
  column_metrics seqs = Raise IndexError.
Proof.
  intros Hex. destruct seqs as [|s0 rest]; [inversion Hex|].
  cbn [hd] in Hex. unfold column_metrics.
  rewrite py_get_head. cbn [bind].
  apply Exists_exists in Hex. destruct Hex as (s1 & Hin & Hlt).
  apply mapM_raise.
  - intros i _.
    destruct (Exists_dec (fun s => py_get s i = Raise IndexError) (s0 :: rest))
      as [Hbad|Hgood].
    + intros s. destruct (le_lt_dec (length s) i) as [H|H].
      * left. now apply py_get_out.
      * right. destruct s as [|d s']; [simpl in H; lia|].
        rewrite (@py_get_nth _ (d :: s') i d) by assumption. discriminate.
    + left. rewrite (mapM_raise _ _ (fun s => py_get s i) IndexError);
        [reflexivity | | exact Hbad].
      intros s _. apply py_get_cases.
    + right.
      assert (Hok : forall s, In s (s0 :: rest) ->
                      py_get s i = Ok (nth i s gapc)).
      { intros s Hs. destruct (py_get_cases _ s i) as [E|[y E]].
        - exfalso. apply Hgood. apply Exists_exists. eauto.
        - destruct (Nat.lt_ge_cases i (length s)) as [H|H];
            [now apply py_get_nth|].
          rewrite py_get_out in E by assumption. discriminate. }
      match goal with
      | |- context [mapM ?f ?l] =>
          rewrite (mapM_ok f (fun s => nth i s gapc) l Hok)
      end. cbn [bind].
      rewrite column_metric_eq by (simpl; lia). eauto.
  - apply Exists_exists. exists (length s1). split.
    + unfold range. apply in_seq. lia.
    + rewrite (mapM_raise _ _ (fun s => py_get s (length s1)) IndexError);
        [reflexivity | |].
      * intros s _. apply py_get_cases.
      * apply Exists_exists. exists s1. split; [exact Hin|].
        now apply py_get_out.
Qed.

(** X9. [column_metrics] takes the number of columns from the first row and
    reads only that many characters of every row: longer rows are silently
    truncated.  It raises IndexError exactly when the list is empty or some
    row is shorter than the first one, and otherwise returns one record per
    column of the first row; it never divides by zero. *)
Theorem column_metrics_rows (seqs : list str) :
  let L := length (hd [] seqs) in
  column_metrics seqs = column_metrics (map (firstn L) seqs)
  /\ (column_metrics seqs = Raise IndexError <->
      seqs = [] \/ Exists (fun s => length s < L) seqs)
  /\ (column_metrics seqs = Raise IndexError
      \/ exists mets, column_metrics seqs = Ok mets /\ length mets = L).
Proof.
  intros L. split; [apply column_metrics_firstn|].
  destruct seqs as [|s0 rest].
  { split; [|now left]. split; [now left | reflexivity]. }
  destruct (Exists_dec (fun s => length s < L) (s0 :: rest)) as [Hbad|Hgood].
  { intros s. apply lt_dec. }
  - pose proof (column_metrics_short_row (s0 :: rest) Hbad) as E.
    rewrite E. split; [|now left]. split; [now right | reflexivity].
  - assert (Hall : Forall (fun s => length s = L) (map (firstn L) (s0 :: rest))).
    { apply Forall_forall. intros s Hs. apply in_map_iff in Hs.
      destruct Hs as (s' & <- & Hs'). rewrite length_firstn.
      destruct (Nat.lt_ge_cases (length s') L) as [Hlt|Hge]; [|lia].
      exfalso. apply Hgood. apply Exists_exists. eauto. }
    rewrite (column_metrics_firstn (s0 :: rest)). fold L.
    rewrite (column_metrics_eq _ L) by (simpl; congruence || assumption).
    split.
    + split; [discriminate|]. intros [H|H]; [discriminate | contradiction].
    + right. eexists. split; [reflexivity|].
      unfold range. now rewrite length_map, length_seq, Nat.sub_0_r.
Qed.

(* ===================================================================== *)
(** * Gap patterns: [merge_gap_patterns_max],                              *)
(** * [gap_pattern_from_aligned_base], [expand_to_pattern]                 *)
(* ===================================================================== *)

Lemma nat_list_ext (l l' : list nat) :
  length l = length l' -> (forall k, nth k l 0 = nth k l' 0) -> l = l'.
Proof.
  intros Hlen H. apply (nth_ext l l' 0 0 Hlen). intros k _. apply H.
Qed.

Lemma merge_length (p q : list nat) :
  length (merge_gap_patterns_max p q) = Nat.max (length p) (length q).
Proof.
  unfold merge_gap_patterns_max, range. rewrite length_map, length_seq. lia.
Qed.

Lemma merge_nth (p q : list nat) (k : nat) :
  nth k (merge_gap_patterns_max p q) 0 = Nat.max (nth k p 0) (nth k q 0).
Proof.
  destruct (Nat.lt_ge_cases k (Nat.max (length p) (length q))) as [H|H].
  - unfold merge_gap_patterns_max, range. rewrite Nat.sub_0_r.
    match goal with
    | |- context [map ?f _] =>
        rewrite (nth_map_in _ _ f (seq 0 (Nat.max (length p) (length q))) k 0 0)
          by (rewrite length_seq; exact H)
    end.
    rewrite seq_nth by exact H. cbn [Nat.add].
    destruct (k <? length p) eqn:E1, (k <? length q) eqn:E2;
      try apply Nat.ltb_ge in E1; try apply Nat.ltb_ge in E2;
      try rewrite (nth_overflow p) by assumption;
      try rewrite (nth_overflow q) by assumption; reflexivity.
  - rewrite !nth_overflow; try lia. rewrite merge_length. lia.
Qed.

(** X10. [merge_gap_patterns_max] is the pointwise maximum of the two
    patterns, the shorter one extended with zeros: its length is the larger
    of the two lengths, and merging is commutative, associative and
    idempotent. *)
Theorem merge_gap_patterns_max_semilattice (p q r : list nat) :
  length (merge_gap_patterns_max p q) = Nat.max (length p) (length q)
  /\ (forall k, nth k (merge_gap_patterns_max p q) 0
                = Nat.max (nth k p 0) (nth k q 0))
  /\ merge_gap_patterns_max p q = merge_gap_patterns_max q p
  /\ merge_gap_patterns_max p p = p
  /\ merge_gap_patterns_max (merge_gap_patterns_max p q) r
     = merge_gap_patterns_max p (merge_gap_patterns_max q r).
Proof.
  split; [apply merge_length|]. split; [apply merge_nth|].
  split; [|split]; apply nat_list_ext;
    rewrite ?merge_length; try lia; intros k; rewrite ?merge_nth; lia.
Qed.

(* --------------------------------------------------------------------- *)
(** ** The gap pattern of an aligned base                                  *)
(* --------------------------------------------------------------------- *)

Lemma gap_pattern_fold_length (L : nat) (aln : str) :
  forall g i run,
    length (fst (fst (fold_left (gap_pattern_step L) aln (g, i, run))))
    = length g.
Proof.
  induction aln as [|ch aln IH]; intros g i run; [reflexivity|].
  cbn [fold_left]. unfold gap_pattern_step at 2.
  destruct (is_gap ch); [apply IH|].
  rewrite IH. destruct (i <? L); [apply length_upd | reflexivity].
Qed.

Lemma gap_pattern_length (base_ref aln_base : str) :
  length (gap_pattern_from_aligned_base base_ref aln_base)
  = length base_ref + 1.
Proof.
  unfold gap_pattern_from_aligned_base.
  pose proof (gap_pattern_fold_length (length base_ref) aln_base
                (repeat 0 (length base_ref + 1)) 0 0) as H.
  destruct (fold_left (gap_pattern_step (length base_ref)) aln_base
                      (repeat 0 (length base_ref + 1), 0, 0)) as [[g i] run].
  simpl in H. rewrite length_upd, H. apply repeat_length.
Qed.

Lemma nth_skipn_add (A : Type) (l : list A) (i k : nat) (d : A) :
  nth k (skipn i l) d = nth (i + k) l d.
Proof.
  revert l. induction i as [|i IH]; intros l; [reflexivity|].
  destruct l as [|x l]; [now destruct k | apply IH].
Qed.

Lemma tl_skipn (A : Type) (l : list A) (i : nat) :
  tl (skipn i l) = skipn (i + 1) l.
Proof.
  revert l. induction i as [|i IH]; intros l.
  - now destruct l.
  - destruct l as [|x l]; [reflexivity | apply IH].
Qed.

Lemma skipn_cons_nth (A : Type) (l : list A) (i : nat) (d : A) :
  i < length l -> skipn i l = nth i l d :: skipn (i + 1) l.
Proof.
  revert l. induction i as [|i IH]; intros l Hi.
  - destruct l; [simpl in Hi; lia | reflexivity].
  - destruct l as [|x l]; [simpl in Hi; lia|]. simpl. apply IH. simpl in Hi. lia.
Qed.

Lemma repeat_snoc_app (A : Type) (x : A) (n : nat) (l : list A) :
  repeat x (n + 1) ++ l = repeat x n ++ x :: l.
Proof. rewrite repeat_app, <- app_assoc. reflexivity. Qed.

Lemma gap_free_cons (c : ascii) (s : str) :
  gap_free (c :: s) -> is_gap c = false /\ gap_free s.
Proof.
  unfold gap_free. cbn [forallb]. intros H. apply andb_prop in H.
  destruct H as [H1 H2]. apply negb_true_iff in H1. split; assumption.
Qed.

(** The loop of [gap_pattern_from_aligned_base], started at residue [i] of
    the base with [run] gaps pending, on what is left of the aligned row. *)
Lemma gap_pattern_fold_spread (base_ref : str) (suffix aln : str) :
  gapped suffix aln -> gap_free suffix ->
  forall g i run,
    length g = length base_ref + 1 ->
    i + length suffix = length base_ref ->
    (forall k, i <= k -> nth k g 0 = 0) ->
    exists g' i' run',
      fold_left (gap_pattern_step (length base_ref)) aln (g, i, run)
      = (g', i', run')
      /\ let p := upd g' (length base_ref) (nth (length base_ref) g' 0 + run') in
         (forall k, k < i -> nth k p 0 = nth k g 0)
         /\ spread (skipn i p) suffix = repeat gapc run ++ aln.
Proof.
  set (L := length base_ref).
  induction 1 as [|c s X Hg IH|s X Hg IH]; intros Hfree g i run Hlen Hi Hz.
  - exists g, i, run. split; [reflexivity|]. cbn zeta.
    simpl in Hi. rewrite Nat.add_0_r in Hi. subst i. split.
    + intros k Hk. apply nth_upd_neq. lia.
    + cbn [spread]. rewrite nth_skipn_add, Nat.add_0_r.
      rewrite nth_upd_eq by lia. rewrite (Hz L) by lia.
      now rewrite app_nil_r.
  - apply gap_free_cons in Hfree. destruct Hfree as [Hc Hs].
    cbn [fold_left]. unfold gap_pattern_step at 2. rewrite Hc.
    simpl in Hi.
    assert (E : (i <? L) = true) by (apply Nat.ltb_lt; lia).
    rewrite E. rewrite (Hz i) by lia. cbn [Nat.add].
    destruct (IH Hs (upd g i run) (i + 1) 0) as (g' & i' & run' & Ef & H1 & H2).
    + now rewrite length_upd.
    + lia.
    + intros k Hk. rewrite nth_upd_neq by lia. apply Hz. lia.
    + exists g', i', run'. split; [exact Ef|]. cbn zeta in *. split.
      * intros k Hk. rewrite H1 by lia. apply nth_upd_neq. lia.
      * cbn [spread]. rewrite nth_skipn_add, Nat.add_0_r, tl_skipn.
        rewrite H1 by lia. rewrite nth_upd_eq by lia.
        rewrite H2. reflexivity.
  - cbn [fold_left]. unfold gap_pattern_step at 2.
    change (is_gap gapc) with true. cbn iota.
    destruct (IH Hfree g i (run + 1) Hlen Hi Hz)
      as (g' & i' & run' & Ef & H1 & H2).
    exists g', i', run'. split; [exact Ef|]. cbn zeta in *.
    split; [exact H1|]. rewrite H2. apply repeat_snoc_app.
Qed.

Lemma gap_pattern_spread (base_ref aln_base : str) :
  gap_free base_ref -> gapped base_ref aln_base ->
  spread (gap_pattern_from_aligned_base base_ref aln_base) base_ref = aln_base.
Proof.
  intros Hfree Hg.
  destruct (gap_pattern_fold_spread base_ref base_ref aln_base Hg Hfree
              (repeat 0 (length base_ref + 1)) 0 0)
    as (g' & i' & run' & Ef & _ & H2).
  - apply repeat_length.
  - reflexivity.
  - intros k _. apply nth_repeat.
  - unfold gap_pattern_from_aligned_base. rewrite Ef. exact H2.
Qed.

Lemma length_spread (base : str) :
  forall p, length (spread p base)
            = list_sum (firstn (length base + 1) p) + length base.
Proof.
  induction base as [|c base IH]; intros p.
  - cbn [spread length]. rewrite repeat_length. destruct p; simpl; lia.
  - cbn [spread]. rewrite length_app, repeat_length. cbn [length].
    rewrite IH. destruct p as [|x p]; simpl.
    + rewrite firstn_nil. simpl. lia.
    + lia.
Qed.

(* --------------------------------------------------------------------- *)
(** ** [expand_to_pattern]                                                 *)
(* --------------------------------------------------------------------- *)

Lemma foldM_app (A St : Type) (f : St -> A -> result St) (l r : list A) (s : St) :
  foldM f (l ++ r) s = (s' <- foldM f l s ;; foldM f r s').
Proof.
  revert s. induction l as [|x l IH]; intros s; [reflexivity|].
  cbn [foldM app]. destruct (f s x); cbn [bind]; [apply IH | reflexivity..].
Qed.

(** A loop over [range] whose body may raise and that maintains an
    invariant indexed by the counter. *)
Lemma foldM_seq_inv (St : Type) (P : nat -> St -> Prop)
  (f : St -> nat -> result St) (len start : nat) (s0 : St) :
  P start s0 ->
  (forall k s, start <= k < start + len -> P k s ->
               exists s', f s k = Ok s' /\ P (k + 1) s') ->
  exists s', foldM f (seq start len) s0 = Ok s' /\ P (start + len) s'.
Proof.
  revert start s0. induction len as [|len IH]; intros start s0 H0 Hstep.
  - exists s0. rewrite Nat.add_0_r. auto.
  - cbn [seq foldM].
    destruct (Hstep start s0) as (s1 & E1 & H1); [lia | exact H0|].
    rewrite E1. cbn [bind].
    destruct (IH (S start) s1) as (s' & E & H').
    + now replace (S start) with (start + 1) by lia.
    + intros k s Hk Hs. apply Hstep; [lia | exact Hs].
    + exists s'. split; [exact E|].
      now replace (start + S len) with (S start + len) by lia.
Qed.

Lemma length_degap_le (s : str) : length (degap s) <= length s.
Proof. unfold degap. apply filter_length_le. Qed.

Lemma degap_app (s t : str) : degap (s ++ t) = degap s ++ degap t.
Proof. unfold degap. apply filter_app. Qed.

Lemma degap_repeat (n : nat) : degap (repeat gapc n) = [].
Proof. induction n as [|n IH]; [reflexivity | exact IH]. Qed.

(** The first loop: it returns when the base has a residue for every
    residue of the row. *)
Lemma rebuild_ok (base_ref : str) (aln : str) :
  forall acc j,
    j + length (degap aln) <= length base_ref ->
    foldM (expand_rebuild_step base_ref) aln (acc, j)
    = Ok (acc ++ rebuilt base_ref j aln, j + length (degap aln)).
Proof.
  induction aln as [|ch aln IH]; intros acc j Hj.
  - cbn [foldM rebuilt degap filter length]. now rewrite app_nil_r, Nat.add_0_r.
  - cbn [foldM rebuilt]. unfold expand_rebuild_step at 1.
    unfold degap in *. cbn [filter] in *.
    destruct (is_gap ch) eqn:Eg; cbn [negb] in *.
    + cbn [bind]. rewrite IH by exact Hj.
      now rewrite <- app_assoc.
    + cbn [length] in Hj.
      rewrite (@py_get_nth _ base_ref j gapc) by lia. cbn [bind].
      rewrite IH by lia. rewrite <- app_assoc. cbn [length app].
      do 2 f_equal. lia.
Qed.

Lemma rebuild_fail (base_ref : str) (aln : str) :
  forall acc j,
    j <= length base_ref -> length base_ref < j + length (degap aln) ->
    foldM (expand_rebuild_step base_ref) aln (acc, j) = Raise IndexError.
Proof.
  induction aln as [|ch aln IH]; intros acc j Hj Hlt.
  - cbn [degap filter length] in Hlt. lia.
  - cbn [foldM]. unfold expand_rebuild_step at 1.
    unfold degap in *. cbn [filter] in *.
    destruct (is_gap ch) eqn:Eg; cbn [negb] in *.
    + cbn [bind]. now apply IH.
    + cbn [length] in Hlt.
      destruct (Nat.eq_dec j (length base_ref)) as [->|Hne].
      * rewrite py_get_out by lia. reflexivity.
      * rewrite (@py_get_nth _ base_ref j gapc) by lia. cbn [bind].
        apply IH; lia.
Qed.

Lemma length_rebuilt (base_ref : str) (aln : str) :
  forall j, length (rebuilt base_ref j aln) = length aln.
Proof.
  induction aln as [|ch aln IH]; intros j; [reflexivity|].
  cbn [rebuilt]. destruct (is_gap ch); cbn [length]; now rewrite IH.
Qed.

(** A gap of the row is a gap of the rebuilt base. *)
Lemma rebuilt_gap (base_ref : str) (aln : str) :
  forall j t, t < length aln -> is_gap (nth t aln gapc) = true ->
              nth t (rebuilt base_ref j aln) gapc = gapc.
Proof.
  induction aln as [|ch aln IH]; intros j t Ht Hg; [simpl in Ht; lia|].
  cbn [rebuilt]. destruct t as [|t].
  - cbn [nth] in Hg. now rewrite Hg.
  - cbn [nth] in Hg. simpl in Ht.
    destruct (is_gap ch); cbn [nth]; apply IH; assumption || lia.
Qed.

Lemma rebuilt_self (base_ref : str) :
  forall suf pre, base_ref = pre ++ suf -> gap_free suf ->
                  rebuilt base_ref (length pre) suf = suf.
Proof.
  induction suf as [|c suf IH]; intros pre Hb Hfree; [reflexivity|].
  apply gap_free_cons in Hfree. destruct Hfree as [Hc Hs].
  cbn [rebuilt]. rewrite Hc. f_equal.
  - rewrite Hb. rewrite app_nth2 by lia. now rewrite Nat.sub_diag.
  - replace (length pre + 1) with (length (pre ++ [c]))
      by (rewrite length_app; reflexivity).
    apply IH; [|exact Hs]. now rewrite <- app_assoc.
Qed.

Lemma expand_inner_step (fuel : nat) (aln_seq aln_base out : str) (i : nat) :
  expand_inner (S fuel) aln_seq aln_base out i =
  if i <? length aln_seq then
    ch_a <- py_get aln_seq i ;;
    ch_b <- py_get aln_base i ;;
    if negb (is_gap ch_b) then Ok (out ++ [ch_a], i + 1)
    else expand_inner fuel aln_seq aln_base (out ++ [ch_a]) (i + 1)
  else Ok (out, i).
Proof. reflexivity. Qed.

Lemma expand_inner_done (fuel : nat) (aln_seq aln_base out : str) (i : nat) :
  length aln_seq <= i -> expand_inner fuel aln_seq aln_base out i = Ok (out, i).
Proof.
  intros H. assert (E : (i <? length aln_seq) = false) by (apply Nat.ltb_ge; lia).
  destruct fuel; [simpl | rewrite expand_inner_step]; now rewrite E.
Qed.

Lemma firstn_1_skipn (A : Type) (l : list A) (i : nat) (d : A) :
  i < length l -> firstn 1 (skipn i l) = [nth i l d].
Proof. intros H. now rewrite (skipn_cons_nth _ l i d H). Qed.

(** The inner loop copies the row up to and including the next position
    where the rebuilt base holds no gap, or to the end of the row. *)
Lemma expand_inner_spec (aln_seq aln_base : str) :
  length aln_base = length aln_seq ->
  forall fuel i out,
    i <= length aln_seq -> length aln_seq - i <= fuel ->
    exists i',
      expand_inner fuel aln_seq aln_base out i
      = Ok (out ++ firstn (i' - i) (skipn i aln_seq), i')
      /\ i <= i' <= length aln_seq
      /\ (i' = length aln_seq
          \/ (i < i' /\ is_gap (nth (i' - 1) aln_base gapc) = false))
      /\ (i < length aln_seq -> is_gap (nth i aln_base gapc) = false ->
          i' = i + 1).
Proof.
  intros Hlen. induction fuel as [|fuel IH]; intros i out Hi Hf.
  - exists i. rewrite expand_inner_done by lia.
    rewrite Nat.sub_diag. cbn [firstn]. rewrite app_nil_r.
    split; [reflexivity|]. split; [lia|]. split; [left; lia | lia].
  - rewrite expand_inner_step. destruct (i <? length aln_seq) eqn:E.
    + apply Nat.ltb_lt in E.
      rewrite (@py_get_nth _ aln_seq i gapc) by exact E.
      rewrite (@py_get_nth _ aln_base i gapc) by lia. cbn [bind].
      destruct (is_gap (nth i aln_base gapc)) eqn:Eg; cbn [negb].
      * destruct (IH (i + 1) (out ++ [nth i aln_seq gapc]))
          as (i' & Ei & H1 & H2 & _); try lia.
        exists i'. rewrite Ei. split.
        -- f_equal. f_equal. rewrite <- app_assoc. f_equal.
           rewrite (skipn_cons_nth _ aln_seq i gapc E).
           replace (i' - i) with (S (i' - (i + 1))) by lia. reflexivity.
        -- split; [lia|]. split; [|discriminate].
           destruct H2 as [H2|[H2 H3]]; [now left | right; split; [lia | exact H3]].
      * exists (i + 1). replace (i + 1 - i) with 1 by lia.
        rewrite (firstn_1_skipn _ aln_seq i gapc E).
        split; [reflexivity|]. split; [lia|]. split; [|reflexivity].
        right. split; [lia|]. now replace (i + 1 - 1) with i by lia.
    + apply Nat.ltb_ge in E. exists i.
      rewrite Nat.sub_diag. cbn [firstn]. rewrite app_nil_r.
      split; [reflexivity|]. split; [lia|]. split; [left; lia | lia].
Qed.

Lemma firstn_skipn_slice (A : Type) (l : list A) (i i' : nat) :
  i <= i' -> firstn i' l = firstn i l ++ firstn (i' - i) (skipn i l).
Proof.
  intros H. replace i' with (i + (i' - i)) at 1 by lia. apply firstn_add.
Qed.

Lemma degap_firstn_snoc (s : str) (i : nat) :
  i < length s -> is_gap (nth i s gapc) = false ->
  length (degap (firstn (i + 1) s)) = length (degap (firstn i s)) + 1.
Proof.
  intros Hi Hg. rewrite (@firstn_snoc _ s i gapc Hi), degap_app, length_app.
  unfold degap at 2. cbn [filter]. rewrite Hg. reflexivity.
Qed.

Lemma degap_firstn_mono (s : str) (i i' : nat) :
  i <= i' -> length (degap (firstn i s)) <= length (degap (firstn i' s)).
Proof.
  intros H. rewrite (firstn_skipn_slice _ s i i' H), degap_app, length_app. lia.
Qed.

(** The second loop in the first [n] positions of the pattern. *)
Lemma expand_fold_inv (aln_seq aln_base : str) (target_gaps : list nat) (n : nat) :
  length aln_base = length aln_seq ->
  (forall t, t < length aln_seq -> is_gap (nth t aln_seq gapc) = true ->
             is_gap (nth t aln_base gapc) = true) ->
  n <= length target_gaps ->
  exists out i,
    foldM (fun (st : str * nat) k =>
             let '(out, i_aln) := st in
             g <- py_get target_gaps k ;;
             expand_inner (length aln_seq) aln_seq aln_base
                          (out ++ repeat gapc g) i_aln)
          (seq 0 n) ([], 0)
    = Ok (out, i)
    /\ i <= length aln_seq
    /\ degap out = degap (firstn i aln_seq)
    /\ (i = length aln_seq \/ n <= length (degap (firstn i aln_seq))).
Proof.
  intros Hlen Hgap Hn.
  pose (P := fun (k : nat) (st : str * nat) =>
    snd st <= length aln_seq
    /\ degap (fst st) = degap (firstn (snd st) aln_seq)
    /\ (snd st = length aln_seq
        \/ k <= length (degap (firstn (snd st) aln_seq)))).
  match goal with
  | |- context [foldM ?f _ _] =>
      destruct (foldM_seq_inv _ P f n 0 ([], 0)) as ([out i] & E & HP)
  end.
  - unfold P. cbn [fst snd firstn]. split; [lia|]. split; [reflexivity|].
    right. cbn. lia.
  - intros k [out i] Hk (H1 & H2 & H3). cbn [fst snd] in *.
    rewrite (@py_get_nth _ target_gaps k 0) by lia. cbn [bind].
    destruct (expand_inner_spec aln_seq aln_base Hlen (length aln_seq) i
                (out ++ repeat gapc (nth k target_gaps 0)))
      as (i' & Ei & B1 & B2 & _); try lia.
    eexists. split; [exact Ei|]. unfold P. cbn [fst snd].
    split; [lia|]. split.
    + rewrite !degap_app, degap_repeat, app_nil_r, H2.
      rewrite (firstn_skipn_slice _ aln_seq i i') by lia.
      now rewrite degap_app.
    + destruct B2 as [B2|[B2 B3]]; [now left|]. right.
      destruct H3 as [H3|H3]; [lia|].
      assert (Hres : is_gap (nth (i' - 1) aln_seq gapc) = false).
      { destruct (is_gap (nth (i' - 1) aln_seq gapc)) eqn:Eg; [|reflexivity].
        rewrite Hgap in B3 by (lia || exact Eg). discriminate. }
      pose proof (degap_firstn_snoc aln_seq (i' - 1) ltac:(lia) Hres) as Hs.
      replace (i' - 1 + 1) with i' in Hs by lia.
      pose proof (degap_firstn_mono aln_seq i (i' - 1) ltac:(lia)). lia.
  - exists out, i. split; [exact E|]. exact HP.
Qed.

Lemma degap_firstn_all (s : str) (i : nat) :
  i <= length s ->
  length (degap s) <= length (degap (firstn i s)) ->
  degap (firstn i s) = degap s.
Proof.
  intros Hi Hle. rewrite <- (firstn_skipn i s) at 2.
  rewrite degap_app.
  rewrite <- (firstn_skipn i s) in Hle at 1. rewrite degap_app, length_app in Hle.
  destruct (degap (skipn i s)); [now rewrite app_nil_r | simpl in Hle; lia].
Qed.

Lemma expand_to_pattern_ok (base_ref aln_seq : str) (target_gaps : list nat) :
  length (degap aln_seq) <= length base_ref ->
  length base_ref < length target_gaps ->
  exists out,
    expand_to_pattern base_ref aln_seq target_gaps = Ok out
    /\ degap out = degap aln_seq.
Proof.
  intros Hr Ht. unfold expand_to_pattern.
  rewrite rebuild_ok by (simpl; exact Hr). cbn [bind app]. unfold range.
  rewrite Nat.sub_0_r.
  destruct (expand_fold_inv aln_seq (rebuilt base_ref 0 aln_seq) target_gaps
              (length base_ref))
    as (out & i & E & H1 & H2 & H3).
  - apply length_rebuilt.
  - intros t Ht' Hg. rewrite rebuilt_gap by assumption. reflexivity.
  - lia.
  - rewrite E. cbn [bind].
    rewrite (@py_get_nth _ target_gaps (length base_ref) 0) by lia. cbn [bind].
    eexists. split; [reflexivity|].
    rewrite degap_app, degap_repeat, app_nil_r, H2.
    destruct H3 as [->|H3]; [now rewrite firstn_all|].
    apply degap_firstn_all; lia.
Qed.

Lemma expand_to_pattern_short (base_ref aln_seq : str) (target_gaps : list nat) :
  length (degap aln_seq) <= length base_ref ->
  length target_gaps <= length base_ref ->
  expand_to_pattern base_ref aln_seq target_gaps = Raise IndexError.
Proof.
  intros Hr Ht. unfold expand_to_pattern.
  rewrite rebuild_ok by (simpl; exact Hr). cbn [bind app]. unfold range.
  rewrite Nat.sub_0_r.
  replace (length base_ref)
    with (length target_gaps + (length base_ref - length target_gaps)) at 1 by lia.
  rewrite seq_app, foldM_app.
  destruct (expand_fold_inv aln_seq (rebuilt base_ref 0 aln_seq) target_gaps
              (length target_gaps))
    as (out & i & E & H1 & H2 & H3).
  - apply length_rebuilt.
  - intros t Ht' Hg. rewrite rebuilt_gap by assumption. reflexivity.
  - lia.
  - rewrite E. cbn [bind Nat.add].
    destruct (length base_ref - length target_gaps) as [|d] eqn:Ed.
    + cbn [seq foldM bind]. rewrite py_get_out by lia. reflexivity.
    + cbn [seq foldM]. rewrite py_get_out by lia. reflexivity.
Qed.

(** X11. [expand_to_pattern] returns exactly when the row has at most as
    many residues as the base and the pattern has an entry for every
    residue of the base and one more; it then only adds and removes gap
    characters, so the residues of the row are kept, in order.  In every
    other case it raises IndexError. *)
Theorem expand_to_pattern_residues (base_ref aln_seq : str)
  (target_gaps : list nat) :
  let L := length base_ref in
  let r := length (degap aln_seq) in
  (r <= L /\ L < length target_gaps ->
   exists out,
     expand_to_pattern base_ref aln_seq target_gaps = Ok out
     /\ degap out = degap aln_seq)
  /\ (L < r \/ length target_gaps <= L ->
      expand_to_pattern base_ref aln_seq target_gaps = Raise IndexError).
Proof.
  intros L r. split.
  - intros [H1 H2]. now apply expand_to_pattern_ok.
  - intros H. destruct (Nat.lt_ge_cases L r) as [Hlt|Hge].
    + unfold expand_to_pattern. rewrite rebuild_fail; [reflexivity | lia |].
      simpl. exact Hlt.
    + destruct H as [H|H]; [lia|]. now apply expand_to_pattern_short.
Qed.

Lemma expand_to_pattern_residues_witness :
  length (degap (lit "MKV--")) <= length (lit "KVLA")
  /\ length (lit "KVLA") < length [1; 0; 0; 0; 2]
  /\ exists out,
       expand_to_pattern (lit "KVLA") (lit "MKV--") [1; 0; 0; 0; 2] = Ok out
       /\ degap out = degap (lit "MKV--").
Proof.
  assert (H1 : length (degap (lit "MKV--")) <= length (lit "KVLA"))
    by (cbn; lia).
  assert (H2 : length (lit "KVLA") < length [1; 0; 0; 0; 2]) by (cbn; lia).
  split; [exact H1|]. split; [exact H2|].
  exact (proj1 (expand_to_pattern_residues (lit "KVLA") (lit "MKV--")
                  [1; 0; 0; 0; 2]) (conj H1 H2)).
Defined.

(** The base itself, expanded to a pattern. *)
Lemma expand_base_spread (base_ref : str) (p : list nat) :
  gap_free base_ref -> length base_ref < length p ->
  expand_to_pattern base_ref base_ref p = Ok (spread p base_ref).
Proof.
  intros Hfree Hp. unfold expand_to_pattern.
  rewrite rebuild_ok
    by (simpl; rewrite (gap_free_degap Hfree); lia).
  cbn [bind app].
  pose proof (rebuilt_self base_ref base_ref [] eq_refl Hfree) as Hrb.
  cbn [length] in Hrb. rewrite Hrb. clear Hrb.
  unfold range. rewrite Nat.sub_0_r.
  pose (P := fun (k : nat) (st : str * nat) =>
    snd st = k
    /\ fst st ++ spread (skipn k p) (skipn k base_ref) = spread p base_ref).
  match goal with
  | |- context [foldM ?f _ _] =>
      destruct (foldM_seq_inv _ P f (length base_ref) 0 ([], 0))
        as ([out i] & E & HP)
  end.
  - split; reflexivity.
  - intros k [out i] Hk [H1 H2]. cbn [fst snd] in *. subst i.
    rewrite (@py_get_nth _ p k 0) by lia. cbn [bind].
    assert (Hres : is_gap (nth k base_ref gapc) = false).
    { unfold gap_free in Hfree. rewrite forallb_forall in Hfree.
      apply negb_true_iff. apply Hfree. apply nth_In. lia. }
    destruct (expand_inner_spec base_ref base_ref eq_refl (length base_ref) k
                (out ++ repeat gapc (nth k p 0)))
      as (i' & Ei & _ & _ & B3); try lia.
    rewrite (B3 ltac:(lia) Hres) in Ei.
    eexists. split; [exact Ei|]. split; [reflexivity|]. cbn [fst].
    replace (k + 1 - k) with 1 by lia.
    rewrite (firstn_1_skipn _ base_ref k gapc) by lia.
    rewrite <- H2. rewrite <- !app_assoc. f_equal.
    rewrite (skipn_cons_nth _ base_ref k gapc) by lia.
    cbn [spread]. rewrite nth_skipn_add, Nat.add_0_r, tl_skipn. reflexivity.
  - rewrite E. cbn [bind]. destruct HP as [H1 H2]. cbn [fst snd Nat.add] in *.
    rewrite (@py_get_nth _ p (length base_ref) 0) by lia. cbn [bind].
    f_equal. rewrite <- H2. f_equal.
    rewrite skipn_all. cbn [spread].
    now rewrite nth_skipn_add, Nat.add_0_r.
Qed.

(** X12. The gap pattern of an aligned base codes the row: for a gap-free
    base and a row that is the base with gap characters inserted, the
    pattern has one entry per residue of the base and one more, the entries
    add up to the number of inserted gaps, and expanding the base to the
    pattern gives the row back. *)
Theorem gap_pattern_roundtrip (base_ref aln_base : str)
  (Hfree : gap_free base_ref) (Haln : gapped base_ref aln_base) :
  let p := gap_pattern_from_aligned_base base_ref aln_base in
  length p = length base_ref + 1
  /\ list_sum p + length base_ref = length aln_base
  /\ expand_to_pattern base_ref base_ref p = Ok aln_base.
Proof.
  intros p. pose proof (gap_pattern_length base_ref aln_base) as Hlen.
  fold p in Hlen. split; [exact Hlen|].
  pose proof (gap_pattern_spread base_ref aln_base Hfree Haln) as Hs.
  fold p in Hs. split.
  - transitivity (length (spread p base_ref)); [|now rewrite Hs].
    rewrite length_spread, <- Hlen. now rewrite firstn_all.
  - rewrite expand_base_spread by (assumption || lia). now rewrite Hs.
Qed.

Lemma gap_pattern_roundtrip_witness :
  gap_free (lit "KVLA") /\ gapped (lit "KVLA") (lit "-KV-LA--")
  /\ gap_pattern_from_aligned_base (lit "KVLA") (lit "-KV-LA--") = [1; 0; 1; 0; 2]
  /\ expand_to_pattern (lit "KVLA") (lit "KVLA")
       (gap_pattern_from_aligned_base (lit "KVLA") (lit "-KV-LA--"))
     = Ok (lit "-KV-LA--").
Proof.
  assert (Hfree : gap_free (lit "KVLA")) by reflexivity.
  assert (Haln : gapped (lit "KVLA") (lit "-KV-LA--"))
    by (repeat first [apply gapped_ins | apply gapped_keep | apply gapped_nil]).
  split; [exact Hfree|]. split; [exact Haln|]. split; [reflexivity|].
  exact (proj2 (proj2 (gap_pattern_roundtrip (lit "KVLA") (lit "-KV-LA--")
                         Hfree Haln))).
Defined.

(* ===================================================================== *)
(** * The center-star builder: what it does keep                           *)
(* ===================================================================== *)

Lemma center_fold (all : list entry) :
  forall m start best bl,
    start + m = length all -> best < start ->
    bl = length (snd (nth best all ([], []))) ->
    (forall j, j < start -> length (snd (nth j all ([], []))) <= bl) ->
    (forall j, j < best -> length (snd (nth j all ([], []))) < bl) ->
    exists c,
      fst (fold_left
             (fun (best : nat * nat) (ie : nat * entry) =>
                let len := length (snd (snd ie)) in
                if snd best <? len then (fst ie, len) else best)
             (combine (seq start m) (skipn start all)) (best, bl)) = c
      /\ c < length all
      /\ (forall j, j < length all ->
            length (snd (nth j all ([], []))) <= length (snd (nth c all ([], []))))
      /\ (forall j, j < c ->
            length (snd (nth j all ([], []))) < length (snd (nth c all ([], [])))).
Proof.
  induction m as [|m IH]; intros start best bl Hm Hb Hbl Hle Hlt.
  - exists best. cbn [seq combine fold_left fst]. split; [reflexivity|].
    split; [lia|]. subst bl. split; [|exact Hlt].
    intros j Hj. apply Hle. lia.
  - rewrite (skipn_cons_nth _ all start ([], [])) by lia.
    cbn [seq combine fold_left fst snd].
    replace (S start) with (start + 1) by lia.
    destruct (bl <? length (snd (nth start all ([], [])))) eqn:E.
    + apply Nat.ltb_lt in E. apply IH; [lia | lia | reflexivity | |].
      * intros j Hj. destruct (Nat.eq_dec j start) as [->|]; [lia|].
        specialize (Hle j). lia.
      * intros j Hj. specialize (Hle j). lia.
    + apply Nat.ltb_ge in E. apply IH; [lia | lia | exact Hbl | | exact Hlt].
      intros j Hj. destruct (Nat.eq_dec j start) as [->|]; [lia|].
      apply Hle. lia.
Qed.

Lemma center_index_spec (entries : list entry) :
  entries <> [] ->
  exists c,
    center_index entries = Ok c
    /\ c < length entries
    /\ (forall j, j < length entries ->
          length (snd (nth j entries ([], [])))
          <= length (snd (nth c entries ([], []))))
    /\ (forall j, j < c ->
          length (snd (nth j entries ([], [])))
          < length (snd (nth c entries ([], [])))).
Proof.
  intros Hne. destruct entries as [|e0 es]; [congruence|].
  unfold center_index, enumerate. cbn [length seq combine].
  destruct (center_fold (e0 :: es) (length es) 1 0 (length (snd e0)))
    as (c & Ec & H).
  - simpl. lia.
  - lia.
  - reflexivity.
  - intros j Hj. replace j with 0 by lia. apply Nat.le_refl.
  - intros j Hj. lia.
  - exists c. split; [|exact H]. f_equal. exact Ec.
Qed.

(** X13. [center_index], the choice of the center of the star, raises
    ValueError on an empty list and otherwise returns the first index among
    the entries with the longest residue string. *)
Theorem center_index_first_longest (entries : list entry) :
  match entries with
  | [] => center_index entries = Raise ValueError
  | _ =>
      exists c,
        center_index entries = Ok c
        /\ c < length entries
        /\ (forall j, j < length entries ->
              length (snd (nth j entries ([], [])))
              <= length (snd (nth c entries ([], []))))
        /\ (forall j, j < c ->
              length (snd (nth j entries ([], [])))
              < length (snd (nth c entries ([], []))))
  end.
Proof.
  destruct entries as [|e0 es]; [reflexivity|].
  apply center_index_spec. discriminate.
Qed.

(* --------------------------------------------------------------------- *)
(** ** The dictionary of positions and the final sort                      *)
(* --------------------------------------------------------------------- *)

Lemma str_eqb_eq (x y : str) : str_eqb x y = true <-> x = y.
Proof.
  revert y. induction x as [|c x IH]; intros [|d y]; simpl;
    try (split; [discriminate | discriminate]); [tauto|].
  rewrite andb_true_iff, Ascii.eqb_eq, IH. split.
  - intros [-> ->]. reflexivity.
  - intros H. injection H as -> ->. auto.
Qed.

Lemma str_eqb_neq (x y : str) : x <> y -> str_eqb x y = false.
Proof.
  intros H. destruct (str_eqb x y) eqn:E; [|reflexivity].
  apply str_eqb_eq in E. contradiction.
Qed.

Lemma dict_get_set_eq (V : Type) (d : list (str * V)) (k : str) (v : V) :
  dict_get (dict_set d k v) k = Ok v.
Proof.
  induction d as [|[k' v'] d IH]; simpl.
  - now rewrite (proj2 (str_eqb_eq k k) eq_refl).
  - destruct (str_eqb k' k) eqn:E; simpl; rewrite E; [reflexivity | exact IH].
Qed.

Lemma dict_get_set_neq (V : Type) (d : list (str * V)) (k k2 : str) (v : V) :
  k <> k2 -> dict_get (dict_set d k v) k2 = dict_get d k2.
Proof.
  intros Hne. induction d as [|[k' v'] d IH]; simpl.
  - now rewrite (str_eqb_neq k k2 Hne).
  - destruct (str_eqb k' k) eqn:E; simpl.
    + apply str_eqb_eq in E. subst k'. now rewrite (str_eqb_neq k k2 Hne).
    + destruct (str_eqb k' k2); [reflexivity | exact IH].
Qed.

(** Every label of the list has a position in the dictionary [order], the
    position of an entry with that label. *)
Lemma order_get (entries : list entry) (i : nat) :
  i < length entries ->
  exists k,
    dict_get (fold_left (fun d (ih : nat * entry) =>
                           dict_set d (fst (snd ih)) (fst ih))
                        (enumerate entries) [])
             (fst (nth i entries ([], []))) = Ok k
    /\ k < length entries
    /\ fst (nth k entries ([], [])) = fst (nth i entries ([], [])).
Proof.
  pose (P := fun (n : nat) (d : list (str * nat)) =>
    forall i, i < n ->
      exists k, dict_get d (fst (nth i entries ([], []))) = Ok k
                /\ k < n
                /\ fst (nth k entries ([], [])) = fst (nth i entries ([], []))).
  assert (H : P (length entries)
                (fold_left (fun d (ih : nat * entry) =>
                              dict_set d (fst (snd ih)) (fst ih))
                           (enumerate entries) [])).
  { apply fold_enumerate_inv.
    - intros j Hj. lia.
    - intros k x d Hx Hd j Hj. cbn [fst snd].
      assert (Hk : k < length entries) by (apply nth_error_Some; congruence).
      assert (Hxk : fst (nth k entries ([], [])) = fst x).
      { apply (nth_error_nth _ _ ([], [])) in Hx. now apply (f_equal fst) in Hx. }
      destruct (list_eq_dec ascii_dec (fst x) (fst (nth j entries ([], []))))
        as [Heq|Hne].
      + exists k. rewrite <- Heq, dict_get_set_eq.
        split; [reflexivity|]. split; [lia | exact Hxk].
      + rewrite (dict_get_set_neq _ d _ _ k Hne).
        assert (Hjk : j < k).
        { destruct (Nat.eq_dec j k) as [->|]; [|lia]. exfalso. apply Hne.
          symmetry. exact Hxk. }
        destruct (Hd j Hjk) as (k' & E & Hk' & Hf).
        exists k'. split; [exact E|]. split; [lia | exact Hf]. }
  intros Hi. apply (H i Hi).
Qed.

Lemma order_get_in (entries : list entry) (h : str) :
  In h (map fst entries) ->
  exists k,
    dict_get (fold_left (fun d (ih : nat * entry) =>
                           dict_set d (fst (snd ih)) (fst ih))
                        (enumerate entries) [])
             h = Ok k
    /\ k < length entries
    /\ fst (nth k entries ([], [])) = h.
Proof.
  intros Hin. apply in_map_iff in Hin. destruct Hin as (e & <- & He).
  destruct (In_nth _ _ ([], []) He) as (i & Hi & <-).
  apply order_get. exact Hi.
Qed.

Lemma insert_by_key_perm (A : Type) (x : nat * A) (l : list (nat * A)) :
  Permutation (insert_by_key x l) (x :: l).
Proof.
  induction l as [|y l IH]; simpl; [apply Permutation_refl|].
  destruct (fst y <? fst x); [|apply Permutation_refl].
  apply Permutation_trans with (y :: x :: l);
    [now apply perm_skip | apply perm_swap].
Qed.

Lemma sort_by_key_perm (A : Type) (l : list (nat * A)) :
  Permutation (sort_by_key l) l.
Proof.
  induction l as [|x l IH]; simpl; [apply Permutation_refl|].
  apply Permutation_trans with (x :: sort_by_key l);
    [apply insert_by_key_perm | now apply perm_skip].
Qed.

(** The stable sort leaves a list alone whose keys do not decrease. *)
Lemma sort_by_key_sorted (A : Type) (l : list (nat * A)) :
  StronglySorted (fun x y => fst x <= fst y) l -> sort_by_key l = l.
Proof.
  induction 1 as [|x l Hs IH Hall]; [reflexivity|].
  cbn [sort_by_key fold_right]. fold (sort_by_key l). rewrite IH.
  destruct l as [|y l']; [reflexivity|]. cbn [insert_by_key].
  inversion Hall as [|? ? Hxy _]; subst.
  assert (E : (fst y <? fst x) = false) by (apply Nat.ltb_ge; exact Hxy).
  now rewrite E.
Qed.

Lemma sorted_by_keys (A : Type) (l : list (nat * A)) :
  StronglySorted lt (map fst l) ->
  StronglySorted (fun x y => fst x <= fst y) l.
Proof.
  induction l as [|x l IH]; intros H; [constructor|].
  cbn [map] in H. inversion H as [|? ? Hs Hall]; subst.
  constructor; [now apply IH|].
  apply Forall_forall. intros y Hy. rewrite Forall_forall in Hall.
  apply Nat.lt_le_incl. apply Hall. now apply in_map.
Qed.

Lemma map_fst_combine (A B : Type) (l : list A) (r : list B) :
  length l = length r -> map fst (combine l r) = l.
Proof.
  revert r. induction l as [|x l IH]; intros [|y r] H; try discriminate;
    [reflexivity|].
  cbn [combine map fst]. f_equal. apply IH. simpl in H. lia.
Qed.

Lemma ungapped_combine (es : list entry) :
  forall seqs,
    map degap seqs = map (fun e => degap (snd e)) es ->
    map ungapped (combine (map fst es) seqs) = map ungapped es.
Proof.
  induction es as [|e es IH]; intros [|s seqs] H; try discriminate;
    [reflexivity|].
  cbn [map combine] in *. injection H as H1 H2.
  unfold ungapped at 1 3. cbn [fst snd]. rewrite H1. f_equal. now apply IH.
Qed.

(* --------------------------------------------------------------------- *)
(** ** The main loop                                                       *)
(* --------------------------------------------------------------------- *)

Lemma expand_all (base_ref : str) (target : list nat) (seqs : list str) :
  Forall (fun s => length (degap s) <= length base_ref) seqs ->
  length base_ref < length target ->
  exists seqs1,
    mapM (fun s_prev => expand_to_pattern base_ref s_prev target) seqs
    = Ok seqs1
    /\ map degap seqs1 = map degap seqs.
Proof.
  intros Hall Ht. induction Hall as [|s seqs Hs _ IH].
  - exists []. split; reflexivity.
  - destruct (expand_to_pattern_ok base_ref s target Hs Ht) as (o & Eo & Ho).
    destruct IH as (seqs1 & E1 & H1).
    exists (o :: seqs1). cbn [mapM]. rewrite Eo. cbn [bind]. rewrite E1.
    cbn [bind map]. split; [reflexivity|]. now rewrite Ho, H1.
Qed.

Lemma residues_of_map (base_len : nat) (seqs seqs1 : list str) :
  map degap seqs1 = map degap seqs ->
  Forall (fun s => length (degap s) <= base_len) seqs ->
  Forall (fun s => length (degap s) <= base_len) seqs1.
Proof.
  revert seqs. induction seqs1 as [|s1 seqs1 IH]; intros [|s seqs] H Hall;
    try discriminate; [constructor|].
  cbn [map] in H. injection H as H1 H2. inversion Hall; subst.
  constructor; [now rewrite H1 | now apply (IH seqs)].
Qed.

Lemma center_star_loop (base_ref : str) (mtch mismatch gap : Z) :
  forall es master hs seqs,
    (forall e, In e es -> length (snd e) <= length base_ref) ->
    length master = length base_ref + 1 ->
    Forall (fun s => length (degap s) <= length base_ref) seqs ->
    exists master' seqs',
      foldM (center_star_step base_ref mtch mismatch gap) es (master, hs, seqs)
      = Ok (master', hs ++ map fst es, seqs')
      /\ map degap seqs' = map degap seqs ++ map (fun e => degap (snd e)) es.
Proof.
  induction es as [|[h seq] es IH]; intros master hs seqs Hlen Hm Hres.
  - exists master, seqs. cbn [foldM map]. now rewrite !app_nil_r.
  - cbn [foldM]. unfold center_star_step at 1.
    destruct (nw_align_inserts_gaps base_ref seq mtch mismatch gap)
      as (A & B & Enw & _ & _ & HB).
    rewrite Enw. cbn [bind].
    set (merged := merge_gap_patterns_max master
                     (gap_pattern_from_aligned_base base_ref A)).
    assert (Hmerged : length merged = length base_ref + 1).
    { unfold merged. rewrite merge_length, gap_pattern_length, Hm. lia. }
    destruct (expand_all base_ref merged seqs Hres) as (seqs1 & E1 & H1); [lia|].
    rewrite E1. cbn [bind].
    assert (HdB : degap B = degap seq) by exact (gapped_degap HB).
    assert (Hseq : length (degap seq) <= length base_ref).
    { pose proof (length_degap_le seq).
      specialize (Hlen (h, seq) (or_introl eq_refl)). simpl in Hlen. lia. }
    destruct (expand_to_pattern_ok base_ref B merged) as (s_new & E2 & H2);
      [rewrite HdB; exact Hseq | lia |].
    rewrite E2. cbn [bind].
    destruct (IH merged (hs ++ [h]) (seqs1 ++ [s_new]))
      as (master' & seqs' & E & H).
    + intros e He. apply Hlen. now right.
    + exact Hmerged.
    + apply Forall_app. split.
      * exact (residues_of_map _ _ _ H1 Hres).
      * constructor; [|constructor]. rewrite H2, HdB. exact Hseq.
    + exists master', seqs'. rewrite E. split.
      * cbn [map fst]. now rewrite <- app_assoc.
      * rewrite H, map_app, H1. cbn [map snd]. rewrite H2, HdB.
        now rewrite <- app_assoc.
Qed.

(** What [center_star_align] returns on a non-empty list. *)
Lemma center_star_align_ok (entries : list entry) (mtch mismatch gap : Z) :
  entries <> [] ->
  exists seqs keyf,
    map degap seqs = map (fun e => degap (snd e)) entries
    /\ (forall i, i < length entries ->
          exists k, keyf (fst (nth i entries ([], []))) = k
                    /\ k < length entries
                    /\ fst (nth k entries ([], []))
                       = fst (nth i entries ([], [])))
    /\ center_star_align entries mtch mismatch gap
       = Ok (map snd (sort_by_key
                        (map (fun x : entry => (keyf (fst x), x))
                             (combine (map fst entries) seqs)))).
Proof.
  intros Hne.
  destruct (center_index_spec entries Hne) as (c & Ec & Hc & Hmax & _).
  unfold center_star_align. rewrite Ec. cbn [bind].
  rewrite (@py_get_nth _ entries c ([], [])) by exact Hc. cbn [bind].
  set (base_ref := snd (nth c entries ([], []))).
  destruct (center_star_loop base_ref mtch mismatch gap entries
              (repeat 0 (length base_ref + 1)) [] [])
    as (master' & seqs & E & Hd).
  - intros e He. destruct (In_nth _ _ ([], []) He) as (j & Hj & <-).
    now apply Hmax.
  - apply repeat_length.
  - constructor.
  - rewrite E. cbn [bind app map] in *.
    set (order := fold_left (fun d (ih : nat * entry) =>
                               dict_set d (fst (snd ih)) (fst ih))
                            (enumerate entries) []).
    set (keyf := fun h => match dict_get order h with Ok k => k | _ => 0 end).
    exists seqs, keyf. split; [exact Hd|]. split.
    + intros i Hi. destruct (order_get entries i Hi) as (k & Ek & Hk & Hf).
      exists k. unfold keyf, order. rewrite Ek. auto.
    + rewrite (mapM_ok (fun x : entry => k <- dict_get order (fst x) ;; Ok (k, x))
                 (fun x : entry => (keyf (fst x), x))); [reflexivity|].
      intros [h s] Hx. apply in_combine_l in Hx. cbn [fst].
      destruct (order_get_in entries h Hx) as (k & Ek & _).
      fold order in Ek. unfold keyf. now rewrite Ek.
Qed.

(** X14. On a non-empty list [center_star_align] returns, whatever the
    scores: it keeps every label with the residues of its entry, each row
    being the input row with gap characters inserted or removed only.  The
    rows come back as a rearrangement of the input, and in the order of the
    input when the labels are pairwise distinct.  On the empty list it
    raises ValueError. *)
Theorem center_star_align_preserves (entries : list entry)
  (mtch mismatch gap : Z) :
  match entries with
  | [] => center_star_align entries mtch mismatch gap = Raise ValueError
  | _ =>
      exists out,
        center_star_align entries mtch mismatch gap = Ok out
        /\ Permutation (map ungapped out) (map ungapped entries)
        /\ (NoDup (map fst entries) -> map ungapped out = map ungapped entries)
  end.
Proof.
  destruct entries as [|e0 es]; [reflexivity|].
  set (entries := e0 :: es).
  destruct (center_star_align_ok entries mtch mismatch gap)
    as (seqs & keyf & Hd & Hkey & E); [discriminate|].
  eexists. split; [exact E|].
  set (out0 := combine (map fst entries) seqs) in *.
  set (keyed := map (fun x : entry => (keyf (fst x), x)) out0) in *.
  assert (Hsnd : map snd keyed = out0).
  { unfold keyed. rewrite map_map. cbn [snd]. apply map_id. }
  assert (Hout0 : map ungapped out0 = map ungapped entries)
    by (apply ungapped_combine; exact Hd).
  split.
  - rewrite <- Hout0, <- Hsnd. apply Permutation_map, Permutation_map.
    apply sort_by_key_perm.
  - intros Hnd. rewrite sort_by_key_sorted; [now rewrite Hsnd|].
    apply sorted_by_keys.
    assert (Hlen : length (map fst entries) = length seqs).
    { rewrite length_map.
      rewrite <- (length_map degap seqs), Hd. now rewrite length_map. }
    assert (Hkeys : map fst keyed = seq 0 (length entries)).
    { unfold keyed. rewrite map_map. cbn [fst].
      transitivity (map keyf (map fst out0)); [symmetry; apply map_map|].
      unfold out0.
      rewrite (map_fst_combine _ _ _ _ Hlen).
      apply nat_list_ext; [now rewrite !length_map, length_seq|].
      intros i. destruct (Nat.lt_ge_cases i (length entries)) as [Hi|Hi].
      - rewrite (nth_map_in _ _ keyf (map fst entries) i [] 0)
          by (now rewrite length_map).
        rewrite (nth_map_in _ _ fst entries i ([], []) []) by exact Hi.
        rewrite seq_nth by exact Hi. cbn [Nat.add].
        destruct (Hkey i Hi) as (k & Ek & Hk & Hf).
        transitivity k; [exact Ek|].
        pose proof (nth_map_in _ _ fst entries k ([], []) [] Hk) as Mk.
        pose proof (nth_map_in _ _ fst entries i ([], []) [] Hi) as Mi.
        apply (proj1 (NoDup_nth (map fst entries) []) Hnd);
          try (now rewrite length_map).
        exact (eq_trans Mk (eq_trans Hf (eq_sym Mi))).
      - rewrite !nth_overflow; [reflexivity | |];
          rewrite ?length_seq, ?length_map; exact Hi. }
    rewrite Hkeys. apply seq_sorted.
Qed.

Lemma center_star_align_preserves_witness :
  NoDup (map fst [(lit "x", lit "MKV"); (lit "y", lit "KVLA")])
  /\ exists out,
       center_star_align [(lit "x", lit "MKV"); (lit "y", lit "KVLA")]
                         default_match default_mismatch default_gap = Ok out
       /\ map ungapped out
          = map ungapped [(lit "x", lit "MKV"); (lit "y", lit "KVLA")].
Proof.
  assert (Hnd : NoDup (map fst [(lit "x", lit "MKV"); (lit "y", lit "KVLA")])).
  { repeat constructor; [intros [H|[]]; cbv in H; discriminate | intros []]. }
  split; [exact Hnd|].
  destruct (center_star_align_preserves
              [(lit "x", lit "MKV"); (lit "y", lit "KVLA")]
              default_match default_mismatch default_gap) as (out & E & _ & H).
  exists out. split; [exact E | exact (H Hnd)].
Defined.

(* ===================================================================== *)
(** * The pairwise aligner: the alignment returned is an optimal one       *)
(* ===================================================================== *)

(** The traceback returns, and follows the directions of the trace
    matrix. *)
Lemma nw_traceback_traced (a b : str) (trace : mat) :
  dims trace (length a) (length b) ->
  (forall i, 1 <= i <= length a -> mget trace i 0 = 2%Z) ->
  (forall j, 1 <= j <= length b -> mget trace 0 j = 3%Z) ->
  (forall i j, 1 <= i <= length a -> 1 <= j <= length b ->
               mget trace i j = 1%Z \/ mget trace i j = 2%Z \/ mget trace i j = 3%Z) ->
  forall fuel i j A B,
    i <= length a -> j <= length b -> i + j <= fuel ->
    exists X Y,
      nw_traceback fuel a b trace (Z.of_nat i) (Z.of_nat j) A B
      = Ok (rev (A ++ X), rev (B ++ Y))
      /\ traced a b trace i j X Y.
Proof.
  intros Hd Hcol Hrow Hin.
  induction fuel as [|fuel IH]; intros i j A B Hi Hj Hf.
  - assert (i = 0) by lia. assert (j = 0) by lia. subst. simpl.
    exists [], []. rewrite !app_nil_r. split; [reflexivity | constructor].
  - destruct (Nat.eq_dec (i + j) 0) as [Hz|Hnz].
    + assert (i = 0) by lia. assert (j = 0) by lia. subst.
      change (Z.of_nat 0) with 0%Z. rewrite nw_traceback_done.
      exists [], []. rewrite !app_nil_r. split; [reflexivity | constructor].
    + rewrite nw_traceback_step
        by (apply orb_true_iff; destruct i; [right | left]; apply Z.ltb_lt; lia).
      destruct (@dims_row trace (length a) (length b) i Hd) as [Hr1 Hr2]; [lia|].
      rewrite (@py_index_nat _ trace i [] Hr1). cbn [bind].
      rewrite (@py_index_nat _ (nth i trace []) j 0%Z) by lia. cbn [bind].
      change (nth j (nth i trace []) 0%Z) with (mget trace i j).
      assert (Ht : (mget trace i j = 1%Z /\ 1 <= i /\ 1 <= j)
                   \/ (mget trace i j = 2%Z /\ 1 <= i)
                   \/ (mget trace i j = 3%Z /\ 1 <= j)).
      { destruct i as [|i].
        - right. right. split; [apply Hrow|]; lia.
        - destruct j as [|j].
          + right. left. split; [apply Hcol|]; lia.
          + destruct (Hin (S i) (S j)) as [H|[H|H]]; lia. }
      destruct Ht as [(Ht & Hi1 & Hj1)|[(Ht & Hi1)|(Ht & Hj1)]]; rewrite Ht;
        cbn [Z.eqb Pos.eqb].
      * replace (Z.of_nat i - 1)%Z with (Z.of_nat (i - 1)) by lia.
        replace (Z.of_nat j - 1)%Z with (Z.of_nat (j - 1)) by lia.
        rewrite (@py_index_nat _ a (i - 1) gapc) by lia. cbn [bind].
        rewrite (@py_index_nat _ b (j - 1) gapc) by lia. cbn [bind].
        destruct (IH (i - 1) (j - 1) (A ++ [nth (i - 1) a gapc])
                     (B ++ [nth (j - 1) b gapc])) as (X & Y & E & HT);
          try lia.
        exists (nth (i - 1) a gapc :: X), (nth (j - 1) b gapc :: Y).
        rewrite E, <- !app_assoc. split; [reflexivity|].
        destruct i as [|i]; [lia|]. destruct j as [|j]; [lia|].
        replace (S i - 1) with i in * by lia.
        replace (S j - 1) with j in * by lia.
        now constructor.
      * replace (Z.of_nat i - 1)%Z with (Z.of_nat (i - 1)) by lia.
        rewrite (@py_index_nat _ a (i - 1) gapc) by lia. cbn [bind].
        destruct (IH (i - 1) j (A ++ [nth (i - 1) a gapc]) (B ++ [gapc]))
          as (X & Y & E & HT); try lia.
        exists (nth (i - 1) a gapc :: X), (gapc :: Y).
        rewrite E, <- !app_assoc. split; [reflexivity|].
        destruct i as [|i]; [lia|].
        replace (S i - 1) with i in * by lia.
        now constructor.
      * replace (Z.of_nat j - 1)%Z with (Z.of_nat (j - 1)) by lia.
        rewrite (@py_index_nat _ b (j - 1) gapc) by lia. cbn [bind].
        destruct (IH i (j - 1) (A ++ [gapc]) (B ++ [nth (j - 1) b gapc]))
          as (X & Y & E & HT); try lia.
        exists (gapc :: X), (nth (j - 1) b gapc :: Y).
        rewrite E, <- !app_assoc. split; [reflexivity|].
        destruct j as [|j]; [lia|].
        replace (S j - 1) with j in * by lia.
        now constructor.
Qed.

Lemma firstn_S_snoc (A : Type) (l : list A) (k : nat) (d : A) :
  k < length l -> firstn (S k) l = firstn k l ++ [nth k l d].
Proof.
  intros H. replace (S k) with (k + 1) by lia. now apply firstn_snoc.
Qed.

(** The rows a path spells, whatever the strings hold. *)
Lemma traced_rows (a b : str) (trace : mat) (i j : nat) (X Y : str) :
  traced a b trace i j X Y ->
  i <= length a -> j <= length b ->
  length X = length Y
  /\ gapped (firstn i a) (rev X) /\ gapped (firstn j b) (rev Y)
  /\ Nat.max i j <= length X <= i + j.
Proof.
  induction 1 as [|i j X Y Ht HT IH|i j X Y Ht HT IH|i j X Y Ht HT IH];
    intros Hi Hj.
  - cbn. split; [reflexivity|]. split; [constructor|]. split; [constructor | lia].
  - destruct IH as (H1 & H2 & H3 & H4); try lia.
    rewrite (firstn_S_snoc _ a i gapc), (firstn_S_snoc _ b j gapc) by lia.
    cbn [rev length]. split; [lia|].
    split; [now apply gapped_snoc_keep|].
    split; [now apply gapped_snoc_keep | lia].
  - destruct IH as (H1 & H2 & H3 & H4); try lia.
    rewrite (firstn_S_snoc _ a i gapc) by lia.
    cbn [rev length]. split; [lia|].
    split; [now apply gapped_snoc_keep|].
    split; [now apply gapped_snoc_ins | lia].
  - destruct IH as (H1 & H2 & H3 & H4); try lia.
    rewrite (firstn_S_snoc _ b j gapc) by lia.
    cbn [rev length]. split; [lia|].
    split; [now apply gapped_snoc_ins|].
    split; [now apply gapped_snoc_keep | lia].
Qed.

Lemma nw_align_traced (a b : str) (mtch mismatch gap : Z) :
  exists X Y,
    nw_align a b mtch mismatch gap = Ok (rev X, rev Y)
    /\ traced a b (snd (nw_matrices a b mtch mismatch gap))
              (length a) (length b) X Y.
Proof.
  destruct (nw_matrices_inv a b mtch mismatch gap)
    as (_ & Hd & (_ & _ & Hc & Hr) & Hcells).
  assert (Hin : forall i j, 1 <= i <= length a -> 1 <= j <= length b ->
            mget (snd (nw_matrices a b mtch mismatch gap)) i j = 1%Z
            \/ mget (snd (nw_matrices a b mtch mismatch gap)) i j = 2%Z
            \/ mget (snd (nw_matrices a b mtch mismatch gap)) i j = 3%Z).
  { intros i j Hi Hj. destruct (Hcells i j Hi Hj) as [_ Ht]; [lia|].
    unfold tie_break in Ht. tauto. }
  destruct (nw_traceback_traced a b _ Hd Hc Hr Hin (length a + length b)
              (length a) (length b) [] [])
    as (X & Y & E & HT); try lia.
  exists X, Y. unfold nw_align. rewrite E. split; [reflexivity | exact HT].
Qed.

(** X15. [nw_align] returns on every pair of strings and for all scores:
    its two results have one length, each is its input with gap characters
    inserted, and that length lies between the length of the longer input
    and the sum of the two lengths. *)
Theorem nw_align_total (a b : str) (mtch mismatch gap : Z) :
  exists A B,
    nw_align a b mtch mismatch gap = Ok (A, B)
    /\ length A = length B
    /\ gapped a A /\ gapped b B
    /\ Nat.max (length a) (length b) <= length A <= length a + length b.
Proof.
  destruct (nw_align_traced a b mtch mismatch gap) as (X & Y & E & HT).
  destruct (traced_rows a b _ _ _ X Y HT) as (H1 & H2 & H3 & H4); try lia.
  exists (rev X), (rev Y). rewrite !firstn_all in *. rewrite !length_rev.
  auto.
Qed.

(* --------------------------------------------------------------------- *)
(** ** Scores                                                              *)
(* --------------------------------------------------------------------- *)

Lemma alignment_score_app (mtch mismatch gap : Z) (X1 Y1 X2 Y2 : str) :
  length X1 = length Y1 ->
  alignment_score mtch mismatch gap (X1 ++ X2) (Y1 ++ Y2)
  = (alignment_score mtch mismatch gap X1 Y1
     + alignment_score mtch mismatch gap X2 Y2)%Z.
Proof.
  revert Y1. induction X1 as [|x X1 IH]; intros [|y Y1] H; try discriminate.
  - reflexivity.
  - cbn [app alignment_score]. rewrite IH by (simpl in H; lia). lia.
Qed.

Lemma alignment_score_rev (mtch mismatch gap : Z) (X Y : str) :
  length X = length Y ->
  alignment_score mtch mismatch gap (rev X) (rev Y)
  = alignment_score mtch mismatch gap X Y.
Proof.
  revert Y. induction X as [|x X IH]; intros [|y Y] H; try discriminate.
  - reflexivity.
  - cbn [rev]. rewrite alignment_score_app by (rewrite !length_rev; simpl in H; lia).
    rewrite IH by (simpl in H; lia). cbn [alignment_score]. lia.
Qed.

Lemma combine_app_eq (A B : Type) (l1 l2 : list A) (r1 r2 : list B) :
  length l1 = length r1 ->
  combine (l1 ++ l2) (r1 ++ r2) = combine l1 r1 ++ combine l2 r2.
Proof.
  revert r1. induction l1 as [|x l1 IH]; intros [|y r1] H; try discriminate.
  - reflexivity.
  - cbn [app combine]. f_equal. apply IH. simpl in H. lia.
Qed.

Lemma combine_rev (A B : Type) (l : list A) (r : list B) :
  length l = length r -> combine (rev l) (rev r) = rev (combine l r).
Proof.
  revert r. induction l as [|x l IH]; intros [|y r] H; try discriminate.
  - reflexivity.
  - cbn [rev combine]. rewrite combine_app_eq by (rewrite !length_rev; simpl in H; lia).
    rewrite IH by (simpl in H; lia). reflexivity.
Qed.

Lemma no_gap_column_rev (X Y : str) :
  length X = length Y -> no_gap_column X Y -> no_gap_column (rev X) (rev Y).
Proof.
  intros H Hn. unfold no_gap_column in *. rewrite combine_rev by exact H.
  now apply Forall_rev.
Qed.

Lemma gap_free_nth (s : str) (k : nat) :
  gap_free s -> k < length s -> is_gap (nth k s gapc) = false.
Proof.
  intros Hfree Hk. unfold gap_free in Hfree. rewrite forallb_forall in Hfree.
  apply negb_true_iff. apply Hfree. now apply nth_In.
Qed.

Lemma degap_snoc (s : str) (c : ascii) :
  degap (s ++ [c]) = if is_gap c then degap s else degap s ++ [c].
Proof.
  rewrite degap_app. unfold degap at 2. cbn [filter].
  destruct (is_gap c); cbn [negb]; [apply app_nil_r | reflexivity].
Qed.

(** What a path spells between gap-free strings, and what it scores. *)
Lemma traced_alignment (a b : str) (mtch mismatch gap : Z) :
  gap_free a -> gap_free b ->
  let score := fst (nw_matrices a b mtch mismatch gap) in
  let trace := snd (nw_matrices a b mtch mismatch gap) in
  forall i j X Y,
    traced a b trace i j X Y ->
    i <= length a -> j <= length b ->
    degap (rev X) = firstn i a /\ degap (rev Y) = firstn j b
    /\ no_gap_column X Y
    /\ alignment_score mtch mismatch gap X Y = mget score i j.
Proof.
  intros Ha Hb score trace.
  destruct (nw_matrices_inv a b mtch mismatch gap)
    as (_ & _ & (Hc0 & Hr0 & _ & _) & Hcells).
  fold score in Hc0, Hr0.
  assert (Hcell : forall i j, 1 <= i <= length a -> 1 <= j <= length b ->
            cell_ok a b mtch mismatch gap (score, trace) i j).
  { intros i j Hi Hj.
    replace (score, trace) with (nw_matrices a b mtch mismatch gap)
      by (unfold score, trace; now destruct (nw_matrices a b mtch mismatch gap)).
    apply Hcells; [exact Hi | exact Hj | lia]. }
  induction 1 as [|i j X Y Ht HT IH|i j X Y Ht HT IH|i j X Y Ht HT IH];
    intros Hi Hj.
  - cbn. split; [reflexivity|]. split; [reflexivity|]. split; [constructor|].
    rewrite (Hc0 0) by lia. reflexivity.
  - destruct IH as (H1 & H2 & H3 & H4); try lia.
    pose proof (gap_free_nth a i Ha ltac:(lia)) as Gi.
    pose proof (gap_free_nth b j Hb ltac:(lia)) as Gj.
    cbn [rev]. rewrite !degap_snoc, Gi, Gj, H1, H2.
    rewrite (firstn_S_snoc _ a i gapc), (firstn_S_snoc _ b j gapc) by lia.
    split; [reflexivity|]. split; [reflexivity|]. split.
    + constructor; [cbn [fst snd]; now rewrite Gi | exact H3].
    + cbn [alignment_score]. rewrite H4. unfold column_score. rewrite Gi, Gj.
      cbn [orb].
      destruct (Hcell (S i) (S j)) as [Hs Htb]; try lia.
      cbn [fst snd] in Hs, Htb. unfold tie_break in Htb. rewrite Ht in Htb.
      unfold cand_diag in *. replace (S i - 1) with i in * by lia.
      replace (S j - 1) with j in * by lia.
      destruct Htb as [[_ Hbest]|[[Hx _]|[Hx _]]]; [lia | discriminate..].
  - destruct IH as (H1 & H2 & H3 & H4); try lia.
    pose proof (gap_free_nth a i Ha ltac:(lia)) as Gi.
    cbn [rev]. rewrite !degap_snoc, Gi, H1, H2.
    change (is_gap gapc) with true. cbn iota.
    rewrite (firstn_S_snoc _ a i gapc) by lia.
    split; [reflexivity|]. split; [reflexivity|]. split.
    + constructor; [cbn [fst snd]; now rewrite Gi | exact H3].
    + cbn [alignment_score]. rewrite H4. unfold column_score. rewrite Gi.
      change (is_gap gapc) with true. cbn [orb].
      destruct j as [|j].
      * rewrite (Hc0 (S i)), (Hc0 i) by lia. lia.
      * destruct (Hcell (S i) (S j)) as [Hs Htb]; try lia.
        cbn [fst snd] in Hs, Htb. unfold tie_break in Htb. rewrite Ht in Htb.
        unfold cand_up in *. replace (S i - 1) with i in * by lia.
        destruct Htb as [[Hx _]|[[_ [_ Hbest]]|[Hx _]]]; [discriminate | lia | discriminate].
  - destruct IH as (H1 & H2 & H3 & H4); try lia.
    pose proof (gap_free_nth b j Hb ltac:(lia)) as Gj.
    cbn [rev]. rewrite !degap_snoc, Gj, H1, H2.
    change (is_gap gapc) with true. cbn iota.
    rewrite (firstn_S_snoc _ b j gapc) by lia.
    split; [reflexivity|]. split; [reflexivity|]. split.
    + constructor; [cbn [fst snd]; rewrite Gj; apply andb_false_r | exact H3].
    + cbn [alignment_score]. rewrite H4. unfold column_score. rewrite Gj.
      change (is_gap gapc) with true. cbn [orb].
      destruct i as [|i].
      * rewrite (Hr0 (S j)), (Hr0 j) by lia. lia.
      * destruct (Hcell (S i) (S j)) as [Hs Htb]; try lia.
        cbn [fst snd] in Hs, Htb. unfold tie_break in Htb. rewrite Ht in Htb.
        unfold cand_left in *. replace (S j - 1) with j in * by lia.
        destruct Htb as [[Hx _]|[[Hx _]|[_ [_ [_ Hbest]]]]];
          [discriminate | discriminate | lia].
Qed.

Lemma firstn_snoc_inv (A : Type) (l pre : list A) (i : nat) (x d : A) :
  i <= length l -> firstn i l = pre ++ [x] ->
  1 <= i /\ pre = firstn (i - 1) l /\ x = nth (i - 1) l d.
Proof.
  intros Hi H. destruct i as [|i].
  - cbn in H. destruct pre; discriminate.
  - rewrite (firstn_S_snoc _ l i d) in H by lia.
    apply app_inj_tail in H. destruct H as [H1 H2].
    replace (S i - 1) with i by lia. split; [lia|]. split; congruence.
Qed.

(** No alignment of two prefixes scores more than the cell of the score
    matrix for these prefixes; the rows are given last column first. *)
Lemma score_bound (a b : str) (mtch mismatch gap : Z) :
  let score := fst (nw_matrices a b mtch mismatch gap) in
  forall X Y i j,
    i <= length a -> j <= length b ->
    length X = length Y -> no_gap_column X Y ->
    degap (rev X) = firstn i a -> degap (rev Y) = firstn j b ->
    (alignment_score mtch mismatch gap X Y <= mget score i j)%Z.
Proof.
  intros score.
  destruct (nw_matrices_inv a b mtch mismatch gap)
    as (_ & _ & (Hc0 & Hr0 & _ & _) & Hcells).
  fold score in Hc0, Hr0.
  assert (Hcell : forall i j, 1 <= i <= length a -> 1 <= j <= length b ->
            mget score i j
            = Z.max (cand_diag a b mtch mismatch score i j)
                    (Z.max (cand_up gap score i j) (cand_left gap score i j))).
  { intros i j Hi Hj. destruct (Hcells i j Hi Hj) as [H _]; [lia|]. exact H. }
  induction X as [|x X IH]; intros [|y Y] i j Hi Hj Hlen Hn HX HY;
    try discriminate.
  - cbn in HX, HY.
    assert (i = 0) by (destruct i; [reflexivity | destruct a; [simpl in Hi; lia | discriminate]]).
    assert (j = 0) by (destruct j; [reflexivity | destruct b; [simpl in Hj; lia | discriminate]]).
    subst. rewrite (Hc0 0) by lia. cbn. lia.
  - cbn [rev] in HX, HY. rewrite degap_snoc in HX, HY.
    inversion Hn as [|? ? Hcol Hn']; subst. cbn [fst snd] in Hcol.
    cbn [alignment_score]. unfold column_score.
    simpl in Hlen. assert (Hlen' : length X = length Y) by lia.
    destruct (is_gap x) eqn:Gx, (is_gap y) eqn:Gy; cbn [orb andb] in *;
      try discriminate.
    + destruct (firstn_snoc_inv _ b _ j y gapc Hj (eq_sym HY)) as (Hj1 & Hp & Hy).
      destruct j as [|j]; [lia|]. replace (S j - 1) with j in * by lia.
      specialize (IH Y i j Hi ltac:(lia) Hlen' Hn' HX Hp).
      destruct i as [|i].
      * rewrite (Hr0 (S j)) by lia. rewrite (Hr0 j) in IH by lia. lia.
      * rewrite (Hcell (S i) (S j)) by lia. unfold cand_left.
        replace (S j - 1) with j by lia. lia.
    + destruct (firstn_snoc_inv _ a _ i x gapc Hi (eq_sym HX)) as (Hi1 & Hp & Hx).
      destruct i as [|i]; [lia|]. replace (S i - 1) with i in * by lia.
      specialize (IH Y i j ltac:(lia) Hj Hlen' Hn' Hp HY).
      destruct j as [|j].
      * rewrite (Hc0 (S i)) by lia. rewrite (Hc0 i) in IH by lia. lia.
      * rewrite (Hcell (S i) (S j)) by lia. unfold cand_up.
        replace (S i - 1) with i by lia. lia.
    + destruct (firstn_snoc_inv _ a _ i x gapc Hi (eq_sym HX)) as (Hi1 & Hp & Hx).
      destruct (firstn_snoc_inv _ b _ j y gapc Hj (eq_sym HY)) as (Hj1 & Hq & Hy).
      destruct i as [|i]; [lia|]. replace (S i - 1) with i in * by lia.
      destruct j as [|j]; [lia|]. replace (S j - 1) with j in * by lia.
      specialize (IH Y i j ltac:(lia) ltac:(lia) Hlen' Hn' Hp Hq).
      rewrite (Hcell (S i) (S j)) by lia. unfold cand_diag.
      replace (S i - 1) with i by lia. replace (S j - 1) with j by lia.
      rewrite <- Hx, <- Hy. lia.
Qed.

(** The alignment returned is a best one. *)
Lemma nw_align_best (a b : str) (mtch mismatch gap : Z)
  (Ha : gap_free a) (Hb : gap_free b) :
  exists A B,
    nw_align a b mtch mismatch gap = Ok (A, B)
    /\ alignment a b A B
    /\ alignment_score mtch mismatch gap A B
       = mget (fst (nw_matrices a b mtch mismatch gap)) (length a) (length b)
    /\ forall X Y,
         alignment a b X Y ->
         (alignment_score mtch mismatch gap X Y
          <= alignment_score mtch mismatch gap A B)%Z.
Proof.
  destruct (nw_align_traced a b mtch mismatch gap) as (X & Y & E & HT).
  destruct (traced_rows a b _ _ _ X Y HT) as (L1 & _); try lia.
  destruct (traced_alignment a b mtch mismatch gap Ha Hb _ _ X Y HT)
    as (H1 & H2 & H3 & H4); try lia.
  rewrite firstn_all in H1, H2.
  assert (Hscore : alignment_score mtch mismatch gap (rev X) (rev Y)
                   = mget (fst (nw_matrices a b mtch mismatch gap))
                          (length a) (length b))
    by (rewrite alignment_score_rev by exact L1; exact H4).
  exists (rev X), (rev Y). split; [exact E|]. split.
  - unfold alignment. rewrite !length_rev.
    split; [exact L1|]. split; [exact H1|]. split; [exact H2|].
    now apply no_gap_column_rev.
  - split; [exact Hscore|].
    intros P Q (A1 & A2 & A3 & A4). rewrite Hscore.
    rewrite <- (alignment_score_rev mtch mismatch gap P Q A1).
    apply score_bound; try lia.
    + now rewrite !length_rev.
    + now apply no_gap_column_rev.
    + now rewrite rev_involutive, firstn_all.
    + now rewrite rev_involutive, firstn_all.
Qed.

(** X16. For gap-free strings and all scores, [nw_align] returns an optimal
    global alignment: its two rows spell the inputs, no column holds two
    gaps, the score of the alignment is the last cell of the score matrix,
    and no alignment of the two strings scores more. *)
Theorem nw_align_optimal (a b : str) (mtch mismatch gap : Z)
  (Ha : gap_free a) (Hb : gap_free b) :
  exists A B,
    nw_align a b mtch mismatch gap = Ok (A, B)
    /\ alignment a b A B
    /\ alignment_score mtch mismatch gap A B
       = mget (fst (nw_matrices a b mtch mismatch gap)) (length a) (length b)
    /\ forall X Y,
         alignment a b X Y ->
         (alignment_score mtch mismatch gap X Y
          <= alignment_score mtch mismatch gap A B)%Z.
Proof. exact (nw_align_best a b mtch mismatch gap Ha Hb). Qed.

Lemma nw_align_optimal_witness :
  gap_free (lit "ACD") /\ gap_free (lit "CDE")
  /\ exists A B,
       nw_align (lit "ACD") (lit "CDE") default_match default_mismatch
                default_gap = Ok (A, B)
       /\ alignment (lit "ACD") (lit "CDE") A B
       /\ forall X Y,
            alignment (lit "ACD") (lit "CDE") X Y ->
            (alignment_score default_match default_mismatch default_gap X Y
             <= alignment_score default_match default_mismatch default_gap A B)%Z.
Proof.
  assert (Ha : gap_free (lit "ACD")) by reflexivity.
  assert (Hb : gap_free (lit "CDE")) by reflexivity.
  split; [exact Ha|]. split; [exact Hb|].
  destruct (nw_align_optimal (lit "ACD") (lit "CDE") default_match
              default_mismatch default_gap Ha Hb) as (A & B & E & H1 & _ & H3).
  exists A, B. split; [exact E|]. split; [exact H1 | exact H3].
Defined.

(* --------------------------------------------------------------------- *)
(** ** An empty string, and a string against itself                        *)
(* --------------------------------------------------------------------- *)

Lemma gapped_same_length (s X : str) :
  gapped s X -> length X = length s -> X = s.
Proof.
  induction 1 as [|c s X Hg IH|s X Hg IH]; intros Hlen.
  - reflexivity.
  - f_equal. apply IH. simpl in Hlen. lia.
  - pose proof (gapped_length Hg). simpl in Hlen. lia.
Qed.

Lemma gapped_nil_all (X : str) : gapped [] X -> X = repeat gapc (length X).
Proof.
  induction X as [|c X IH]; intros H; [reflexivity|].
  inversion H; subst. cbn [length repeat]. f_equal. now apply IH.
Qed.

(** X17. Against an empty string [nw_align] pairs every character of the
    other string with a gap, for all strings and all scores. *)
Theorem nw_align_empty (a : str) (mtch mismatch gap : Z) :
  nw_align a [] mtch mismatch gap = Ok (a, repeat gapc (length a))
  /\ nw_align [] a mtch mismatch gap = Ok (repeat gapc (length a), a).
Proof.
  split.
  - destruct (nw_align_traced a [] mtch mismatch gap) as (X & Y & E & HT).
    destruct (traced_rows a [] _ _ _ X Y HT) as (H1 & H2 & H3 & H4);
      [lia | simpl; lia |].
    rewrite E. rewrite firstn_all in H2. cbn [length firstn] in *.
    assert (HX : length (rev X) = length a) by (rewrite length_rev; lia).
    rewrite (gapped_same_length _ _ H2 HX).
    rewrite (gapped_nil_all (rev Y) H3), length_rev, <- H1.
    rewrite length_rev in HX. now rewrite HX.
  - destruct (nw_align_traced [] a mtch mismatch gap) as (X & Y & E & HT).
    destruct (traced_rows [] a _ _ _ X Y HT) as (H1 & H2 & H3 & H4);
      [simpl; lia | lia |].
    rewrite E. rewrite firstn_all in H3. cbn [length firstn] in *.
    assert (HY : length (rev Y) = length a) by (rewrite length_rev; lia).
    rewrite (gapped_same_length _ _ H3 HY).
    rewrite (gapped_nil_all (rev X) H2), length_rev, H1.
    rewrite length_rev in HY. now rewrite HY.
Qed.

(** The columns of an alignment, counted: [p] columns pair two residues,
    [gx] hold a gap in the first row and [gy] a gap in the second. *)
Lemma score_by_columns (mtch mismatch gap : Z) (X : str) :
  (mismatch <= mtch)%Z ->
  forall Y, length X = length Y -> no_gap_column X Y ->
  exists p gx gy : Z,
    (0 <= p /\ 0 <= gx /\ 0 <= gy)%Z
    /\ Z.of_nat (length X) = (p + gx + gy)%Z
    /\ Z.of_nat (length (degap X)) = (p + gy)%Z
    /\ Z.of_nat (length (degap Y)) = (p + gx)%Z
    /\ (alignment_score mtch mismatch gap X Y <= mtch * p + gap * (gx + gy))%Z.
Proof.
  intros Hm. induction X as [|x X IH]; intros [|y Y] Hlen Hn; try discriminate.
  - exists 0%Z, 0%Z, 0%Z. cbn. lia.
  - inversion Hn as [|? ? Hcol Hn']; subst. cbn [fst snd] in Hcol.
    destruct (IH Y ltac:(simpl in Hlen; lia) Hn')
      as (p & gx & gy & Hpos & H1 & H2 & H3 & H4).
    cbn [alignment_score]. unfold column_score, degap in *. cbn [filter length].
    destruct (is_gap x) eqn:Gx, (is_gap y) eqn:Gy; cbn [orb andb negb] in *;
      try discriminate.
    + exists p, (gx + 1)%Z, gy. cbn [length]. lia.
    + exists p, gx, (gy + 1)%Z. cbn [length]. lia.
    + exists (p + 1)%Z, gx, gy. cbn [length].
      destruct (Ascii.eqb x y); lia.
Qed.

Lemma self_score (mtch mismatch gap : Z) (a : str) :
  gap_free a ->
  alignment_score mtch mismatch gap a a = (mtch * Z.of_nat (length a))%Z.
Proof.
  induction a as [|c a IH]; intros Hfree; [cbn; lia|].
  apply gap_free_cons in Hfree. destruct Hfree as [Hc Ha].
  cbn [alignment_score]. rewrite IH by exact Ha.
  unfold column_score. rewrite Hc, Ascii.eqb_refl. cbn [orb length]. lia.
Qed.

Lemma self_alignment (a : str) : gap_free a -> alignment a a a a.
Proof.
  intros Hfree. unfold alignment. rewrite (gap_free_degap Hfree).
  split; [reflexivity|]. split; [reflexivity|]. split; [reflexivity|].
  unfold no_gap_column. induction a as [|c a IH]; [constructor|].
  apply gap_free_cons in Hfree. destruct Hfree as [Hc Ha].
  cbn [combine]. constructor; [cbn [fst snd]; now rewrite Hc | now apply IH].
Qed.

Lemma degap_full (s : str) : length (degap s) = length s -> degap s = s.
Proof.
  induction s as [|c s IH]; intros H; [reflexivity|].
  unfold degap in *. cbn [filter] in *. destruct (is_gap c); cbn [negb] in *.
  - pose proof (length_degap_le s). unfold degap in *. simpl in H. lia.
  - f_equal. apply IH. simpl in H. lia.
Qed.

(** X18. A gap-free string aligned with itself comes back unchanged, twice,
    whenever a mismatch scores no more than a match and two gaps score less
    than a match, as the default scores do. *)
Theorem nw_align_self (a : str) (mtch mismatch gap : Z)
  (Ha : gap_free a) (Hm : (mismatch <= mtch)%Z) (Hg : (2 * gap < mtch)%Z) :
  nw_align a a mtch mismatch gap = Ok (a, a).
Proof.
  destruct (nw_align_best a a mtch mismatch gap Ha Ha)
    as (A & B & E & (L1 & D1 & D2 & N1) & _ & Hbest).
  specialize (Hbest a a (self_alignment a Ha)).
  rewrite self_score in Hbest by exact Ha.
  destruct (score_by_columns mtch mismatch gap A Hm B L1 N1)
    as (p & gx & gy & Hpos & H1 & H2 & H3 & H4).
  rewrite D1 in H2. rewrite D2 in H3.
  assert (Hz : (gx = 0 /\ gy = 0)%Z) by nia.
  destruct Hz as [-> ->].
  assert (EA : A = a).
  { transitivity (degap A); [|exact D1].
    symmetry. apply degap_full. rewrite D1. lia. }
  assert (EB : B = a).
  { transitivity (degap B); [|exact D2].
    symmetry. apply degap_full. rewrite D2. lia. }
  now rewrite E, EA, EB.
Qed.

Lemma nw_align_self_witness :
  gap_free (lit "MKVLA")
  /\ (default_mismatch <= default_match)%Z
  /\ (2 * default_gap < default_match)%Z
  /\ nw_align (lit "MKVLA") (lit "MKVLA") default_match default_mismatch
               default_gap = Ok (lit "MKVLA", lit "MKVLA").
Proof.
  assert (Ha : gap_free (lit "MKVLA")) by reflexivity.
  assert (Hm : (default_mismatch <= default_match)%Z)
    by (unfold default_mismatch, default_match; lia).
  assert (Hg : (2 * default_gap < default_match)%Z)
    by (unfold default_gap, default_match; lia).
  split; [exact Ha|]. split; [exact Hm|]. split; [exact Hg|].
  exact (nw_align_self (lit "MKVLA") default_match default_mismatch default_gap
           Ha Hm Hg).
Defined.

(* ===================================================================== *)
(** * The FASTA codec: headers, line wrapping, and the filter in between   *)
(* ===================================================================== *)

Lemma parse_step_labels (xs : list entry) (h : option str) (buf : list str)
  (raw : str) :
  let '(xs', h', buf') := parse_step (xs, h, buf) raw in
  map fst (flush xs' h' buf')
  = map fst (flush xs h buf)
    ++ (if is_header raw then [header_label raw] else []).
Proof.
  unfold parse_step, is_header, header_label.
  destruct (strip raw) as [|c s1] eqn:E.
  - now rewrite app_nil_r.
  - cbn [tl]. destruct (Ascii.eqb c gtc).
    + cbn [flush]. rewrite map_app. reflexivity.
    + rewrite app_nil_r. destruct h; cbn [flush]; [|reflexivity].
      now rewrite !map_app.
Qed.

(** The labels of the entries are the labels of the header lines, in the
    order of the file. *)
Lemma parse_fold_labels (ls : list str) :
  forall xs h buf,
    let '(xs', h', buf') := fold_left parse_step ls (xs, h, buf) in
    map fst (flush xs' h' buf')
    = map fst (flush xs h buf) ++ map header_label (filter is_header ls).
Proof.
  induction ls as [|raw ls IH]; intros xs h buf.
  - cbn. now rewrite app_nil_r.
  - cbn [fold_left filter].
    pose proof (parse_step_labels xs h buf raw) as Hs.
    destruct (parse_step (xs, h, buf) raw) as [[xs1 h1] buf1].
    specialize (IH xs1 h1 buf1).
    destruct (fold_left parse_step ls (xs1, h1, buf1)) as [[xs2 h2] buf2].
    rewrite IH, Hs, <- app_assoc. f_equal.
    destruct (is_header raw); reflexivity.
Qed.

(** X19. [parse_fasta] makes one entry per header line, a line that starts
    with ['>'] once stripped, in the order of the file, and labels it with
    the rest of that line, stripped, or ["unnamed"] when nothing is left.
    A text without a header line raises ValueError, whatever else it
    holds.  Every entry returned has a label that is not empty, is
    stripped and holds no end of line, and residues that are empty or
    stripped, free of ends of line and not starting with ['>']. *)
Theorem parse_fasta_entries (text : str) :
  let headers := filter is_header (file_lines text) in
  match headers with
  | [] => parse_fasta text = Raise ValueError
  | _ =>
      exists xs,
        parse_fasta text = Ok xs
        /\ map fst xs = map header_label headers
        /\ Forall entry_ok xs
  end.
Proof.
  intros headers.
  pose proof (parse_fold_labels (file_lines text) [] None []) as Hl.
  pose proof (parse_fasta_ok text) as Hok.
  unfold parse_fasta in *.
  destruct (fold_left parse_step (file_lines text) ([], None, []))
    as [[xs h] buf].
  cbn [flush map app] in Hl. fold headers in Hl.
  destruct (flush xs h buf) as [|x0 xs'] eqn:Ef.
  - destruct headers; [reflexivity | discriminate].
  - destruct headers as [|h0 hs] eqn:Eh; [discriminate|].
    exists (x0 :: xs'). split; [reflexivity|]. split; [exact Hl|].
    now apply Hok.
Qed.

(* --------------------------------------------------------------------- *)
(** ** Line wrapping                                                       *)
(* --------------------------------------------------------------------- *)

(** X20. [write_fasta] writes, for every entry, the line ['>' + label] and
    then the residues.  With a positive [wrap] the residues are cut into
    lines of at least one and at most [wrap] characters that join up to the
    residue string, so an empty residue string gets no line; with
    [wrap <= 0] they are one line, an empty one for an empty string. *)
Theorem write_fasta_wrap (entries : list entry) (wrap : Z) :
  write_fasta entries wrap
  = concat (map (fun l => l ++ [LF]) (flat_map (entry_lines wrap) entries))
  /\ forall e : entry,
       hd [] (entry_lines wrap e) = gtc :: fst e
       /\ ((0 < wrap)%Z ->
           concat (tl (entry_lines wrap e)) = snd e
           /\ Forall (fun l => 1 <= length l <= Z.to_nat wrap)
                     (tl (entry_lines wrap e)))
       /\ ((wrap <= 0)%Z -> tl (entry_lines wrap e) = [snd e]).
Proof.
  split; [apply write_fasta_lines|].
  intros e. unfold entry_lines. cbn [hd tl]. split; [reflexivity|]. split.
  - intros Hw. assert (E : (0 <? wrap)%Z = true) by (apply Z.ltb_lt; lia).
    rewrite E. assert (Hw1 : 1 <= Z.to_nat wrap) by lia. split.
    + now apply concat_chunks.
    + apply Forall_forall. intros l Hl. apply in_map_iff in Hl.
      destruct Hl as (i & <- & Hi).
      apply (range_step_bound _ _ _ Hw1) in Hi.
      rewrite length_firstn, length_skipn. lia.
  - intros Hw. assert (E : (0 <? wrap)%Z = false) by (apply Z.ltb_ge; lia).
    now rewrite E.
Qed.

(* --------------------------------------------------------------------- *)
(** ** Parse, filter, write                                                *)
(* --------------------------------------------------------------------- *)

Lemma plain_seq_ok (s : str) : plain_residues s -> seq_ok s.
Proof.
  intros Hp. destruct s as [|c s]; [now left|]. right.
  assert (Hin : forall x, In x (c :: s) -> is_space x = false /\ x <> gtc)
    by (intros x Hx; now apply (plain_residues_in (c :: s))).
  split; [|split].
  - apply all_nonspace_trimmed. intros x Hx. now apply Hin.
  - intros x Hx. destruct (Hin x Hx) as [Hsp _].
    split; intros ->; discriminate.
  - apply Hin. now left.
Qed.

Lemma plain_select (keep : list nat) (s : str) :
  (forall k, In k keep -> k < length s) ->
  plain_residues s -> plain_residues (select keep s).
Proof.
  intros Hk Hp. unfold plain_residues in *. rewrite forallb_forall in *.
  intros c Hc. unfold select in Hc. apply in_map_iff in Hc.
  destruct Hc as (k & <- & Hin). apply Hp. apply nth_In. now apply Hk.
Qed.

(** X21. What the program writes it can read back: when the input file
    parses to entries whose residues hold no white space and no ['>'], and
    [gblock_filter] returns on them, then writing its result with any wrap
    width and parsing the text again gives exactly that result. *)
Theorem filtered_output_roundtrip (text : str) (es out : list entry)
  (min_block_len : Z) (max_gap min_cons : Q) (flank_cons : option Q)
  (drop_all_gap_columns : bool) (max_noncons_run : Z) (wrap : Z)
  (Hparse : parse_fasta text = Ok es)
  (Hplain : Forall (fun e => plain_residues (snd e)) es)
  (Hout : gblock_filter es min_block_len max_gap min_cons flank_cons
                        drop_all_gap_columns max_noncons_run = Ok out) :
  parse_fasta (write_fasta out wrap) = Ok out.
Proof.
  destruct (parse_fasta_ok text es Hparse) as [Hne Hok].
  assert (Heq : all_equal_length es = true).
  { destruct (all_equal_length es) eqn:E; [reflexivity|].
    unfold gblock_filter in Hout. rewrite E in Hout. discriminate. }
  destruct (gblock_filter_keep es min_block_len max_gap min_cons flank_cons
              drop_all_gap_columns max_noncons_run Heq)
    as (L & blocks & _ & HL & _ & Hr & _ & Eg).
  rewrite Eg in Hout. injection Hout as <-.
  set (keep := kept_columns (map snd es) blocks drop_all_gap_columns).
  assert (Hkeep : forall e, In e es -> forall k, In k keep -> k < length (snd e)).
  { intros e He k Hk. apply kept_columns_in in Hk.
    destruct Hk as [(b & Hb & Hk) _]. specialize (Hr b Hb).
    rewrite Forall_forall in HL.
    apply Nat.lt_le_trans with L; [lia|].
    apply Nat.eq_le_incl. symmetry. exact (HL e He). }
  assert (Hpl : Forall (fun e => plain_residues (snd e))
                  (map (fun e : entry => (fst e, select keep (snd e))) es)).
  { apply Forall_forall. intros o Ho. apply in_map_iff in Ho.
    destruct Ho as (e & <- & He). cbn [snd].
    rewrite Forall_forall in Hplain.
    apply plain_select; [now apply Hkeep | now apply Hplain]. }
  apply parse_write.
  - destruct es; [congruence | discriminate].
  - apply Forall_forall. intros o Ho.
    rewrite Forall_forall in Hpl. pose proof (Hpl o Ho) as Hpo.
    apply in_map_iff in Ho. destruct Ho as (e & <- & He).
    rewrite Forall_forall in Hok. destruct (Hok e He) as [Hlab _].
    split; [exact Hlab|]. cbn [snd] in *. now apply plain_seq_ok.
  - right. exact Hpl.
Qed.

Lemma filtered_output_roundtrip_witness :
  let text := lit ">s1" ++ [LF] ++ lit "MSTAG" ++ [LF] ++ lit ">s2" ++ [LF]
              ++ lit "MST-G" ++ [LF] ++ lit ">s3" ++ [LF] ++ lit "MSTTG"
              ++ [LF] in
  let es := [(lit "s1", lit "MSTAG"); (lit "s2", lit "MST-G");
             (lit "s3", lit "MSTTG")] in
  let out := [(lit "s1", lit "MST"); (lit "s2", lit "MST");
              (lit "s3", lit "MST")] in
  parse_fasta text = Ok es
  /\ Forall (fun e => plain_residues (snd e)) es
  /\ gblock_filter es 3 (34 # 100) (67 # 100) None false 0 = Ok out
  /\ parse_fasta (write_fasta out 70) = Ok out.
Proof.
  intros text es out.
  assert (Hparse : parse_fasta text = Ok es) by reflexivity.
  assert (Hplain : Forall (fun e => plain_residues (snd e)) es)
    by (repeat constructor).
  assert (Hout : gblock_filter es 3 (34 # 100) (67 # 100) None false 0 = Ok out)
    by reflexivity.
  split; [exact Hparse|]. split; [exact Hplain|]. split; [exact Hout|].
  exact (filtered_output_roundtrip text es out 3 (34 # 100) (67 # 100) None
           false 0 70 Hparse Hplain Hout).
Defined.

(* ===================================================================== *)
(** * The parameter translator: the values it can return                   *)
(* ===================================================================== *)






(* ===================================================================== *)
(** * [_unique]                                                            *)
(* ===================================================================== *)

Lemma str_mem (x : str) (s : list str) :
  existsb (str_eqb x) s = true <-> In x s.
Proof.
  rewrite existsb_exists. split.
  - intros (y & Hy & E). apply str_eqb_eq in E. now subst.
  - intros H. exists x. split; [exact H | now apply str_eqb_eq].
Qed.

Lemma str_mem_ext (x : str) (s t : list str) :
  (In x s <-> In x t) -> existsb (str_eqb x) s = existsb (str_eqb x) t.
Proof.
  intros H. destruct (existsb (str_eqb x) s) eqn:E1,
                     (existsb (str_eqb x) t) eqn:E2; try reflexivity.
  - apply str_mem in E1. apply H, str_mem in E1. congruence.
  - apply str_mem in E2. apply H, str_mem in E2. congruence.
Qed.

Lemma unique_fold (l : list str) :
  let st := fold_left unique_step l ([], []) in
  (forall x, In x (fst st) <-> In x l)
  /\ (forall x, In x (snd st) <-> In x l)
  /\ NoDup (snd st).
Proof.
  induction l as [|y l IH] using rev_ind.
  - cbn. split; [tauto|]. split; [tauto | constructor].
  - rewrite fold_left_app. cbn [fold_left].
    destruct (fold_left unique_step l ([], [])) as [seen out].
    cbn [fst snd] in IH. destruct IH as (H1 & H2 & H3).
    unfold unique_step. destruct (existsb (str_eqb y) seen) eqn:E; cbn [fst snd].
    + apply str_mem in E. pose proof (proj1 (H1 y) E) as Hy.
      split; [|split; [|exact H3]]; intros x; rewrite in_app_iff; cbn [In];
        [rewrite H1 | rewrite H2]; split; try tauto;
        intros [H|[<-|[]]]; tauto.
    + assert (Hy : ~ In y l).
      { intros Hy. apply H1, str_mem in Hy. congruence. }
      split; [|split].
      * intros x. cbn [In]. rewrite in_app_iff, H1. cbn [In]. tauto.
      * intros x. rewrite !in_app_iff, H2. tauto.
      * apply NoDup_app; [exact H3 | repeat constructor; intros [] | ].
        intros x Hx [<-|[]]. apply Hy. now apply H2.
Qed.

Lemma unique_snoc (l : list str) (x : str) :
  _unique (l ++ [x])
  = if existsb (str_eqb x) l then _unique l else _unique l ++ [x].
Proof.
  unfold _unique. rewrite fold_left_app. cbn [fold_left].
  destruct (unique_fold l) as (H1 & _).
  destruct (fold_left unique_step l ([], [])) as [seen out].
  cbn [fst snd] in *. unfold unique_step.
  rewrite (str_mem_ext x seen l (H1 x)).
  destruct (existsb (str_eqb x) l); reflexivity.
Qed.

Lemma unique_nodup (l : list str) : NoDup l -> _unique l = l.
Proof.
  induction l as [|x l IH] using rev_ind; intros Hnd; [reflexivity|].
  rewrite unique_snoc.
  apply NoDup_remove in Hnd. rewrite !app_nil_r in Hnd. destruct Hnd as [Hl Hx].
  destruct (existsb (str_eqb x) l) eqn:E.
  - apply str_mem in E. contradiction.
  - now rewrite IH.
Qed.

(** X23. [_unique] keeps the first occurrence of every string and drops the
    later ones: the result has no duplicates and the same members as the
    input, a string at the end of the input is appended exactly when it
    did not occur before, and a list without duplicates comes back
    unchanged, so [_unique] is idempotent. *)
Theorem unique_first_occurrences (seq : list str) :
  NoDup (_unique seq)
  /\ (forall x, In x (_unique seq) <-> In x seq)
  /\ (forall x, _unique (seq ++ [x])
                = if existsb (str_eqb x) seq then _unique seq
                  else _unique seq ++ [x])
  /\ (NoDup seq -> _unique seq = seq)
  /\ _unique (_unique seq) = _unique seq.
Proof.
  destruct (unique_fold seq) as (_ & H2 & H3).
  split; [exact H3|]. split; [exact H2|].
  split; [intros x; apply unique_snoc|].
  split; [apply unique_nodup|]. apply unique_nodup. exact H3.
Qed.

(* ===================================================================== *)
(** * The order of the rows does not matter to [gblock_filter]             *)
(* ===================================================================== *)

Lemma filter_perm (A : Type) (f : A -> bool) (l l' : list A) :
  Permutation l l' -> Permutation (filter f l) (filter f l').
Proof.
  induction 1 as [|x l l' H IH|x y l|l l' l'' H1 IH1 H2 IH2]; cbn [filter].
  - constructor.
  - destruct (f x); [now constructor | exact IH].
  - destruct (f x), (f y); try apply Permutation_refl. apply perm_swap.
  - now apply Permutation_trans with (filter f l').
Qed.

Lemma occ_perm (c : ascii) (l l' : list ascii) :
  Permutation l l' -> occ c l = occ c l'.
Proof.
  intros H. unfold occ. apply Permutation_length. now apply filter_perm.
Qed.

Lemma max_count_perm (non non' : list ascii) :
  Permutation non non' -> max_count non = max_count non'.
Proof.
  intros H. destruct non as [|c non].
  - apply Permutation_nil in H. now subst.
  - assert (Hne : c :: non <> []) by discriminate.
    assert (Hne' : non' <> []).
    { intros ->. apply Permutation_sym, Permutation_nil in H. discriminate. }
    destruct (max_count_spec _ Hne) as [(x & _ & Hx) Hle].
    destruct (max_count_spec _ Hne') as [(x' & _ & Hx') Hle'].
    pose proof (occ_perm x _ _ H) as E. pose proof (occ_perm x' _ _ H) as E'.
    specialize (Hle x'). specialize (Hle' x). lia.
Qed.

Lemma metric_of_perm (n : nat) (col col' : list ascii) :
  Permutation col col' -> metric_of n col = metric_of n col'.
Proof.
  intros H. unfold metric_of.
  pose proof (filter_perm _ is_gap _ _ H) as Hg.
  pose proof (filter_perm _ (fun c => negb (is_gap c)) _ _ H) as Hn.
  rewrite (Permutation_length Hg).
  destruct (filter (fun c => negb (is_gap c)) col) as [|c non] eqn:E.
  - apply Permutation_nil in Hn. now rewrite Hn.
  - destruct (filter (fun c => negb (is_gap c)) col') as [|c' non'] eqn:E'.
    + apply Permutation_sym, Permutation_nil in Hn. discriminate.
    + now rewrite (max_count_perm _ _ Hn), (Permutation_length Hn).
Qed.

Lemma existsb_perm (A : Type) (f : A -> bool) (l l' : list A) :
  Permutation l l' -> existsb f l = existsb f l'.
Proof.
  induction 1 as [|x l l' H IH|x y l|l l' l'' H1 IH1 H2 IH2]; cbn [existsb].
  - reflexivity.
  - now rewrite IH.
  - destruct (f x), (f y); reflexivity.
  - congruence.
Qed.

(** X24. The columns [gblock_filter] keeps do not depend on the order of the
    rows: on a rearrangement of an equal-length alignment it selects the
    same column indices, so its result is the same rearrangement of the
    result. *)
Theorem gblock_filter_row_order (entries entries' : list entry)
  (min_block_len : Z) (max_gap min_cons : Q) (flank_cons : option Q)
  (drop_all_gap_columns : bool) (max_noncons_run : Z)
  (Hperm : Permutation entries entries')
  (Heq : all_equal_length entries = true) :
  exists keep,
    gblock_filter entries min_block_len max_gap min_cons flank_cons
                  drop_all_gap_columns max_noncons_run
    = Ok (map (fun e => (fst e, select keep (snd e))) entries)
    /\ gblock_filter entries' min_block_len max_gap min_cons flank_cons
                     drop_all_gap_columns max_noncons_run
       = Ok (map (fun e => (fst e, select keep (snd e))) entries').
Proof.
  assert (Heq' : all_equal_length entries' = true).
  { apply all_equal_length_iff in Heq. destruct Heq as [Hne [L HL]].
    apply all_equal_length_iff. split.
    - intros ->. apply Permutation_sym, Permutation_nil in Hperm. contradiction.
    - exists L. exact (Permutation_Forall Hperm HL). }
  destruct (gblock_filter_keep entries min_block_len max_gap min_cons flank_cons
              drop_all_gap_columns max_noncons_run Heq)
    as (L & blocks & Hne & HL & Eb & _ & _ & Eg).
  destruct (gblock_filter_keep entries' min_block_len max_gap min_cons flank_cons
              drop_all_gap_columns max_noncons_run Heq')
    as (L' & blocks' & Hne' & HL' & Eb' & _ & _ & Eg').
  assert (Hseqs : Permutation (map snd entries) (map snd entries'))
    by now apply Permutation_map.
  assert (EL : L' = L).
  { destruct entries as [|e0 es]; [congruence|].
    assert (Hin : In e0 entries')
      by (apply (Permutation_in _ Hperm); now left).
    rewrite Forall_forall in HL, HL'.
    transitivity (length (snd e0));
      [symmetry; exact (HL' e0 Hin) | exact (HL e0 (or_introl eq_refl))]. }
  subst L'.
  assert (Emets :
    map (fun i => metric_of (length (map snd entries'))
                            (column (map snd entries') i)) (range 0 L)
    = map (fun i => metric_of (length (map snd entries))
                              (column (map snd entries) i)) (range 0 L)).
  { apply map_ext. intros i. rewrite <- (Permutation_length Hseqs).
    apply metric_of_perm. unfold column.
    apply Permutation_map, Permutation_sym, Hseqs. }
  rewrite Emets, Eb in Eb'. injection Eb' as <-.
  assert (Ekeep : kept_columns (map snd entries') blocks drop_all_gap_columns
                  = kept_columns (map snd entries) blocks drop_all_gap_columns).
  { unfold kept_columns. destruct drop_all_gap_columns; [|reflexivity].
    apply filter_ext. intros i. apply existsb_perm, Permutation_sym, Hseqs. }
  rewrite Ekeep in Eg'.
  exists (kept_columns (map snd entries) blocks drop_all_gap_columns).
  split; assumption.
Qed.

Lemma gblock_filter_row_order_witness :
  let entries := [(lit "s1", lit "MSTAG"); (lit "s2", lit "MST-G");
                  (lit "s3", lit "MSTTG")] in
  let entries' := [(lit "s2", lit "MST-G"); (lit "s1", lit "MSTAG");
                   (lit "s3", lit "MSTTG")] in
  Permutation entries entries'
  /\ all_equal_length entries = true
  /\ exists keep,
       gblock_filter entries 3 (34 # 100) (67 # 100) None true 0
       = Ok (map (fun e => (fst e, select keep (snd e))) entries)
       /\ gblock_filter entries' 3 (34 # 100) (67 # 100) None true 0
          = Ok (map (fun e => (fst e, select keep (snd e))) entries').
Proof.
  intros entries entries'.
  assert (Hperm : Permutation entries entries') by apply perm_swap.
  assert (Heq : all_equal_length entries = true) by reflexivity.
  split; [exact Hperm|]. split; [exact Heq|].
  exact (gblock_filter_row_order entries entries' 3 (34 # 100) (67 # 100) None
           true 0 Hperm Heq).
Defined.

(* ===================================================================== *)
(** * Relaxing the thresholds of [gblock_filter]                           *)
(* ===================================================================== *)

Lemma nth_negb (m : list bool) (k : nat) :
  k < length m -> nth k (map negb m) false = negb (nth k m false).
Proof. intros H. exact (nth_map_in _ _ negb m k false false H). Qed.

(** A kept column lies in a maximal run of kept columns. *)
Lemma kept_run_exists (m : list bool) (k : nat) :
  nth k m false = true -> exists s e, kept_run m s e /\ s <= k < e.
Proof.
  intros Hk. pose proof (nth_true_lt _ _ Hk) as Hlt.
  destruct (maximal_run_exists (map negb m) k) as (i & j & Hrun & Hij).
  - now rewrite length_map.
  - rewrite nth_negb by exact Hlt. now rewrite Hk.
  - destruct Hrun as (H1 & H2 & H3 & H4). rewrite length_map in *.
    exists i, j. split; [|exact Hij]. split; [exact H1|]. split; [|split].
    + intros t Ht. specialize (H2 t Ht). rewrite nth_negb in H2 by lia.
      now apply negb_false_iff in H2.
    + destruct H3 as [H3|H3]; [now left | right].
      rewrite nth_negb in H3 by lia. now apply negb_true_iff in H3.
    + destruct H4 as [H4|H4]; [now left | right].
      pose proof (nth_true_lt _ _ H4) as Hj. rewrite length_map in Hj.
      rewrite nth_negb in H4 by lia. now apply negb_true_iff in H4.
Qed.

Lemma passes_relax (mg mg' t t' : Q) (m : metrics) :
  (mg <= mg')%Q -> (t' <= t)%Q ->
  passes mg t m = true -> passes mg' t' m = true.
Proof.
  intros Hg Ht H. unfold passes in *. apply andb_true_iff in H.
  destruct H as [H1 H2]. apply andb_true_iff.
  rewrite !Qle_bool_iff in *. split.
  - now apply Qle_trans with mg.
  - now apply Qle_trans with t.
Qed.

(** Absorption after looser thresholds keeps what absorption after
    stricter ones keeps. *)
Lemma absorb_mono (b b' a a' : list bool) (r r' : Z) :
  length b' = length b ->
  (forall k, nth k b false = true -> nth k b' false = true) ->
  (r <= r')%Z ->
  length a = length b ->
  (forall k, k < length b ->
     (nth k a false = true <->
      nth k b false = true \/ ((0 < r)%Z /\ promoted b r k))) ->
  (forall k, k < length b' ->
     (nth k a' false = true <->
      nth k b' false = true \/ ((0 < r')%Z /\ promoted b' r' k))) ->
  forall k, nth k a false = true -> nth k a' false = true.
Proof.
  intros Hlen Hb Hr La Hchar Hchar' k Hk.
  assert (Hkl : k < length b) by (rewrite <- La; now apply nth_true_lt).
  apply (Hchar k Hkl) in Hk. apply Hchar'; [lia|].
  destruct Hk as [Hk|[Hpos Hp]]; [left; now apply Hb|].
  destruct (nth k b' false) eqn:Ek; [now left | right].
  split; [lia|].
  destruct Hp as (i & j & (R1 & R2 & _) & Hik & Hrun & [Hi Hl] & [Hj Hrt]).
  destruct (maximal_run_exists b' k ltac:(lia) Ek)
    as (i' & j' & (B1 & B2 & B3 & B4) & Hik').
  assert (Hii : i <= i').
  { destruct (Nat.le_gt_cases i i') as [|Hlt]; [assumption|]. exfalso.
    assert (nth (i - 1) b' false = false) by (apply B2; lia).
    assert (nth (i - 1) b' false = true) by now apply Hb. congruence. }
  assert (Hjj : j' <= j).
  { destruct (Nat.le_gt_cases j' j) as [|Hlt]; [assumption|]. exfalso.
    assert (nth j b' false = false) by (apply B2; lia).
    assert (nth j b' false = true) by now apply Hb. congruence. }
  exists i', j'. split; [exact (conj B1 (conj B2 (conj B3 B4)))|].
  split; [exact Hik'|].
  split; [lia|]. split.
  - split; [lia|]. destruct B3 as [B3|B3]; [lia | exact B3].
  - split; [lia|]. destruct B4 as [B4|B4]; [lia | exact B4].
Qed.

(** A block of a mask lies in a block of every larger mask, for a block
    length that is not larger. *)
Lemma find_blocks_cover (a a' : list bool) (min_len min_len' : Z) (s e : nat) :
  length a' = length a ->
  (forall k, nth k a false = true -> nth k a' false = true) ->
  (min_len' <= min_len)%Z ->
  In (s, e) (find_blocks a min_len) ->
  exists s' e', In (s', e') (find_blocks a' min_len') /\ s' <= s /\ e <= e'.
Proof.
  intros Hlen Hsub Hmin Hin. apply find_blocks_sound in Hin.
  destruct Hin as (H1 & H2 & _ & _ & H5).
  destruct (kept_run_exists a' s) as (s' & e' & Hrun & Hs).
  { apply Hsub, H2. lia. }
  assert (He : e <= e').
  { destruct (Nat.le_gt_cases e e') as [|Hlt]; [assumption|]. exfalso.
    destruct Hrun as (_ & _ & _ & [K|K]); [lia|].
    assert (nth e' a' false = true) by (apply Hsub, H2; lia). congruence. }
  exists s', e'. split; [|lia].
  apply find_blocks_complete; [exact Hrun | lia].
Qed.

(** Every block that is long enough once trimmed is kept. *)
Lemma trim_fold_complete (mets : list metrics) (fc mg : Q) (min_len : Z)
  (blocks : list (nat * nat)) :
  (forall b, In b blocks -> fst b < snd b <= length mets) ->
  forall acc,
  exists out,
    foldM (fun acc b =>
             tb <- soft_trim_block b mets fc mg ;;
             Ok (match tb with
                 | Some (s, e) =>
                     if (min_len <=? Z.of_nat e - Z.of_nat s)%Z
                     then acc ++ [(s, e)] else acc
                 | None => acc
                 end))
          blocks acc
    = Ok (acc ++ out)
    /\ forall b s e,
         In b blocks -> soft_trim_block b mets fc mg = Ok (Some (s, e)) ->
         (min_len <= Z.of_nat e - Z.of_nat s)%Z -> In (s, e) out.
Proof.
  induction blocks as [|[p q] bs IH]; intros Hin acc.
  - exists []. rewrite app_nil_r. split; [reflexivity|]. intros b s e [].
  - cbn [foldM].
    destruct (soft_trim_block_spec mets fc mg p q) as (r & Er & _).
    { apply (Hin (p, q)). now left. }
    rewrite Er. cbn [bind].
    assert (Hin' : forall b, In b bs -> fst b < snd b <= length mets)
      by (intros b Hb; apply Hin; now right).
    destruct r as [[s1 e1]|].
    + destruct (min_len <=? Z.of_nat e1 - Z.of_nat s1)%Z eqn:El.
      * destruct (IH Hin' (acc ++ [(s1, e1)])) as (out & Eo & Ho).
        rewrite Eo. exists ((s1, e1) :: out). rewrite <- app_assoc.
        split; [reflexivity|].
        intros b s e [<-|Hb] Hs Hm.
        -- rewrite Er in Hs. injection Hs as <- <-. now left.
        -- right. now apply (Ho b).
      * destruct (IH Hin' acc) as (out & Eo & Ho).
        rewrite Eo. exists out. split; [reflexivity|].
        intros b s e [<-|Hb] Hs Hm.
        -- rewrite Er in Hs. injection Hs as <- <-.
           apply Z.leb_gt in El. lia.
        -- now apply (Ho b).
    + destruct (IH Hin' acc) as (out & Eo & Ho).
      rewrite Eo. exists out. split; [reflexivity|].
      intros b s e [<-|Hb] Hs Hm.
      * rewrite Er in Hs. discriminate.
      * now apply (Ho b).
Qed.

(** The blocks that survive stricter thresholds lie in blocks that survive
    looser ones. *)
Lemma surviving_cover (mets : list metrics) (min_len min_len' : Z)
  (mg mg' mc mc' : Q) (flank flank' : option Q) (r r' : Z)
  (blocks blocks' : list (nat * nat)) :
  (min_len' <= min_len)%Z -> (mg <= mg')%Q -> (mc' <= mc)%Q -> (r <= r')%Z ->
  match flank' with
  | None => True
  | Some fc' => match flank with Some fc => (fc' <= fc)%Q | None => False end
  end ->
  surviving_blocks mets min_len mg mc flank r = Ok blocks ->
  surviving_blocks mets min_len' mg' mc' flank' r' = Ok blocks' ->
  forall s e, In (s, e) blocks ->
    exists s' e', In (s', e') blocks' /\ s' <= s /\ e <= e'.
Proof.
  intros Hmin Hg Hc Hr Hflank E E' s e Hin.
  destruct (surviving_blocks_spec mets min_len mg mc flank r)
    as (a & blocks0 & Ea & La & E0 & Hpar).
  rewrite E in E0. injection E0 as <-.
  destruct (mask_stage_spec (base_mask mets mg mc) r) as (a0 & Ea0 & _ & Hchar).
  rewrite Ea in Ea0. injection Ea0 as <-.
  destruct (mask_stage_spec (base_mask mets mg' mc') r')
    as (a' & Ea' & La' & Hchar').
  rewrite length_base_mask in *.
  assert (Hsub : forall k, nth k a false = true -> nth k a' false = true).
  { apply (absorb_mono (base_mask mets mg mc) (base_mask mets mg' mc') a a' r r');
      rewrite ?length_base_mask; try assumption; try reflexivity.
    intros k Hk. pose proof (nth_true_lt _ _ Hk) as Hkl.
    rewrite length_base_mask in Hkl.
    rewrite base_mask_nth in * by exact Hkl.
    now apply (passes_relax mg mg' mc mc'). }
  destruct (Hpar (s, e) Hin) as ([p q] & Hpq & P1 & P2 & P3 & P4 & P5).
  cbn [fst snd] in *.
  destruct (find_blocks_cover a a' min_len min_len' p q) as (p' & q' & Hpq' & Q1 & Q2);
    try assumption; [lia|].
  unfold surviving_blocks in E'. rewrite Ea' in E'. cbn [bind] in E'.
  destruct flank' as [fc'|].
  - destruct flank as [fc|]; [|contradiction].
    destruct P5 as (F1 & F2 & _).
    pose proof (find_blocks_sound _ _ _ _ Hpq') as (S1 & _).
    destruct (trim_fold_complete mets fc' mg' min_len' (find_blocks a' min_len'))
      with (acc := @nil (nat * nat)) as (out & Eo & Ho).
    { intros [x y] Hb. apply find_blocks_sound in Hb. cbn [fst snd]. lia. }
    rewrite Eo in E'. injection E' as <-.
    destruct (soft_trim_block_first_last mets fc' mg' p' q' ltac:(lia))
      as (t & Et & Hnone & Hsome).
    assert (G1 : flank_ok mets fc' mg' s = true)
      by (unfold flank_ok in *; now apply (passes_relax mg mg' fc fc')).
    assert (G2 : flank_ok mets fc' mg' (e - 1) = true)
      by (unfold flank_ok in *; now apply (passes_relax mg mg' fc fc')).
    destruct t as [[s1 e1]|].
    + destruct (Hsome s1 e1 eq_refl) as (T1 & T2 & T3 & _ & _ & T6 & T7).
      assert (Hs1 : s1 <= s).
      { destruct (Nat.le_gt_cases s1 s) as [|Hlt]; [assumption|]. exfalso.
        rewrite T6 in G1 by lia. discriminate. }
      assert (He1 : e <= e1).
      { destruct (Nat.le_gt_cases e e1) as [|Hlt]; [assumption|]. exfalso.
        rewrite T7 in G2 by lia. discriminate. }
      exists s1, e1. split; [|lia].
      apply (Ho (p', q') s1 e1 Hpq' Et). lia.
    + exfalso. rewrite (proj1 Hnone eq_refl s) in G1 by lia. discriminate.
  - injection E' as <-. exists p', q'. split; [exact Hpq' | lia].
Qed.

Lemma kept_columns_in_iff (seqs : list str) (blocks : list (nat * nat))
  (drop : bool) (k : nat) :
  In k (kept_columns seqs blocks drop) <->
  (exists b, In b blocks /\ fst b <= k < snd b)
  /\ (drop = true ->
      existsb (fun s => negb (is_gap (nth k s gapc))) seqs = true).
Proof.
  split; [apply kept_columns_in|].
  intros [(b & Hb & Hk) Hd].
  assert (Hin : In k (flat_map (fun b => range (fst b) (snd b)) blocks)).
  { apply in_flat_map. exists b. split; [exact Hb|].
    unfold range. apply in_seq. lia. }
  unfold kept_columns. destruct drop; [|exact Hin].
  apply filter_In. split; [exact Hin | now apply Hd].
Qed.

(** X25. Relaxing the thresholds of [gblock_filter] never loses a column:
    with a block length that is not larger, a gap threshold that is not
    smaller, conservation and flank thresholds that are not larger (or no
    flank trimming) and a run bound that is not smaller, every column kept
    before is still kept. *)
Theorem gblock_filter_monotone (entries : list entry)
  (min_block_len min_block_len' : Z) (max_gap max_gap' min_cons min_cons' : Q)
  (flank_cons flank_cons' : option Q) (drop_all_gap_columns : bool)
  (max_noncons_run max_noncons_run' : Z)
  (Heq : all_equal_length entries = true)
  (Hlen : (min_block_len' <= min_block_len)%Z)
  (Hgap : (max_gap <= max_gap')%Q)
  (Hcons : (min_cons' <= min_cons)%Q)
  (Hrun : (max_noncons_run <= max_noncons_run')%Z)
  (Hflank : match flank_cons' with
            | None => True
            | Some fc' =>
                match flank_cons with
                | Some fc => (fc' <= fc)%Q
                | None => False
                end
            end) :
  exists keep keep',
    gblock_filter entries min_block_len max_gap min_cons flank_cons
                  drop_all_gap_columns max_noncons_run
    = Ok (map (fun e => (fst e, select keep (snd e))) entries)
    /\ gblock_filter entries min_block_len' max_gap' min_cons' flank_cons'
                     drop_all_gap_columns max_noncons_run'
       = Ok (map (fun e => (fst e, select keep' (snd e))) entries)
    /\ StronglySorted lt keep /\ StronglySorted lt keep'
    /\ incl keep keep'.
Proof.
  destruct (gblock_filter_keep entries min_block_len max_gap min_cons flank_cons
              drop_all_gap_columns max_noncons_run Heq)
    as (L & blocks & _ & HL & Eb & _ & Hs & Eg).
  destruct (gblock_filter_keep entries min_block_len' max_gap' min_cons'
              flank_cons' drop_all_gap_columns max_noncons_run' Heq)
    as (L' & blocks' & Hne & HL' & Eb' & _ & Hs' & Eg').
  assert (EL : L' = L).
  { destruct entries as [|e0 es]; [congruence|].
    rewrite Forall_forall in HL, HL'.
    transitivity (length (snd e0));
      [symmetry; exact (HL' e0 (or_introl eq_refl))
      | exact (HL e0 (or_introl eq_refl))]. }
  subst L'.
  exists (kept_columns (map snd entries) blocks drop_all_gap_columns),
         (kept_columns (map snd entries) blocks' drop_all_gap_columns).
  split; [exact Eg|]. split; [exact Eg'|]. split; [exact Hs|].
  split; [exact Hs'|].
  intros k Hk. apply kept_columns_in_iff in Hk. apply kept_columns_in_iff.
  destruct Hk as [([s e] & Hb & Hk) Hd]. split; [|exact Hd].
  destruct (surviving_cover _ _ _ _ _ _ _ _ _ _ _ _ _ Hlen Hgap Hcons Hrun
              Hflank Eb Eb' s e Hb) as (s' & e' & Hb' & H1 & H2).
  exists (s', e'). split; [exact Hb'|]. cbn [fst snd] in *. lia.
Qed.

Lemma gblock_filter_monotone_witness :
  let entries := [(lit "s1", lit "AMSTAGKLV"); (lit "s2", lit "CMST-GKIV");
                  (lit "s3", lit "DMSTTGKLV")] in
  all_equal_length entries = true
  /\ exists keep keep',
       gblock_filter entries 3 (1 # 2) (7 # 10) (Some (9 # 10)%Q) false 0
       = Ok (map (fun e => (fst e, select keep (snd e))) entries)
       /\ gblock_filter entries 2 (1 # 2) (6 # 10) None false 1
          = Ok (map (fun e => (fst e, select keep' (snd e))) entries)
       /\ incl keep keep'.
Proof.
  intros entries.
  assert (Heq : all_equal_length entries = true) by reflexivity.
  split; [exact Heq|].
  destruct (gblock_filter_monotone entries 3 2 (1 # 2) (1 # 2) (7 # 10) (6 # 10)
              (Some (9 # 10)%Q) None false 0 1 Heq)
    as (keep & keep' & H1 & H2 & _ & _ & H3).
  - lia.
  - apply Qle_refl.
  - discriminate.
  - lia.
  - exact I.
  - exists keep, keep'. split; [exact H1|]. split; [exact H2 | exact H3].
Defined.

(* --------------------------------------------------------------------- *)
(** ** Thresholds that every column meets                                  *)
(* --------------------------------------------------------------------- *)

(** X26. With thresholds that every column meets, nothing is removed: when
    the gap threshold is at least 1, the conservation threshold (and the
    flank threshold, if any) at most 0, the rows at least [min_block_len]
    long and all-gap columns are not dropped, [gblock_filter] returns its
    input. *)
Theorem gblock_filter_permissive (entries : list entry) (min_block_len : Z)
  (max_gap min_cons : Q) (flank_cons : option Q) (max_noncons_run : Z)
  (Heq : all_equal_length entries = true)
  (Hlen : Forall (fun e => (min_block_len <= Z.of_nat (length (snd e)))%Z)
                 entries)
  (Hgap : (1 <= max_gap)%Q) (Hcons : (min_cons <= 0)%Q)
  (Hflank : match flank_cons with
            | None => True
            | Some fc => (fc <= 0)%Q
            end) :
  gblock_filter entries min_block_len max_gap min_cons flank_cons false
                max_noncons_run = Ok entries.
Proof.
  destruct (gblock_filter_keep entries min_block_len max_gap min_cons flank_cons
              false max_noncons_run Heq)
    as (L & blocks & Hne & HL & Eb & Hr & _ & Eg).
  assert (HminL : (min_block_len <= Z.of_nat L)%Z).
  { destruct entries as [|e0 es]; [congruence|].
    inversion Hlen; subst. inversion HL; subst. assumption. }
  rewrite Eg. f_equal.
  set (seqs := map snd entries) in *.
  set (mets := map (fun i => metric_of (length seqs) (column seqs i))
                   (range 0 L)) in *.
  assert (Hmets : length mets = L)
    by (unfold mets, range; now rewrite length_map, length_seq, Nat.sub_0_r).
  assert (Hn : 0 < length seqs).
  { unfold seqs. rewrite length_map. destruct entries; [congruence|simpl; lia]. }
  assert (Hpass : forall t, (t <= 0)%Q -> forall k, k < L ->
            passes max_gap t (nth k mets no_metrics) = true).
  { intros t Ht k Hk. unfold mets, range. rewrite Nat.sub_0_r.
    rewrite (nth_map_in _ _ (fun i => metric_of (length seqs) (column seqs i))
               (seq 0 L) k 0 no_metrics) by (rewrite length_seq; lia).
    rewrite seq_nth by lia. cbn [Nat.add].
    destruct (metric_of_spec (length seqs) (column seqs k) Hn
                (length_column seqs k)) as ([_ G2] & [C1 _] & _).
    unfold passes. apply andb_true_iff. rewrite !Qle_bool_iff. split.
    - now apply Qle_trans with 1%Q.
    - now apply Qle_trans with 0%Q. }
  assert (Hkeep : kept_columns seqs blocks false = range 0 L).
  { destruct (Nat.eq_dec L 0) as [->|HL0].
    - destruct blocks as [|b bs]; [reflexivity|].
      specialize (Hr b (or_introl eq_refl)). lia.
    - destruct (mask_stage_spec (base_mask mets max_gap min_cons)
                  max_noncons_run) as (a & Ea & La & Hchar).
      rewrite length_base_mask in La, Hchar. rewrite Hmets in La, Hchar.
      assert (Hall : forall k, k < length a -> nth k a false = true).
      { intros k Hk. rewrite La in Hk. apply (Hchar k Hk). left.
        rewrite base_mask_nth by lia. now apply Hpass. }
      pose proof (find_blocks_all_true a min_block_len Hall ltac:(lia)
                    ltac:(lia)) as Efb.
      rewrite La in Efb.
      assert (Eblocks : blocks = [(0, L)]).
      { unfold surviving_blocks in Eb. rewrite Ea in Eb. cbn [bind] in Eb.
        rewrite Efb in Eb. destruct flank_cons as [fc|].
        - cbn [foldM] in Eb.
          destruct (soft_trim_block_spec mets fc max_gap 0 L ltac:(lia))
            as (r & Er & _ & Hends).
          rewrite Er in Eb. cbn [bind] in Eb.
          rewrite Hends in Eb
            by (unfold flank_ok; apply Hpass; [exact Hflank | lia]).
          assert (El : (min_block_len <=? Z.of_nat L - Z.of_nat 0)%Z = true)
            by (apply Z.leb_le; lia).
          rewrite El in Eb. cbn [app] in Eb. now injection Eb as <-.
        - now injection Eb as <-. }
      rewrite Eblocks. unfold kept_columns. cbn [flat_map fst snd].
      apply app_nil_r. }
  rewrite Hkeep.
  rewrite <- (map_id entries) at 2. apply map_ext_in. intros [h s] He.
  cbn [fst snd]. f_equal. rewrite Forall_forall in HL.
  specialize (HL (h, s) He). cbn [snd] in HL. rewrite <- HL. apply select_all.
Qed.

Lemma gblock_filter_permissive_witness :
  let entries := [(lit "s1", lit "AC-T"); (lit "s2", lit "AG-T")] in
  all_equal_length entries = true
  /\ gblock_filter entries 4 1 0 (Some 0%Q) false 0 = Ok entries.
Proof.
  intros entries.
  assert (Heq : all_equal_length entries = true) by reflexivity.
  split; [exact Heq|].
  apply (gblock_filter_permissive entries 4 1 0 (Some 0%Q) 0 Heq).
  - repeat constructor; cbn; lia.
  - apply Qle_refl.
  - apply Qle_refl.
  - apply Qle_refl.
Defined.
